(** * pluggy: the plugin registry of [pluggy/_manager.py]

    A shallow embedding of [PluginManager] and of the parts of its
    collaborators it drives, together with the properties of the registry
    that the design document states.

    Conventions of the embedding.
    - A Python [dict] is an insertion-ordered association list without
      duplicate keys ([Dict]): iteration order is observable in [get_name]
      and [check_pending].
    - Python objects are compared by identity ([id]); plugin objects keep
      the default equality of [object].  Their truth value, which a class
      may define with [__bool__] or [__len__], is the field [__bool__].
    - A method of [PluginManager] is a computation in the monad [M]: it
      reads and writes the manager, runs plugin code on an abstract user
      environment [Env], may raise, and appends to a journal.  When a
      computation raises, the manager is left as it was at the [raise].
    - References to [_HookCaller] objects are the keys of the hook relay's
      [__dict__]; mutation through a reference updates the relay.
    - [assert] statements are executed.
    - A warning is handed to [warnings.warn_explicit], which lies outside
      the registry: it acts on the environment and raises the warning when
      a filter turns it into an error ([Warnings]). *)

From Stdlib Require Import String Ascii List Bool Arith NArith Lia.
From Stdlib Require Import DecimalString.
Import ListNotations.
Local Open Scope string_scope.
Local Open Scope list_scope.

Set Implicit Arguments.

(* ================================================================== *)
(** ** Insertion-ordered dictionaries with string keys *)
(* ================================================================== *)

Module Dict.
Section Ops.
Context {V : Type}.

Definition t := list (string * V).

Definition empty : t := [].

(** [d.get(k)] with the absent case kept apart from a stored [None]:
    the caller decides what the default is. *)
Fixpoint get (d : t) (k : string) : option V :=
  match d with
  | [] => None
  | (k', v) :: d' => if String.eqb k' k then Some v else get d' k
  end.

(** [k in d] *)
Definition contains (d : t) (k : string) : bool :=
  match get d k with Some _ => true | None => false end.

(** [d[k] = v]: an existing key keeps its position, a new key goes last. *)
Fixpoint set (d : t) (k : string) (v : V) : t :=
  match d with
  | [] => [(k, v)]
  | (k', v') :: d' =>
      if String.eqb k' k then (k', v) :: d' else (k', v') :: set d' k v
  end.

(** [del d[k]] on a key that is present; on an absent key the result is
    [d] itself (Python raises [KeyError] there: callers test first). *)
Fixpoint del (d : t) (k : string) : t :=
  match d with
  | [] => []
  | (k', v') :: d' =>
      if String.eqb k' k then d' else (k', v') :: del d' k
  end.

Definition keys (d : t) : list string := map fst d.
Definition values (d : t) : list V := map snd d.
Definition items (d : t) : list (string * V) := d.

(** No key occurs twice: the shape every dictionary built with [set]
    from [empty] has. *)
Definition wf (d : t) : Prop := NoDup (keys d).
End Ops.
Arguments t : clear implicits.
End Dict.

(* ================================================================== *)
(** ** Python values that cross the registry's interface *)
(* ================================================================== *)

(** Hook results and keyword arguments are opaque to the registry except
    for truthiness and for indexing a result list. *)
#[warnings="-register-all"]
Inductive PyVal : Type :=
| PyNone
| PyObj (ident : N)
| PyList (elems : list PyVal).

Definition truthy (v : PyVal) : bool :=
  match v with
  | PyNone => false
  | PyObj _ => true
  | PyList [] => false
  | PyList (_ :: _) => true
  end.

Definition Kwargs := list (string * PyVal).

(** A warning instance ([hook.spec.warn_on_impl]). *)
Definition Warning := string.

(** What the registry observes of a function object: its name, the
    argument names that [varnames] extracts from its signature, and
    [inspect.isgeneratorfunction]. *)
Record Function := mkFunction {
  co_name : string;
  fn_argnames : list string;
  fn_kwargnames : list string;
  isgeneratorfunction : bool
}.

(** The options dictionary of an implementation marker,
    [_HookImplOpts], before normalisation: any key may be missing. *)
Record RawImplOpts := mkRawImplOpts {
  raw_hookwrapper : option bool;
  raw_wrapper : option bool;
  raw_optionalhook : option bool;
  raw_tryfirst : option bool;
  raw_trylast : option bool;
  raw_specname : option (option string)
}.

(** The options after normalisation, as the spec lists them: "tryfirst,
    trylast, optionalhook, hookwrapper, wrapper, specname". *)
Record _HookImplOpts := mkImplOpts {
  opt_hookwrapper : bool;
  opt_wrapper : bool;
  opt_optionalhook : bool;
  opt_tryfirst : bool;
  opt_trylast : bool;
  opt_specname : option string
}.

(** The options of a specification marker: "firstresult, historic,
    warn_on_impl". *)
Record _HookSpecOpts := mkSpecOpts {
  opt_firstresult : bool;
  opt_historic : bool;
  opt_warn_on_impl : option Warning
}.

(** The value found by [getattr(method, project_name + "_impl")] or
    [... + "_spec"]. *)
Inductive Attr : Type :=
| AttrRaises (payload : PyVal)     (* the attribute lookup itself raises *)
| AttrOther (v : PyVal)            (* a value that is not a dict *)
| AttrImplOpts (o : RawImplOpts)   (* a dict of implementation options *)
| AttrSpecOpts (o : _HookSpecOpts) (* a dict of specification options *).

(** A member of a plugin or of a specification namespace. *)
Record Member := mkMember {
  isroutine : bool;
  attrs : Dict.t Attr;
  func : Function
}.

(** A plugin object or a specification namespace: an identity, an optional
    [__name__], the truth value [bool(plugin)], and the members [dir]
    enumerates. *)
Record _Plugin := mkPlugin {
  id : N;
  __name__ : option string;
  __bool__ : bool;
  dir : list (string * Member)
}.

Definition _Namespace := _Plugin.

(** [p is q] and, for objects with the default [__eq__], [p == q]. *)
Definition plugin_is (p q : _Plugin) : bool := N.eqb (id p) (id q).

(** [p == v] where either side may be [None]. *)
Definition opt_plugin_eq (p v : option _Plugin) : bool :=
  match p, v with
  | Some a, Some b => plugin_is a b
  | None, None => true
  | _, _ => false
  end.

(** The truth value of what [self._name2plugin.get(name)] returns: [None]
    is false, a plugin object is what its class makes it. *)
Definition truthy_plugin (v : option _Plugin) : bool :=
  match v with
  | Some p => __bool__ p
  | None => false
  end.

(** [getattr(plugin, name)] for a name that [dir] lists. *)
Definition getattr_member (p : _Plugin) (name : string) : option Member :=
  Dict.get (dir p) name.

Definition hasattr (p : _Plugin) (name : string) : bool :=
  Dict.contains (dir p) name.

(** Modelled from the spec: [HookImpl] of [_hooks.py], "plugin: identity,
    plugin_name: string, callable: reference, argnames, kwargnames" and the
    declared options. *)
Module HookImpl.
Record t := mk {
  function : Function;
  argnames : list string;
  kwargnames : list string;
  plugin : _Plugin;
  opts : _HookImplOpts;
  plugin_name : string
}.
(** The constructor copies the options into the instance. *)
Definition hookwrapper (h : t) : bool := opt_hookwrapper (opts h).
Definition wrapper (h : t) : bool := opt_wrapper (opts h).
Definition optionalhook (h : t) : bool := opt_optionalhook (opts h).
Definition tryfirst (h : t) : bool := opt_tryfirst (opts h).
Definition trylast (h : t) : bool := opt_trylast (opts h).
End HookImpl.

(** Modelled from the spec: [HookSpec] of [_hooks.py], "namespace,
    function, argnames, opts: firstresult, historic, warn_on_impl". *)
Module HookSpec.
Record t := mk {
  namespace : _Namespace;
  function : Function;
  name : string;
  argnames : list string;
  kwargnames : list string;
  opts : _HookSpecOpts;
  warn_on_impl : option Warning
}.
End HookSpec.

(* ================================================================== *)
(** ** Exceptions *)
(* ================================================================== *)

(** The two registration conflicts and the empty-namespace error are all
    [ValueError]s in the source; they differ by their message. *)
Inductive ValueErrorMsg : Type :=
| Plugin_name_already_registered (plugin_name : string) (plugin : _Plugin)
| Plugin_already_registered_under_a_different_name
    (plugin_name : string) (plugin : _Plugin)
| did_not_find_any_hooks (project_name : string) (module_or_class : _Namespace).

Inductive ValidationMsg : Type :=
| historic_incompatible_to_hookwrapper (plugin_name hook_name : string)
| Arguments_not_found_in_hookspec
    (plugin_name hook_name : string) (f : Function) (notinspec : list string)
| hookwrapper_but_not_a_generator_function
    (plugin_name hook_name : string) (f : Function)
| unknown_hook (hook_name : string) (plugin : _Plugin).

Inductive exn : Type :=
| ValueError (m : ValueErrorMsg)
| AssertionError (m : string)
| PluginValidationError (plugin : _Plugin) (m : ValidationMsg)
| AttributeError (attr : string)
| IndexError
| TypeError
| Exception (payload : PyVal)      (* whatever outside code raises *).

Inductive outcome (A : Type) : Type :=
| Return (a : A)
| Raise (e : exn).
Arguments Return {A} a.
Arguments Raise {A} e.

(* ================================================================== *)
(** ** The registry *)
(* ================================================================== *)

(** The warnings machinery of the interpreter: [warnings.warn_explicit]
    issues a warning for a function.  It consults and updates the filters
    and the record of the warnings already shown, which belong to the
    environment, and it raises the warning when a filter says [error]. *)
Class Warnings (Env : Type) : Type := {
  warn_explicit : Warning -> Function -> Env -> outcome unit * Env
}.

Section Registry.

(** The state that plugin code, tracing callbacks and the warnings
    machinery act on. *)
Context {Env : Type} {warnings : Warnings Env}.

(** Code outside the registry: runs on the environment, may raise. *)
Definition Effect (A : Type) : Type := Env -> outcome A * Env.

(** The signature of [_multicall] and of every function installed in
    [_inner_hookexec]. *)
Definition Engine : Type :=
  string -> list HookImpl.t -> Kwargs -> bool -> Effect PyVal.

(** Modelled from the spec: [_Result] of [_result.py], "a small value
    wrapping either a produced value or a captured failure from one
    invocation", with [force_result] installing a value and [get_result]
    raising the captured failure or returning the value. *)
Inductive _Result : Type :=
| Produced (value : PyVal)
| Captured (excinfo : exn).

Definition from_call (f : Effect PyVal) : Env -> _Result * Env :=
  fun env =>
    match f env with
    | (Return v, env') => (Produced v, env')
    | (Raise e, env') => (Captured e, env')
    end.

Definition get_result (r : _Result) : outcome PyVal :=
  match r with
  | Produced v => Return v
  | Captured e => Raise e
  end.

Definition force_result (r : _Result) (v : PyVal) : _Result := Produced v.

(** [_BeforeTrace] and [_AfterTrace].  The [_Result] handed to [after] is
    a mutable object that [after] may change with [force_result]: the
    callback returns the object as it leaves it. *)
Definition _BeforeTrace : Type :=
  string -> list HookImpl.t -> Kwargs -> Effect unit.
Definition _AfterTrace : Type :=
  _Result -> string -> list HookImpl.t -> Kwargs -> Effect _Result.

(** Modelled from the spec: the fields of [_HookCaller] of [_hooks.py],
    "name, spec: optional HookSpec, hook_impls: ordered sequence of
    HookImpl, historic call log: sequence of (kwargs, proc) pairs if
    historic".  The [hookexec] reference of every caller is the manager's
    [_hookexec] and is not stored. *)
Record _HookCaller := mkHookCaller {
  name : string;
  spec : option HookSpec.t;
  _hookimpls : list HookImpl.t;
  _call_history : list (Kwargs * option (PyVal -> Effect unit))
}.

(** Distribution metadata is opaque to the registry. *)
Definition DistFacade := N.

(** The slots of [PluginManager]; [trace] belongs to the tracing plumbing
    and [_plugin2hookcallers] is never assigned. *)
Record PluginManager := mkPluginManager {
  project_name : string;
  _name2plugin : Dict.t (option _Plugin);
  _plugin_distinfo : list (_Plugin * DistFacade);
  hook : Dict.t _HookCaller;
  _inner_hookexec : Engine
}.

(** Assignment to one slot. *)
Definition with_name2plugin (pm : PluginManager) d : PluginManager :=
  mkPluginManager (project_name pm) d (_plugin_distinfo pm) (hook pm)
                  (_inner_hookexec pm).
Definition with_hook (pm : PluginManager) h : PluginManager :=
  mkPluginManager (project_name pm) (_name2plugin pm) (_plugin_distinfo pm) h
                  (_inner_hookexec pm).
Definition with_inner_hookexec (pm : PluginManager) e : PluginManager :=
  mkPluginManager (project_name pm) (_name2plugin pm) (_plugin_distinfo pm)
                  (hook pm) e.

(** [_multicall] of [_callers.py] is taken as given. *)
Variable _multicall : Engine.

(** [PluginManager.__init__] *)
Definition __init__ (project_name : string) : PluginManager :=
  mkPluginManager project_name Dict.empty [] Dict.empty _multicall.

(** *** The monad of registry methods *)

(** The journal records what a method does besides changing the manager
    and the environment: the warnings it issues, and (as a ghost entry
    with no counterpart in the program state) each entry into
    [_verify_hook] with the arguments it received. *)
Inductive Event : Type :=
| Warned (w : Warning) (f : Function)
| Verifying (hc : _HookCaller) (hookimpl : HookImpl.t).

Record Run (A : Type) := mkRun {
  out : outcome A;
  pm_after : PluginManager;
  env_after : Env;
  journal : list Event
}.

Definition M (A : Type) : Type := PluginManager -> Env -> Run A.

Definition ret {A} (a : A) : M A := fun pm env => mkRun (Return a) pm env [].

Definition raise {A} (e : exn) : M A := fun pm env => mkRun (Raise e) pm env [].

Definition bind {A B} (c : M A) (k : A -> M B) : M B :=
  fun pm env =>
    let r := c pm env in
    match out r with
    | Return a =>
        let r' := k a (pm_after r) (env_after r) in
        mkRun (out r') (pm_after r') (env_after r') (journal r ++ journal r')
    | Raise e => mkRun (Raise e) (pm_after r) (env_after r) (journal r)
    end.

Definition self : M PluginManager := fun pm env => mkRun (Return pm) pm env [].

Definition store (pm' : PluginManager) : M unit :=
  fun _ env => mkRun (Return tt) pm' env [].

Definition emit (ev : Event) : M unit :=
  fun pm env => mkRun (Return tt) pm env [ev].

(** Running code that lives outside the registry. *)
Definition call {A} (f : Effect A) : M A :=
  fun pm env => let (o, env') := f env in mkRun o pm env' [].

Definition assert (b : bool) (msg : string) : M unit :=
  if b then ret tt else raise (AssertionError msg).

Notation "x <- c ;; k" := (bind c (fun x => k))
  (at level 61, c at next level, right associativity).
Notation "c ;; k" := (bind c (fun _ => k))
  (at level 61, right associativity).

(** [for x in l: body(x)] *)
Fixpoint for_each {A} (l : list A) (body : A -> M unit) : M unit :=
  match l with
  | [] => ret tt
  | x :: l' => body x ;; for_each l' body
  end.

(** *** [_HookCaller] *)

(** Modelled from the spec: the accessors [has_spec] and [get_hookimpls]
    of [_hooks.py] read the "spec: optional HookSpec" and the "hook_impls"
    of the caller. *)
Definition has_spec (hc : _HookCaller) : bool :=
  match spec hc with Some _ => true | None => false end.

(** Modelled from the spec: [_HookCaller.is_historic] of [_hooks.py];
    the caller is historic when "the bound spec is historic". *)
Definition is_historic (hc : _HookCaller) : bool :=
  match spec hc with
  | Some s => opt_historic (HookSpec.opts s)
  | None => false
  end.

Definition get_hookimpls (hc : _HookCaller) : list HookImpl.t := _hookimpls hc.

(** Modelled from the spec: the ordering rule of [_HookCaller._add_hookimpl]
    of [_hooks.py]: "within each of {wrappers, plain}, stable-sort so trylast
    implementations sort before tryfirst implementations, with registration
    order preserved among equals".  Plain implementations precede wrappers
    in the list. *)
Definition is_wrapper (h : HookImpl.t) : bool :=
  HookImpl.hookwrapper h || HookImpl.wrapper h.

Definition tier (h : HookImpl.t) : nat :=
  if HookImpl.trylast h then 0 else if HookImpl.tryfirst h then 2 else 1.

Definition sorts_before_or_with (x h : HookImpl.t) : bool :=
  match is_wrapper x, is_wrapper h with
  | false, true => true
  | true, false => false
  | _, _ => Nat.leb (tier x) (tier h)
  end.

Fixpoint insert_hookimpl (l : list HookImpl.t) (h : HookImpl.t)
  : list HookImpl.t :=
  match l with
  | [] => [h]
  | x :: l' =>
      if sorts_before_or_with x h then x :: insert_hookimpl l' h
      else h :: x :: l'
  end.

Definition _add_hookimpl (hc : _HookCaller) (hookimpl : HookImpl.t)
  : _HookCaller :=
  mkHookCaller (name hc) (spec hc) (insert_hookimpl (_hookimpls hc) hookimpl)
               (_call_history hc).

(** Modelled from the spec: [_HookCaller._remove_plugin] of [_hooks.py];
    unregistering "removes every HookImpl belonging to the plugin" from the
    caller.  The argument is what [unregister] passes, which may be
    [None]. *)
Definition belongs_to (plugin : option _Plugin) (h : HookImpl.t) : bool :=
  opt_plugin_eq plugin (Some (HookImpl.plugin h)).

Definition _remove_plugin (hc : _HookCaller) (plugin : option _Plugin)
  : _HookCaller :=
  mkHookCaller (name hc) (spec hc)
               (filter (fun h => negb (belongs_to plugin h)) (_hookimpls hc))
               (_call_history hc).

(** The options read from a dictionary that has none of the keys. *)
Definition default_spec_opts : _HookSpecOpts := mkSpecOpts false false None.

(** Modelled from the spec: the constructor [HookSpec(namespace, name,
    opts)] of [_hooks.py] fills "namespace, function, argnames, opts" from
    the function of the namespace and the options dictionary; a marker that
    is not a dictionary has no [get]. *)
Definition HookSpec__init__ (namespace : _Namespace) (name : string)
    (opts : Attr) : outcome HookSpec.t :=
  match getattr_member namespace name with
  | None => Raise (AttributeError name)
  | Some m =>
      let mk o := Return (HookSpec.mk namespace (func m) name
                            (fn_argnames (func m)) (fn_kwargnames (func m))
                            o (opt_warn_on_impl o)) in
      match opts with
      | AttrSpecOpts o => mk o
      | AttrImplOpts _ => mk default_spec_opts
      | AttrOther _ | AttrRaises _ => Raise (AttributeError "get")
      end
  end.

(** Modelled from the spec: [_HookCaller.set_specification] of
    [_hooks.py]; a caller has "at most one" spec, "set exactly once
    (re-setting is not a normal operation)": a second attachment fails an
    assertion. *)
Definition set_specification (hc : _HookCaller) (namespace : _Namespace)
    (spec_opts : Attr) : outcome _HookCaller :=
  if has_spec hc then Raise (AssertionError "spec already set")
  else
    match HookSpec__init__ namespace (name hc) spec_opts with
    | Raise e => Raise e
    | Return s =>
        Return (mkHookCaller (name hc) (Some s) (_hookimpls hc)
                             (_call_history hc))
    end.

(** [_HookCaller(name, hookexec)] *)
Definition new_HookCaller (name : string) : _HookCaller :=
  mkHookCaller name None [] [].

(** [_HookCaller(name, hookexec, specmodule_or_class, spec_opts)] *)
Definition new_HookCaller_with_spec (name : string) (namespace : _Namespace)
    (spec_opts : Attr) : outcome _HookCaller :=
  set_specification (new_HookCaller name) namespace spec_opts.

(** *** [PluginManager]: lookups *)

(** Every caller calls through the engine installed at the time of the
    call. *)
Definition _hookexec (hook_name : string) (methods : list HookImpl.t)
    (kwargs : Kwargs) (firstresult : bool) : M PyVal :=
  pm <- self ;;
  call (_inner_hookexec pm hook_name methods kwargs firstresult).

(** [str(id(plugin))] *)
Definition str_id (plugin : _Plugin) : string :=
  NilZero.string_of_uint (N.to_uint (id plugin)).

(** [getattr(plugin, "__name__", None) or str(id(plugin))] *)
Definition get_canonical_name (plugin : _Plugin) : string :=
  match __name__ plugin with
  | Some n => if String.eqb n "" then str_id plugin else n
  | None => str_id plugin
  end.

(** [self._name2plugin.get(name)] *)
Definition get_plugin (pm : PluginManager) (name : string) : option _Plugin :=
  match Dict.get (_name2plugin pm) name with
  | Some v => v
  | None => None
  end.


(** The first name, in the order of the dictionary, whose value equals
    [plugin]; [None] equals the tombstone of a blocked name. *)
Definition get_name (pm : PluginManager) (plugin : option _Plugin)
  : option string :=
  match find (fun item => opt_plugin_eq plugin (snd item))
             (Dict.items (_name2plugin pm)) with
  | Some (name, _) => Some name
  | None => None
  end.

(** [any(plugin == val for val in self._name2plugin.values())], which is
    also the test [plugin in self._name2plugin.values()] of [register]. *)
Definition is_registered (pm : PluginManager) (plugin : _Plugin) : bool :=
  existsb (fun val => opt_plugin_eq (Some plugin) val)
          (Dict.values (_name2plugin pm)).

Definition list_name_plugin (pm : PluginManager)
  : list (string * option _Plugin) :=
  Dict.items (_name2plugin pm).

(** [name in self._name2plugin and self._name2plugin[name] is None] *)
Definition is_blocked (pm : PluginManager) (name : string) : bool :=
  match Dict.get (_name2plugin pm) name with
  | Some None => true
  | _ => false
  end.

(** The result lists a caller once for every implementation of the plugin
    it holds; callers are referred to by their key in the relay. *)
Definition get_hookcallers (pm : PluginManager) (plugin : option _Plugin)
  : option (list string) :=
  match get_name pm plugin with
  | None => None
  | Some _ =>
      Some (flat_map
              (fun item =>
                 map (fun _ => fst item)
                     (filter (belongs_to plugin) (get_hookimpls (snd item))))
              (Dict.items (hook pm)))
  end.

(** Mutation of the caller behind a reference. *)
Definition modify_hook (ref : string) (f : _HookCaller -> _HookCaller)
  : M unit :=
  pm <- self ;;
  match Dict.get (hook pm) ref with
  | Some hc => store (with_hook pm (Dict.set (hook pm) ref (f hc)))
  | None => ret tt
  end.

(** [setattr(self.hook, name, hc)] *)
Definition setattr_hook (name : string) (hc : _HookCaller) : M unit :=
  pm <- self ;;
  store (with_hook pm (Dict.set (hook pm) name hc)).

(** *** [PluginManager]: validation *)

(** [set(hookimpl.argnames) - set(hook.spec.argnames)] *)
Definition notinspec (impl_argnames spec_argnames : list string)
  : list string :=
  nodup string_dec
    (filter (fun a => negb (existsb (String.eqb a) spec_argnames))
            impl_argnames).

(** [_warn_for_function]: the call is journaled as [Warned] and handed to
    [warnings.warn_explicit]. *)
Definition _warn_for_function (warning : Warning) (function : Function)
  : M unit :=
  emit (Warned warning function) ;;
  call (warn_explicit warning function).

(** [PluginManager._verify_hook].  The entry is journaled (a ghost
    entry). *)
Definition _verify_hook (hook : _HookCaller) (hookimpl : HookImpl.t)
  : M unit :=
  emit (Verifying hook hookimpl) ;;
  if is_historic hook && HookImpl.hookwrapper hookimpl then
    raise (PluginValidationError (HookImpl.plugin hookimpl)
             (historic_incompatible_to_hookwrapper
                (HookImpl.plugin_name hookimpl) (name hook)))
  else
    match spec hook with
    | None => raise (AssertionError "")
    | Some hook_spec =>
        match HookSpec.warn_on_impl hook_spec with
        | Some w => _warn_for_function w (HookImpl.function hookimpl)
        | None => ret tt
        end ;;
        let notinspec :=
          notinspec (HookImpl.argnames hookimpl) (HookSpec.argnames hook_spec)
        in
        match notinspec with
        | _ :: _ =>
            raise (PluginValidationError (HookImpl.plugin hookimpl)
                     (Arguments_not_found_in_hookspec
                        (HookImpl.plugin_name hookimpl) (name hook)
                        (HookImpl.function hookimpl) notinspec))
        | [] =>
            if HookImpl.hookwrapper hookimpl
               && negb (isgeneratorfunction (HookImpl.function hookimpl))
            then
              raise (PluginValidationError (HookImpl.plugin hookimpl)
                       (hookwrapper_but_not_a_generator_function
                          (HookImpl.plugin_name hookimpl) (name hook)
                          (HookImpl.function hookimpl)))
            else ret tt
        end
    end.

(** Modelled from the spec: [_HookCaller._maybe_apply_history] of
    [_hooks.py]; a historic caller "replays that full log against any
    implementation attached afterward, in log order", each entry being the
    call's kwargs "and an optional post-processing callback", which receives
    the implementation's result when there is one. *)
Definition _maybe_apply_history (hook : _HookCaller) (method : HookImpl.t)
  : M unit :=
  if is_historic hook then
    for_each (_call_history hook)
      (fun entry =>
         res <- _hookexec (name hook) [method] (fst entry) false ;;
         match snd entry with
         | Some result_callback =>
             if truthy res then
               match res with
               | PyList (r0 :: _) => call (result_callback r0)
               | _ => raise TypeError
               end
             else ret tt
         | None => ret tt
         end)
  else ret tt.

(** *** [PluginManager.register] *)

Definition empty_raw_opts : RawImplOpts :=
  mkRawImplOpts None None None None None None.

Definition parse_hookimpl_opts (pm : PluginManager) (plugin : _Plugin)
    (name : string) : option RawImplOpts :=
  match getattr_member plugin name with
  | None => None
  | Some method =>
      if negb (isroutine method) then None
      else
        match Dict.get (attrs method) (project_name pm ++ "_impl") with
        | None => None
        | Some (AttrRaises _) => Some empty_raw_opts
        | Some (AttrImplOpts o) => Some o
        | Some (AttrSpecOpts _) => Some empty_raw_opts
        | Some (AttrOther _) => None
        end
  end.

(** Modelled from the spec: [normalize_hookimpl_opts] of [_hooks.py]; "the
    core never guesses options, it only normalizes booleans": a missing key
    gets its default. *)
Definition setdefault {A} (o : option A) (d : A) : A :=
  match o with Some a => a | None => d end.

Definition normalize_hookimpl_opts (o : RawImplOpts) : _HookImplOpts :=
  mkImplOpts (setdefault (raw_hookwrapper o) false)
             (setdefault (raw_wrapper o) false)
             (setdefault (raw_optionalhook o) false)
             (setdefault (raw_tryfirst o) false)
             (setdefault (raw_trylast o) false)
             (setdefault (raw_specname o) None).

(** [a or b] on an optional string: [None] and the empty string are
    falsy. *)
Definition str_or (a : option string) (b : string) : string :=
  match a with
  | Some s => if String.eqb s "" then b else s
  | None => b
  end.

(** [HookImpl(plugin, plugin_name, function, hook_impl_opts)]: the
    argument names are read off the function. *)
Definition HookImpl__init__ (plugin : _Plugin) (plugin_name : string)
    (method : Member) (hook_impl_opts : _HookImplOpts) : HookImpl.t :=
  HookImpl.mk (func method) (fn_argnames (func method))
              (fn_kwargnames (func method)) plugin hook_impl_opts plugin_name.

(** The body of the loop over [dir(plugin)]. *)
Definition register_member (plugin : _Plugin) (plugin_name : string)
    (name : string) : M unit :=
  pm <- self ;;
  match parse_hookimpl_opts pm plugin name with
  | None => ret tt
  | Some raw =>
      let hookimpl_opts := normalize_hookimpl_opts raw in
      match getattr_member plugin name with
      | None => raise (AttributeError name)
      | Some method =>
          let hookimpl :=
            HookImpl__init__ plugin plugin_name method hookimpl_opts in
          let name := str_or (opt_specname hookimpl_opts) name in
          match Dict.get (hook pm) name with
          | None => setattr_hook name (new_HookCaller name)
          | Some hook =>
              if has_spec hook then
                _verify_hook hook hookimpl ;;
                _maybe_apply_history hook hookimpl
              else ret tt
          end ;;
          modify_hook name (fun hook => _add_hookimpl hook hookimpl)
      end
  end.

Definition register (plugin : _Plugin) (name : option string)
  : M (option string) :=
  let plugin_name := str_or name (get_canonical_name plugin) in
  pm <- self ;;
  if Dict.contains (_name2plugin pm) plugin_name then
    match Dict.get (_name2plugin pm) plugin_name with
    | Some None => ret None
    | _ => raise (ValueError
                    (Plugin_name_already_registered plugin_name plugin))
    end
  else if is_registered pm plugin then
    raise (ValueError
             (Plugin_already_registered_under_a_different_name
                plugin_name plugin))
  else
    store (with_name2plugin pm
             (Dict.set (_name2plugin pm) plugin_name (Some plugin))) ;;
    for_each (Dict.keys (dir plugin)) (register_member plugin plugin_name) ;;
    ret (Some plugin_name).

(** The relay after a loop that updates, in place, the caller behind each
    reference of [refs] with [f]. *)
Definition modify_all (f : _HookCaller -> _HookCaller) (refs : list string)
    (d : Dict.t _HookCaller) : Dict.t _HookCaller :=
  fold_left
    (fun d ref =>
       match Dict.get d ref with
       | Some hc => Dict.set d ref (f hc)
       | None => d
       end)
    refs d.

(** *** [PluginManager.unregister], [set_blocked] *)

Definition is_not_None {A} (o : option A) : bool :=
  match o with Some _ => true | None => false end.

Definition unregister (plugin : option _Plugin) (name : option string)
  : M (option _Plugin) :=
  pm <- self ;;
  name <- match name with
          | Some n => ret n
          | None =>
              assert (is_not_None plugin)
                     "one of name or plugin needs to be specified" ;;
              match get_name pm plugin with
              | Some n => ret n
              | None => raise (AssertionError "plugin is not registered")
              end
          end ;;
  let plugin :=
    match plugin with
    | None => get_plugin pm name
    | Some p => Some p
    end in
  match get_hookcallers pm plugin with
  | Some ((_ :: _) as hookcallers) =>
      for_each hookcallers
        (fun hookcaller =>
           modify_hook hookcaller (fun hc => _remove_plugin hc plugin))
  | _ => ret tt
  end ;;
  pm <- self ;;
  (if truthy_plugin (get_plugin pm name) then
     store (with_name2plugin pm (Dict.del (_name2plugin pm) name))
   else ret tt) ;;
  ret plugin.

(** The manager that [unregister] leaves once it has resolved its two
    arguments to [plugin] and [name]. *)
Definition unregistered (pm : PluginManager) (plugin : option _Plugin)
    (name : string) : PluginManager :=
  let hook' :=
    match get_hookcallers pm plugin with
    | Some ((_ :: _) as hookcallers) =>
        modify_all (fun hc => _remove_plugin hc plugin) hookcallers (hook pm)
    | _ => hook pm
    end in
  let name2plugin' :=
    if truthy_plugin (get_plugin pm name)
    then Dict.del (_name2plugin pm) name
    else _name2plugin pm in
  mkPluginManager (project_name pm) name2plugin' (_plugin_distinfo pm) hook'
                  (_inner_hookexec pm).

Definition set_blocked (name : string) : M unit :=
  unregister None (Some name) ;;
  pm <- self ;;
  store (with_name2plugin pm (Dict.set (_name2plugin pm) name None)).

(** *** [PluginManager.add_hookspecs] *)

(** The marker is whatever [getattr(method, project_name + "_spec", None)]
    finds; only [None] means "not a specification". *)
Definition parse_hookspec_opts (pm : PluginManager)
    (module_or_class : _Namespace) (name : string) : outcome (option Attr) :=
  match getattr_member module_or_class name with
  | None => Raise (AttributeError name)
  | Some method =>
      match Dict.get (attrs method) (project_name pm ++ "_spec") with
      | None => Return None
      | Some (AttrRaises payload) => Raise (Exception payload)
      | Some (AttrOther PyNone) => Return None
      | Some opts => Return (Some opts)
      end
  end.

Definition lift {A} (o : outcome A) : M A :=
  match o with
  | Return a => ret a
  | Raise e => raise e
  end.

(** The body of the loop over [dir(module_or_class)]; the result is what
    the iteration appends to [names]. *)
Definition add_hookspecs_member (module_or_class : _Namespace)
    (name : string) : M (list string) :=
  pm <- self ;;
  spec_opts <- lift (parse_hookspec_opts pm module_or_class name) ;;
  match spec_opts with
  | None => ret []
  | Some spec_opts =>
      match Dict.get (hook pm) name with
      | None =>
          hc <- lift (new_HookCaller_with_spec name module_or_class spec_opts) ;;
          setattr_hook name hc
      | Some hc =>
          hc' <- lift (set_specification hc module_or_class spec_opts) ;;
          setattr_hook name hc' ;;
          for_each (get_hookimpls hc')
                   (fun hookfunction => _verify_hook hc' hookfunction)
      end ;;
      ret [name]
  end.

Fixpoint add_hookspecs_loop (module_or_class : _Namespace)
    (todo : list string) (names : list string) : M (list string) :=
  match todo with
  | [] => ret names
  | name :: todo' =>
      appended <- add_hookspecs_member module_or_class name ;;
      add_hookspecs_loop module_or_class todo' (names ++ appended)
  end.

Definition add_hookspecs (module_or_class : _Namespace) : M unit :=
  names <- add_hookspecs_loop module_or_class
             (Dict.keys (dir module_or_class)) [] ;;
  match names with
  | [] =>
      pm <- self ;;
      raise (ValueError
               (did_not_find_any_hooks (project_name pm) module_or_class))
  | _ :: _ => ret tt
  end.

(** *** [PluginManager.check_pending] *)

Definition check_pending_hook (name : string) (hook : _HookCaller) : M unit :=
  match name with
  | EmptyString => raise IndexError
  | String c _ =>
      if negb (Ascii.eqb c "_") then
        if negb (has_spec hook) then
          for_each (get_hookimpls hook)
            (fun hookimpl =>
               if negb (HookImpl.optionalhook hookimpl) then
                 raise (PluginValidationError (HookImpl.plugin hookimpl)
                          (unknown_hook name (HookImpl.plugin hookimpl)))
               else ret tt)
        else ret tt
      else ret tt
  end.

Definition check_pending : M unit :=
  pm <- self ;;
  for_each (Dict.items (hook pm))
           (fun item => check_pending_hook (fst item) (snd item)).

(** *** [PluginManager.add_hookcall_monitoring] *)

Definition traced_hookexec (before : _BeforeTrace) (after : _AfterTrace)
    (oldcall : Engine) : Engine :=
  fun hook_name hook_impls caller_kwargs firstresult env =>
    match before hook_name hook_impls caller_kwargs env with
    | (Raise e, env1) => (Raise e, env1)
    | (Return _, env1) =>
        let (outcome, env2) :=
          from_call (oldcall hook_name hook_impls caller_kwargs firstresult)
                    env1 in
        match after outcome hook_name hook_impls caller_kwargs env2 with
        | (Raise e, env3) => (Raise e, env3)
        | (Return outcome', env3) => (get_result outcome', env3)
        end
    end.

(** The closure [undo]: it assigns the [oldcall] it captured. *)
Definition undo (oldcall : Engine) : M unit :=
  pm <- self ;;
  store (with_inner_hookexec pm oldcall).

Definition add_hookcall_monitoring (before : _BeforeTrace)
    (after : _AfterTrace) : M (M unit) :=
  pm <- self ;;
  let oldcall := _inner_hookexec pm in
  store (with_inner_hookexec pm (traced_hookexec before after oldcall)) ;;
  ret (undo oldcall).

(** *** [PluginManager.subset_hook_caller] *)

(** What [subset_hook_caller] returns: the caller itself, or a
    [_SubsetHookCaller] over it. *)
Inductive HookCallerProxy : Type :=
| Orig (orig : string)
| _SubsetHookCaller (orig : string) (remove_plugins : list _Plugin).

Definition subset_hook_caller (name : string) (remove_plugins : list _Plugin)
  : M HookCallerProxy :=
  pm <- self ;;
  match Dict.get (hook pm) name with
  | None => raise (AttributeError name)
  | Some _ =>
      let plugins_to_remove :=
        filter (fun plug => hasattr plug name) remove_plugins in
      match plugins_to_remove with
      | _ :: _ => ret (_SubsetHookCaller name plugins_to_remove)
      | [] => ret (Orig name)
      end
  end.

(** Modelled from the spec: the implementation list and the call entry
    point of [_HookCaller] and [_SubsetHookCaller] of [_hooks.py].  A call
    on a hook "routes through PluginManager, HookCaller, Multicall engine,
    which executes the ordered implementation list"; the subset view
    "filters the owning HookCaller's current implementation list to exclude
    any implementation whose plugin is in the excluded set, then delegates
    to the same engine". *)
Definition in_plugins (remove_plugins : list _Plugin) (h : HookImpl.t)
  : bool :=
  existsb (plugin_is (HookImpl.plugin h)) remove_plugins.

Definition proxy_orig (proxy : HookCallerProxy) : string :=
  match proxy with
  | Orig n => n
  | _SubsetHookCaller n _ => n
  end.

Definition proxy_hookimpls (pm : PluginManager) (proxy : HookCallerProxy)
  : list HookImpl.t :=
  match Dict.get (hook pm) (proxy_orig proxy) with
  | None => []
  | Some hc =>
      match proxy with
      | Orig _ => get_hookimpls hc
      | _SubsetHookCaller _ remove_plugins =>
          filter (fun h => negb (in_plugins remove_plugins h))
                 (get_hookimpls hc)
      end
  end.

Definition proxy_firstresult (pm : PluginManager) (proxy : HookCallerProxy)
  : bool :=
  match Dict.get (hook pm) (proxy_orig proxy) with
  | Some hc =>
      match spec hc with
      | Some s => opt_firstresult (HookSpec.opts s)
      | None => false
      end
  | None => false
  end.

Definition proxy_call (proxy : HookCallerProxy) (kwargs : Kwargs) : M PyVal :=
  pm <- self ;;
  _hookexec (proxy_orig proxy) (proxy_hookimpls pm proxy) kwargs
            (proxy_firstresult pm proxy).

(** Modelled from the spec: [_HookCaller.call_historic] of [_hooks.py]; a
    historic caller "logs every call's kwargs (and an optional
    post-processing callback) after executing".  The callback
    post-processes each result of the call. *)
Definition log_call (kwargs : Kwargs)
    (result_callback : option (PyVal -> Effect unit)) (hc : _HookCaller)
  : _HookCaller :=
  mkHookCaller (name hc) (spec hc) (_hookimpls hc)
               (_call_history hc ++ [(kwargs, result_callback)]).

Definition call_historic (hook_name : string)
    (result_callback : option (PyVal -> Effect unit)) (kwargs : Kwargs)
  : M unit :=
  pm <- self ;;
  match Dict.get (hook pm) hook_name with
  | None => raise (AttributeError hook_name)
  | Some hc =>
      res <- _hookexec hook_name (get_hookimpls hc) kwargs false ;;
      match result_callback, res with
      | Some cb, PyList results => for_each results (fun x => call (cb x))
      | _, _ => ret tt
      end ;;
      modify_hook hook_name (log_call kwargs result_callback)
  end.

(** *** Vocabulary for the properties *)

(** [pm'] differs from [pm] at most in the hook relay. *)
Definition same_but_hooks (pm pm' : PluginManager) : Prop :=
  project_name pm' = project_name pm
  /\ _name2plugin pm' = _name2plugin pm
  /\ _plugin_distinfo pm' = _plugin_distinfo pm
  /\ _inner_hookexec pm' = _inner_hookexec pm.

(** A computation that, from any manager, ends in a manager related to
    it by [R], whether it returns or raises. *)
Definition stable {A} (R : PluginManager -> PluginManager -> Prop) (c : M A)
  : Prop :=
  forall pm env, R pm (pm_after (c pm env)).

(** A computation that changes at most the relay. *)
Definition touches_only_hooks {A} (c : M A) : Prop := stable same_but_hooks c.

(** [pm'] is [pm] with implementations of [plugin] added to callers and
    with new callers that hold only implementations of [plugin]: removing
    the implementations of [plugin] from a caller of [pm'] gives what it
    gives in [pm], or a fresh caller. *)
Definition grows_by (plugin : _Plugin) (pm pm' : PluginManager) : Prop :=
  same_but_hooks pm pm'
  /\ forall k,
       match Dict.get (hook pm') k with
       | None => Dict.get (hook pm) k = None
       | Some hc' =>
           _remove_plugin hc' (Some plugin)
           = match Dict.get (hook pm) k with
             | Some hc => _remove_plugin hc (Some plugin)
             | None => new_HookCaller k
             end
       end.

(** The [Verifying] entries of a journal, in order. *)
Fixpoint verifications (j : list Event) : list (_HookCaller * HookImpl.t) :=
  match j with
  | [] => []
  | Verifying hc h :: j' => (hc, h) :: verifications j'
  | Warned _ _ :: j' => verifications j'
  end.

(** A computation that changes neither the manager nor the environment
    and journals nothing, whether it returns or raises. *)
Definition observes_only {A} (c : M A) : Prop :=
  forall pm env,
    pm_after (c pm env) = pm /\ env_after (c pm env) = env
    /\ journal (c pm env) = [].

(** [name[0] != "_"] for a name that has a first character. *)
Definition is_public (name : string) : bool :=
  match name with
  | EmptyString => false
  | String c _ => negb (Ascii.eqb c "_")
  end.

(** The implementation [h], held by the caller [hc] stored under [n], is
    what [check_pending] looks for: a public hook name, no spec, and an
    implementation that is not optional. *)
Definition unknown_hookimpl (n : string) (hc : _HookCaller) (h : HookImpl.t)
  : Prop :=
  is_public n = true /\ has_spec hc = false
  /\ In h (get_hookimpls hc) /\ HookImpl.optionalhook h = false.

Definition has_unknown_hookimpl (pm : PluginManager) : Prop :=
  exists n hc h, In (n, hc) (Dict.items (hook pm)) /\ unknown_hookimpl n hc h.

(** What [check_pending] looks for and comes to: some caller holds such an
    implementation, and no hook named by the empty string comes before
    that caller in the relay. *)
Definition has_unknown_hookimpl_in_reach (pm : PluginManager) : Prop :=
  exists before n hc after h,
    Dict.items (hook pm) = before ++ (n, hc) :: after
    /\ ~ In "" (map fst before)
    /\ unknown_hookimpl n hc h.

(** A computation that journals nothing. *)
Definition silent {A} (c : M A) : Prop :=
  forall pm env, journal (c pm env) = [].

(** The calls a host can make on a manager.  A host that catches what a
    call raises goes on with the manager as the call left it. *)
Inductive ApiCall : Type :=
| Register (plugin : _Plugin) (name : option string)
| Unregister (plugin : option _Plugin) (name : option string)
| SetBlocked (name : string)
| AddHookspecs (module_or_class : _Namespace)
| CheckPending
| AddHookcallMonitoring (before : _BeforeTrace) (after : _AfterTrace)
| SubsetHookCaller (name : string) (remove_plugins : list _Plugin)
| HookCall (proxy : HookCallerProxy) (kwargs : Kwargs)
| CallHistoric (hook_name : string)
    (result_callback : option (PyVal -> Effect unit)) (kwargs : Kwargs)
| Undo (oldcall : Engine).

Definition perform (c : ApiCall) (pm : PluginManager) (env : Env)
  : PluginManager * Env :=
  let state {A} (r : Run A) := (pm_after r, env_after r) in
  match c with
  | Register plugin name => state (register plugin name pm env)
  | Unregister plugin name => state (unregister plugin name pm env)
  | SetBlocked name => state (set_blocked name pm env)
  | AddHookspecs ns => state (add_hookspecs ns pm env)
  | CheckPending => state (check_pending pm env)
  | AddHookcallMonitoring before after =>
      state (add_hookcall_monitoring before after pm env)
  | SubsetHookCaller name remove_plugins =>
      state (subset_hook_caller name remove_plugins pm env)
  | HookCall proxy kwargs => state (proxy_call proxy kwargs pm env)
  | CallHistoric hook_name result_callback kwargs =>
      state (call_historic hook_name result_callback kwargs pm env)
  | Undo oldcall => state (undo oldcall pm env)
  end.

Fixpoint perform_all (cs : list ApiCall) (pm : PluginManager) (env : Env)
  : PluginManager * Env :=
  match cs with
  | [] => (pm, env)
  | c :: cs' =>
      let (pm', env') := perform c pm env in perform_all cs' pm' env'
  end.

(** [pm'] holds, caller by caller, the implementations [pm] holds; its
    new callers hold none. *)
Definition keeps_hookimpls (pm pm' : PluginManager) : Prop :=
  same_but_hooks pm pm'
  /\ forall k,
       match Dict.get (hook pm') k with
       | None => Dict.get (hook pm) k = None
       | Some hc' =>
           _hookimpls hc'
           = match Dict.get (hook pm) k with
             | Some hc => _hookimpls hc
             | None => []
             end
       end.

(** Every implementation a caller of [pm] holds is still held by that
    caller in [pm']. *)
Definition retains (pm pm' : PluginManager) : Prop :=
  same_but_hooks pm pm'
  /\ forall k hc h,
       Dict.get (hook pm) k = Some hc -> In h (_hookimpls hc) ->
       exists hc', Dict.get (hook pm') k = Some hc' /\ In h (_hookimpls hc').

(** The invariant of the registry: names are bound once, and every
    implementation a caller holds belongs to a registered plugin. *)
Definition consistent (pm : PluginManager) : Prop :=
  Dict.wf (_name2plugin pm)
  /\ forall k hc h,
       Dict.get (hook pm) k = Some hc -> In h (_hookimpls hc) ->
       is_registered pm (HookImpl.plugin h) = true.



(** *** [PluginManager.get_plugins], [list_plugin_distinfo] *)




(** [list(self._plugin_distinfo)] *)
Definition list_plugin_distinfo (pm : PluginManager)
  : list (_Plugin * DistFacade) :=
  _plugin_distinfo pm.

(** *** [PluginManager.load_setuptools_entrypoints] *)

(** What the registry reads of an entry point and of a distribution of
    [importlib_metadata]: the name and the group of the entry point, its
    [load], which imports and runs code of the plugin's package, and the
    entry points of the distribution. *)
Record EntryPoint := mkEntryPoint {
  ep_name : string;
  ep_group : string;
  ep_load : Effect _Plugin
}.

Record Distribution := mkDistribution {
  dist_id : N;
  entry_points : list EntryPoint
}.

(** [DistFacade(dist)] wraps the distribution and delegates to it. *)
Definition DistFacade__init__ (dist : Distribution) : DistFacade :=
  dist_id dist.

Definition with_plugin_distinfo (pm : PluginManager) l : PluginManager :=
  mkPluginManager (project_name pm) (_name2plugin pm) l (hook pm)
                  (_inner_hookexec pm).

(** The condition under which the loop goes on to the next entry point
    without loading this one. *)
Definition skips (pm : PluginManager) (group : string) (name : option string)
    (ep : EntryPoint) : bool :=
  negb (String.eqb (ep_group ep) group)
  || match name with
     | Some n => negb (String.eqb (ep_name ep) n)
     | None => false
     end
  || truthy_plugin (get_plugin pm (ep_name ep))
  || is_blocked pm (ep_name ep).

(** The body of the inner loop; the result is what the iteration adds to
    [count]. *)
Definition load_entry_point (group : string) (name : option string)
    (dist : Distribution) (ep : EntryPoint) : M nat :=
  pm <- self ;;
  if skips pm group name ep then ret 0
  else
    plugin <- call (ep_load ep) ;;
    register plugin (Some (ep_name ep)) ;;
    pm <- self ;;
    store (with_plugin_distinfo pm
             (_plugin_distinfo pm ++ [(plugin, DistFacade__init__ dist)])) ;;
    ret 1.

Fixpoint load_entry_points (group : string) (name : option string)
    (dist : Distribution) (eps : list EntryPoint) (count : nat) : M nat :=
  match eps with
  | [] => ret count
  | ep :: eps' =>
      loaded <- load_entry_point group name dist ep ;;
      load_entry_points group name dist eps' (count + loaded)
  end.

Fixpoint load_distributions (group : string) (name : option string)
    (dists : list Distribution) (count : nat) : M nat :=
  match dists with
  | [] => ret count
  | dist :: dists' =>
      count <- load_entry_points group name dist (entry_points dist) count ;;
      load_distributions group name dists' count
  end.

(** [distributions] is what [importlib_metadata.distributions()] lists
    when the method is called. *)
Definition load_setuptools_entrypoints (distributions : list Distribution)
    (group : string) (name : option string) : M nat :=
  load_distributions group name distributions 0.

(** *** Further vocabulary *)

(** The members of a namespace that carry a specification marker. *)
Definition marked (pm : PluginManager) (ns : _Namespace) (n : string)
  : bool :=
  match parse_hookspec_opts pm ns n with
  | Return (Some _) => true
  | _ => false
  end.

(** No plugin is bound to two names. *)
Definition one_name_per_plugin (pm : PluginManager) : Prop :=
  forall n m (p q : _Plugin),
    In (n, Some p) (_name2plugin pm) -> In (m, Some q) (_name2plugin pm) ->
    plugin_is p q = true -> n = m.

(** Names and registered plugins correspond one to one. *)
Definition one_to_one (pm : PluginManager) : Prop :=
  Dict.wf (_name2plugin pm) /\ one_name_per_plugin pm.

(** The entry points of [distributions], each with the facade of its
    distribution, in the order of the two loops. *)
Definition all_entry_points (distributions : list Distribution)
  : list (Distribution * EntryPoint) :=
  flat_map (fun dist => map (pair dist) (entry_points dist)) distributions.

(** The pair [entry] of [list_plugin_distinfo] stands for the entry point
    [ep] of the distribution [dist]: [ep] is of the requested group and
    name, its [load] returned the plugin, and the facade is that of
    [dist]. *)
Definition loaded_by (group : string) (name : option string)
    (dist : Distribution) (ep : EntryPoint) (entry : _Plugin * DistFacade)
  : Prop :=
  snd entry = DistFacade__init__ dist
  /\ ep_group ep = group
  /\ (forall n, name = Some n -> ep_name ep = n)
  /\ exists env0, fst (ep_load ep env0) = Return (fst entry).

(** Every name bound in [pm] is bound to the same value in [pm']. *)
Definition keeps_bindings (pm pm' : PluginManager) : Prop :=
  forall m v,
    Dict.get (_name2plugin pm) m = Some v ->
    Dict.get (_name2plugin pm') m = Some v.

End Registry.

(* ================================================================== *)
(** ** Tracing of hook calls *)
(* ================================================================== *)

From Stdlib Require Import ZArith.

(** An argument of a call of the tracer. *)
Inductive TraceArg : Type :=
| TraceStr (s : string)
| TraceKwargs (kwargs : Kwargs)
| TraceVal (v : PyVal).

Section Tracing.
Context {Env : Type}.

(** The tracer of [_tracing.py] is taken as given: [hooktrace] is what
    [self.trace.root.get("hook")] returns, a callable that processes a
    message, and [indent] and [set_indent] read and assign the integer
    attribute [hooktrace.root.indent].  The tracer's state is part of the
    environment. *)
Variable indent : Env -> Z.
Variable set_indent : Z -> Env -> Env.
Variable hooktrace : list TraceArg -> @Effect Env unit.

(** The closure [before] of [enable_tracing]. *)
Definition enable_tracing_before : @_BeforeTrace Env :=
  fun hook_name methods kwargs env =>
    hooktrace [TraceStr hook_name; TraceKwargs kwargs]
              (set_indent (indent env + 1) env).

(** The closure [after] of [enable_tracing]; it hands the outcome back
    as it received it. *)
Definition enable_tracing_after : @_AfterTrace Env :=
  fun outcome hook_name methods kwargs env =>
    let traced :=
      match outcome with
      | Produced v =>
          hooktrace [TraceStr "finish"; TraceStr hook_name; TraceStr "-->";
                     TraceVal v] env
      | Captured _ => (Return tt, env)
      end in
    match traced with
    | (Raise e, env1) => (Raise e, env1)
    | (Return _, env1) => (Return outcome, set_indent (indent env1 - 1) env1)
    end.

Definition enable_tracing : @M Env (@M Env unit) :=
  add_hookcall_monitoring enable_tracing_before enable_tracing_after.

End Tracing.
(* ================================================================== *)
(** ** Concrete managers and plugins for the examples *)
(* ================================================================== *)

(** Over the trivial environment warnings are issued and never raised. *)
#[export] Instance quiet_warnings : Warnings unit :=
  {| warn_explicit := fun _ _ env => (Return tt, env) |}.

(** An engine that calls nothing, over a trivial environment. *)
Definition null_engine : @Engine unit :=
  fun _ _ _ _ env => (Return (PyList []), env).

(** A manager for the project [demo], as [PluginManager("demo")] builds
    it. *)
Definition demo_manager : @PluginManager unit := __init__ null_engine "demo".

(** A routine carrying the implementation marker of [demo]. *)
Definition hookimpl_member (o : RawImplOpts) (f : Function) : Member :=
  mkMember true [("demo_impl", AttrImplOpts o)] f.

(** A routine carrying the specification marker of [demo]. *)
Definition hookspec_member (o : _HookSpecOpts) (f : Function) : Member :=
  mkMember true [("demo_spec", AttrSpecOpts o)] f.

Definition fn_on_load : Function := mkFunction "on_load" ["config"] [] false.

Definition alpha : _Plugin :=
  mkPlugin 1 (Some "alpha") true
           [("on_load", hookimpl_member empty_raw_opts fn_on_load)].

Definition beta : _Plugin :=
  mkPlugin 2 (Some "beta") true
           [("on_load", hookimpl_member empty_raw_opts fn_on_load)].

(** The manager after [register(alpha)]. *)
Definition demo_with_alpha : @PluginManager unit :=
  pm_after (register alpha None demo_manager tt).

(** A specification namespace declaring [on_load(config)], the spec it
    yields, and a caller bound to that spec. *)
Definition demo_specs : _Namespace :=
  mkPlugin 10 (Some "demo_specs") true
           [("on_load", hookspec_member default_spec_opts fn_on_load)].

Definition on_load_spec : HookSpec.t :=
  HookSpec.mk demo_specs fn_on_load "on_load" ["config"] [] default_spec_opts
              None.

Definition on_load_caller : @_HookCaller unit :=
  mkHookCaller "on_load" (Some on_load_spec) [] [].

(** An implementation of [on_load] that asks for an argument the spec does
    not declare. *)
Definition greedy_impl : HookImpl.t :=
  HookImpl.mk (mkFunction "on_load" ["config"; "session"] [] false)
              ["config"; "session"] [] alpha
              (normalize_hookimpl_opts empty_raw_opts) "alpha".

(** A plugin whose only implementation is a method with a private name. *)
Definition gamma : _Plugin :=
  mkPlugin 3 (Some "gamma") true
           [("_cleanup",
             hookimpl_member empty_raw_opts
                             (mkFunction "_cleanup" [] [] false))].

Definition demo_with_gamma : @PluginManager unit :=
  pm_after (register gamma None demo_manager tt).

(** A plugin that implements [on_load] with a method of another name, by
    way of [specname]. *)
Definition delta : _Plugin :=
  mkPlugin 4 (Some "delta") true
           [("handler",
             hookimpl_member
               (mkRawImplOpts None None None None None (Some (Some "on_load")))
               fn_on_load)].

Definition demo_with_alpha_delta : @PluginManager unit :=
  pm_after (register delta None demo_with_alpha tt).

(** A namespace that specifies [on_load(config)] and [on_stop(config)],
    and the manager that knows these specs. *)
Definition fn_on_stop : Function := mkFunction "on_stop" ["config"] [] false.

Definition lifecycle_specs : _Namespace :=
  mkPlugin 11 (Some "lifecycle_specs") true
           [("on_load", hookspec_member default_spec_opts fn_on_load);
            ("on_stop", hookspec_member default_spec_opts fn_on_stop)].

Definition demo_with_specs : @PluginManager unit :=
  pm_after (add_hookspecs lifecycle_specs demo_manager tt).

(** A plugin whose [on_load] fits the spec and whose [on_stop] asks for an
    argument the spec does not declare. *)
Definition epsilon : _Plugin :=
  mkPlugin 5 (Some "epsilon") true
           [("on_load", hookimpl_member empty_raw_opts fn_on_load);
            ("on_stop",
             hookimpl_member empty_raw_opts
                             (mkFunction "on_stop" ["code"] [] false))].


(** Two plugin objects without a [__name__] and without members. *)
Definition anonymous7 : _Plugin := mkPlugin 7 None true [].
Definition anonymous8 : _Plugin := mkPlugin 8 None true [].

(** A plugin whose members carry no marker of [demo]: a plain routine and
    an attribute that is not a routine. *)
Definition zeta : _Plugin :=
  mkPlugin 6 (Some "zeta") true
           [("helper", mkMember true [] (mkFunction "helper" [] [] false));
            ("on_load",
             mkMember false [("demo_impl", AttrImplOpts empty_raw_opts)]
                      fn_on_load)].

(** A tracer that keeps its indentation and the messages it was given,
    an engine that calls nothing over that environment, and the manager
    built on them. *)
Definition TraceEnv : Type := Z * list (list TraceArg).

Definition trace_indent (env : TraceEnv) : Z := fst env.

Definition trace_set_indent (z : Z) (env : TraceEnv) : TraceEnv :=
  (z, snd env).

Definition trace_log (args : list TraceArg) : @Effect TraceEnv unit :=
  fun env => (Return tt, (fst env, snd env ++ [args])).

Definition quiet_engine : @Engine TraceEnv :=
  fun _ _ _ _ env => (Return (PyList []), env).

Definition traced_manager : @PluginManager TraceEnv :=
  __init__ quiet_engine "demo".

(** Distributions over the trivial environment: the first offers [alpha]
    to the group [demo] and [beta] to another group, the second offers
    [beta] to the group [demo]. *)
Definition ep_alpha : @EntryPoint unit :=
  mkEntryPoint "alpha" "demo" (fun env => (Return alpha, env)).

Definition ep_elsewhere : @EntryPoint unit :=
  mkEntryPoint "beta" "elsewhere" (fun env => (Return beta, env)).

Definition ep_beta : @EntryPoint unit :=
  mkEntryPoint "beta" "demo" (fun env => (Return beta, env)).

Definition dist_one : @Distribution unit :=
  mkDistribution 100 [ep_alpha; ep_elsewhere].

Definition dist_two : @Distribution unit := mkDistribution 101 [ep_beta].

(** A namespace without any specification marker. *)
Definition no_specs : _Namespace :=
  mkPlugin 12 (Some "no_specs") true
           [("helper", mkMember true [] (mkFunction "helper" [] [] false))].

(** The manager after [register(alpha)] and [register(beta)]. *)
Definition demo_with_alpha_beta : @PluginManager unit :=
  pm_after (register beta None demo_with_alpha tt).

(** A plugin object that is false: its class defines [__len__] and it is
    empty. *)
Definition hollow : _Plugin :=
  mkPlugin 9 (Some "hollow") false
           [("on_load", hookimpl_member empty_raw_opts fn_on_load)].

(** An environment that is the setting of the warnings filter: [true]
    when warnings are turned into errors ([-W error]), in which case
    [warn_explicit] raises the warning, an object opaque to the registry;
    [false] when they are only shown. *)
#[export] Instance filtered_warnings : Warnings bool :=
  {| warn_explicit :=
       fun _ _ (env : bool) =>
         if env then (Raise (Exception (PyObj 0)), env)
         else (Return tt, env) |}.

Definition filtered_manager : @PluginManager bool :=
  __init__ (fun _ _ _ _ env => (Return (PyList []), env)) "demo".

(** The spec of [on_load(config)] carrying a warning for those who
    implement it, a caller bound to it, and an implementation that fits
    it. *)
Definition deprecated_spec : HookSpec.t :=
  HookSpec.mk demo_specs fn_on_load "on_load" ["config"] []
              (mkSpecOpts false false (Some "on_load is deprecated"))
              (Some "on_load is deprecated").

Definition deprecated_caller : @_HookCaller bool :=
  mkHookCaller "on_load" (Some deprecated_spec) [] [].

Definition plain_impl : HookImpl.t :=
  HookImpl.mk fn_on_load ["config"] [] alpha
              (normalize_hookimpl_opts empty_raw_opts) "alpha".
(* ================================================================== *)
(** ** Facts about dictionaries *)
(* ================================================================== *)

Section DictFacts.
Context {V : Type}.
Implicit Types (d : Dict.t V) (k : string) (v : V).

Lemma Dict_get_set_same d k v : Dict.get (Dict.set d k v) k = Some v.
Proof.
  induction d as [|[k' v'] d IH]; simpl.
  - now rewrite String.eqb_refl.
  - destruct (String.eqb k' k) eqn:E; simpl; rewrite E; auto.
Qed.

Lemma Dict_get_set_other d k k' v :
  k <> k' -> Dict.get (Dict.set d k v) k' = Dict.get d k'.
Proof.
  intros Hne. induction d as [|[k0 v0] d IH]; simpl.
  - destruct (String.eqb_spec k k'); congruence.
  - destruct (String.eqb_spec k0 k) as [->|Hk]; simpl.
    + destruct (String.eqb_spec k k'); congruence.
    + now rewrite IH.
Qed.

Lemma Dict_set_fresh d k v :
  Dict.get d k = None -> Dict.set d k v = d ++ [(k, v)].
Proof.
  induction d as [|[k0 v0] d IH]; simpl; auto.
  destruct (String.eqb k0 k); [discriminate|].
  intros H. now rewrite IH.
Qed.



Lemma Dict_get_del_same d k :
  Dict.wf d -> Dict.get (Dict.del d k) k = None.
Proof.
  unfold Dict.wf, Dict.keys.
  induction d as [|[k0 v0] d IH]; simpl; auto.
  intros Hnd. inversion Hnd as [|? ? Hnin Hnd']; subst.
  destruct (String.eqb_spec k0 k) as [->|Hk].
  - clear IH Hnd Hnd'. induction d as [|[k1 v1] d IH]; simpl in *; auto.
    destruct (String.eqb_spec k1 k) as [->|]; [tauto|].
    apply IH. tauto.
  - simpl. destruct (String.eqb_spec k0 k); [congruence|auto].
Qed.

Lemma Dict_get_del_other d k k' :
  k <> k' -> Dict.get (Dict.del d k) k' = Dict.get d k'.
Proof.
  intros Hne. induction d as [|[k0 v0] d IH]; simpl; auto.
  destruct (String.eqb_spec k0 k) as [->|Hk]; simpl.
  - destruct (String.eqb_spec k k'); congruence.
  - now rewrite IH.
Qed.

Lemma Dict_get_In d k v : Dict.get d k = Some v -> In (k, v) d.
Proof.
  induction d as [|[k0 v0] d IH]; simpl; [discriminate|].
  destruct (String.eqb_spec k0 k) as [->|Hk].
  - intros [= ->]. now left.
  - intros H. right. auto.
Qed.

Lemma Dict_get_values d k v : Dict.get d k = Some v -> In v (Dict.values d).
Proof.
  intros H. apply Dict_get_In in H.
  unfold Dict.values. now apply (in_map snd) in H.
Qed.

Lemma Dict_get_None_keys d k : Dict.get d k = None <-> ~ In k (Dict.keys d).
Proof.
  unfold Dict.keys.
  induction d as [|[k0 v0] d IH]; simpl; [tauto|].
  destruct (String.eqb_spec k0 k) as [->|Hk].
  - split; [discriminate|tauto].
  - rewrite IH. tauto.
Qed.

Lemma Dict_keys_set_present d k v :
  Dict.get d k <> None -> Dict.keys (Dict.set d k v) = Dict.keys d.
Proof.
  unfold Dict.keys.
  induction d as [|[k0 v0] d IH]; simpl; [congruence|].
  destruct (String.eqb_spec k0 k) as [->|Hk]; simpl; auto.
  intros H. now rewrite IH.
Qed.

Lemma Dict_contains_get d k :
  Dict.contains d k = false <-> Dict.get d k = None.
Proof.
  unfold Dict.contains. destruct (Dict.get d k); split; congruence.
Qed.
Lemma Dict_wf_In_get d k v : Dict.wf d -> In (k, v) d -> Dict.get d k = Some v.
Proof.
  unfold Dict.wf, Dict.keys.
  induction d as [|[k0 v0] d IH]; simpl; [tauto|].
  intros Hnd [[= -> ->]|Hin].
  - now rewrite String.eqb_refl.
  - inversion Hnd as [|? ? Hnin Hnd']; subst.
    destruct (String.eqb_spec k0 k) as [->|Hk]; auto.
    exfalso. apply Hnin. now apply (in_map fst) in Hin.
Qed.

Lemma Dict_keys_set_absent d k v :
  Dict.get d k = None -> Dict.keys (Dict.set d k v) = Dict.keys d ++ [k].
Proof.
  intros H. rewrite Dict_set_fresh by assumption.
  unfold Dict.keys. now rewrite map_app.
Qed.

Lemma Dict_wf_set d k v : Dict.wf d -> Dict.wf (Dict.set d k v).
Proof.
  unfold Dict.wf. intros Hnd.
  destruct (Dict.get d k) eqn:G.
  - rewrite Dict_keys_set_present by congruence. exact Hnd.
  - rewrite Dict_keys_set_absent by assumption.
    apply NoDup_app; auto.
    + constructor; [tauto|constructor].
    + intros x Hx [<-|[]]. now apply Dict_get_None_keys in G.
Qed.

Lemma Dict_In_del d k x : In x (Dict.del d k) -> In x d.
Proof.
  induction d as [|[k0 v0] d IH]; simpl; auto.
  destruct (String.eqb k0 k); simpl; tauto.
Qed.

Lemma Dict_wf_del d k : Dict.wf d -> Dict.wf (Dict.del d k).
Proof.
  unfold Dict.wf, Dict.keys.
  induction d as [|[k0 v0] d IH]; simpl; auto.
  intros Hnd. inversion Hnd as [|? ? Hnin Hnd']; subst.
  destruct (String.eqb k0 k); simpl; auto.
  constructor; auto. intros Hin. apply Hnin.
  apply in_map_iff in Hin as ([k1 v1] & E & Hin). simpl in E. subst k1.
  apply Dict_In_del in Hin. now apply (in_map fst) in Hin.
Qed.

Lemma Dict_In_del_other d k m v :
  In (m, v) d -> m <> k -> In (m, v) (Dict.del d k).
Proof.
  intros Hin Hne. induction d as [|[k0 v0] d IH]; simpl in *; auto.
  destruct (String.eqb_spec k0 k) as [->|Hk].
  - destruct Hin as [[= -> ->]|Hin]; [congruence|auto].
  - destruct Hin as [E|Hin]; [now left|right; auto].
Qed.


Lemma Dict_In_set d k v x :
  In x (Dict.set d k v) -> x = (k, v) \/ In x d.
Proof.
  induction d as [|[k0 v0] d IH]; simpl.
  - intros [<-|[]]. now left.
  - destruct (String.eqb_spec k0 k) as [->|Hk]; simpl.
    + intros [<-|Hin]; auto.
    + intros [<-|Hin]; auto. destruct (IH Hin); auto.
Qed.

End DictFacts.

(* ================================================================== *)
(** ** Facts about the monad and the manager *)
(* ================================================================== *)

Section RegistryFacts.
Context {Env : Type} {warnings : Warnings Env}.
Implicit Types (pm : @PluginManager Env) (env : Env).

Lemma with_hook_same pm : with_hook pm (hook pm) = pm.
Proof. now destruct pm. Qed.

Lemma with_name2plugin_same pm : with_name2plugin pm (_name2plugin pm) = pm.
Proof. now destruct pm. Qed.

Lemma plugin_is_refl (p : _Plugin) : plugin_is p p = true.
Proof. apply N.eqb_refl. Qed.

Lemma belongs_to_None (h : HookImpl.t) : belongs_to None h = false.
Proof. reflexivity. Qed.

Lemma _remove_plugin_idempotent (hc : @_HookCaller Env) plugin :
  _remove_plugin (_remove_plugin hc plugin) plugin = _remove_plugin hc plugin.
Proof.
  unfold _remove_plugin; simpl. f_equal.
  induction (_hookimpls hc) as [|h l IH]; simpl; auto.
  destruct (belongs_to plugin h) eqn:E; simpl; rewrite ?E; simpl; congruence.
Qed.

Lemma _remove_plugin_None (hc : @_HookCaller Env) :
  _remove_plugin hc None = hc.
Proof.
  destruct hc as [n s l c]. unfold _remove_plugin; simpl. f_equal.
  induction l as [|h l IH]; simpl; congruence.
Qed.

(** *** Running a sequence *)

Lemma Run_eta {A} (r : @Run Env A) :
  mkRun (out r) (pm_after r) (env_after r) (journal r) = r.
Proof. now destruct r. Qed.

Lemma bind_self {B} (k : PluginManager -> @M Env B) pm env :
  bind self k pm env = k pm pm env.
Proof. unfold bind, self; simpl. apply Run_eta. Qed.

Lemma bind_ret {A B} (a : A) (k : A -> @M Env B) pm env :
  bind (ret a) k pm env = k a pm env.
Proof. unfold bind, ret; simpl. apply Run_eta. Qed.

Lemma bind_store {B} pm' (k : unit -> @M Env B) pm env :
  bind (store pm') k pm env = k tt pm' env.
Proof. unfold bind, store; simpl. apply Run_eta. Qed.

Lemma bind_raise {A B} e (k : A -> @M Env B) pm env :
  bind (raise e) k pm env = mkRun (Raise e) pm env [].
Proof. reflexivity. Qed.

Lemma bind_emit {B} ev (k : unit -> @M Env B) pm env :
  bind (emit ev) k pm env
  = let r := k tt pm env in
    mkRun (out r) (pm_after r) (env_after r) (ev :: journal r).
Proof. reflexivity. Qed.

Lemma bind_Return {A B} (c : @M Env A) (k : A -> M B) pm env a pm1 env1 j1 :
  c pm env = mkRun (Return a) pm1 env1 j1 ->
  bind c k pm env
  = let r := k a pm1 env1 in
    mkRun (out r) (pm_after r) (env_after r) (j1 ++ journal r).
Proof. intros H. unfold bind. now rewrite H. Qed.

Lemma bind_Raise {A B} (c : @M Env A) (k : A -> M B) pm env e pm1 env1 j1 :
  c pm env = mkRun (Raise e) pm1 env1 j1 ->
  bind c k pm env = mkRun (Raise e) pm1 env1 j1.
Proof. intros H. unfold bind. now rewrite H. Qed.

Lemma bind_assoc {A B C} (c : @M Env A) (k : A -> M B) (k' : B -> M C) pm env :
  bind (bind c k) k' pm env = bind c (fun a => bind (k a) k') pm env.
Proof.
  unfold bind; simpl.
  destruct (out (c pm env)); simpl; auto.
  destruct (out (k a _ _)); simpl; auto.
  now rewrite app_assoc.
Qed.

(** A loop of in-place updates of callers is one update of the relay. *)
Lemma for_each_modify_hook_run (f : @_HookCaller Env -> _HookCaller) refs pm env :
  for_each refs (fun r => modify_hook r f) pm env
  = mkRun (Return tt) (with_hook pm (modify_all f refs (hook pm))) env [].
Proof.
  revert pm. induction refs as [|r refs IH]; intros pm; simpl.
  - unfold ret. now rewrite with_hook_same.
  - unfold modify_hook at 1. rewrite bind_assoc, bind_self.
    destruct (Dict.get (hook pm) r) as [hc|] eqn:E.
    + rewrite bind_store, IH. reflexivity.
    + rewrite bind_ret, IH. reflexivity.
Qed.

Lemma modify_all_get (f : @_HookCaller Env -> _HookCaller) refs d k :
  (forall hc, f (f hc) = f hc) ->
  Dict.get (modify_all f refs d) k
  = if existsb (String.eqb k) refs then option_map f (Dict.get d k)
    else Dict.get d k.
Proof.
  intros Hf. revert d. induction refs as [|r refs IH]; intros d; simpl; auto.
  rewrite IH. clear IH.
  destruct (String.eqb_spec k r) as [->|Hk]; simpl.
  - destruct (Dict.get d r) as [hc|] eqn:E.
    + rewrite Dict_get_set_same. simpl. rewrite Hf.
      now destruct (existsb _ refs).
    + rewrite E. now destruct (existsb _ refs).
  - destruct (Dict.get d r) as [hc|] eqn:E; auto.
    rewrite Dict_get_set_other by congruence. reflexivity.
Qed.

Lemma modify_all_keys (f : @_HookCaller Env -> _HookCaller) refs d :
  Dict.keys (modify_all f refs d) = Dict.keys d.
Proof.
  revert d. induction refs as [|r refs IH]; intros d; simpl; auto.
  rewrite IH. destruct (Dict.get d r) eqn:E; auto.
  apply Dict_keys_set_present. congruence.
Qed.


(** *** [unregister] *)

(** [unregister(plugin, name=n)] never fails. *)
Lemma unregister_by_name_run pm env plugin n :
  unregister plugin (Some n) pm env
  = let plugin' := match plugin with
                   | None => get_plugin pm n
                   | Some p => Some p
                   end in
    mkRun (Return plugin') (unregistered pm plugin' n) env [].
Proof.
  unfold unregister, unregistered. rewrite bind_self, bind_ret. cbv beta zeta.
  generalize (match plugin with Some p => Some p | None => get_plugin pm n end).
  intros plugin'.
  destruct (get_hookcallers pm plugin') as [[|r refs]|] eqn:E.
  - rewrite bind_ret, bind_self.
    destruct (truthy_plugin (get_plugin pm n)).
    + rewrite bind_store. reflexivity.
    + rewrite bind_ret. unfold ret. now destruct pm.
  - erewrite bind_Return by apply for_each_modify_hook_run.
    cbv zeta. rewrite bind_self.
    change (get_plugin (with_hook pm _) n) with (get_plugin pm n).
    destruct (truthy_plugin (get_plugin pm n)).
    + rewrite bind_store. reflexivity.
    + rewrite bind_ret. reflexivity.
  - rewrite bind_ret, bind_self.
    destruct (truthy_plugin (get_plugin pm n)).
    + rewrite bind_store. reflexivity.
    + rewrite bind_ret. unfold ret. now destruct pm.
Qed.

(** [unregister(plugin=p)] *)
Lemma unregister_by_plugin_run pm env p :
  unregister (Some p) None pm env
  = match get_name pm (Some p) with
    | Some n => mkRun (Return (Some p)) (unregistered pm (Some p) n) env []
    | None =>
        mkRun (Raise (AssertionError "plugin is not registered")) pm env []
    end.
Proof.
  unfold unregister. rewrite bind_self. unfold assert. simpl is_not_None.
  cbv iota. rewrite bind_assoc, bind_ret.
  destruct (get_name pm (Some p)) as [n|] eqn:E.
  - rewrite bind_ret.
    pose proof (unregister_by_name_run pm env (Some p) n) as H.
    unfold unregister in H. rewrite bind_self, bind_ret in H. exact H.
  - reflexivity.
Qed.

Lemma get_name_None_iff pm p :
  get_name pm (Some p) = None <-> is_registered pm p = false.
Proof.
  unfold get_name, is_registered, Dict.items, Dict.values.
  induction (_name2plugin pm) as [|[k v] d IH]; [simpl; tauto|].
  cbn [find existsb map snd].
  destruct (opt_plugin_eq (Some p) v); simpl; [|exact IH].
  split; intros H; discriminate H.
Qed.

Lemma get_name_bound pm n p :
  Dict.get (_name2plugin pm) n = Some (Some p) -> get_name pm (Some p) <> None.
Proof.
  intros H. rewrite get_name_None_iff. unfold is_registered.
  apply Dict_get_values in H. intros Hf.
  rewrite <- not_true_iff_false in Hf. apply Hf.
  apply existsb_exists. exists (Some p). split; auto. apply plugin_is_refl.
Qed.

Lemma get_hookcallers_None pm refs :
  get_hookcallers pm None = Some refs -> refs = [].
Proof.
  unfold get_hookcallers. destruct (get_name pm None); [|discriminate].
  intros [= <-]. unfold Dict.items.
  induction (hook pm) as [|[k hc] d IH]; simpl; auto.
  rewrite IH, app_nil_r. unfold get_hookimpls.
  induction (_hookimpls hc); simpl; auto.
Qed.

(** Unregistering "no plugin" under a name that is not bound to a live
    plugin leaves the manager alone. *)
Lemma unregistered_None pm n :
  get_plugin pm n = None -> unregistered pm None n = pm.
Proof.
  intros H. unfold unregistered. rewrite H.
  destruct (get_hookcallers pm None) as [refs|] eqn:E.
  - apply get_hookcallers_None in E. subst. now destruct pm.
  - now destruct pm.
Qed.

Lemma get_hookcallers_refs pm plugin refs k :
  get_hookcallers pm plugin = Some refs ->
  existsb (String.eqb k) refs = false ->
  forall hc, Dict.get (hook pm) k = Some hc ->
             filter (belongs_to plugin) (get_hookimpls hc) = [].
Proof.
  unfold get_hookcallers. destruct (get_name pm plugin); [|discriminate].
  intros [= <-] Hex hc Hget.
  apply Dict_get_In in Hget. unfold Dict.items in Hex.
  induction (hook pm) as [|[k0 hc0] d IH]; simpl in *; [tauto|].
  rewrite existsb_app in Hex. apply orb_false_iff in Hex as [H1 H2].
  destruct Hget as [[= -> ->]|Hin]; [|auto].
  destruct (filter (belongs_to plugin) (get_hookimpls hc)); auto.
  simpl in H1. now rewrite String.eqb_refl in H1.
Qed.

Lemma filter_negb_none {A} (f : A -> bool) (l : list A) :
  filter f l = [] -> filter (fun x => negb (f x)) l = l.
Proof.
  induction l as [|a l IH]; simpl; auto.
  destruct (f a); simpl; [discriminate|]. intros H. now rewrite IH.
Qed.

Lemma _remove_plugin_absent (hc : @_HookCaller Env) plugin :
  filter (belongs_to plugin) (get_hookimpls hc) = [] ->
  _remove_plugin hc plugin = hc.
Proof.
  intros H. destruct hc as [n s l c]. unfold _remove_plugin; simpl in *.
  now rewrite filter_negb_none.
Qed.

(** After [unregister] of a plugin that has a name, every caller of the
    relay is the caller it was with the implementations of the plugin
    removed. *)
Lemma unregistered_hook pm plugin name k :
  get_name pm plugin <> None ->
  Dict.get (hook (unregistered pm plugin name)) k
  = option_map (fun hc => _remove_plugin hc plugin) (Dict.get (hook pm) k).
Proof.
  intros Hn. unfold unregistered; simpl.
  destruct (get_hookcallers pm plugin) as [[|r refs]|] eqn:E.
  - destruct (Dict.get (hook pm) k) as [hc|] eqn:G; simpl; auto.
    rewrite _remove_plugin_absent; auto.
    eapply get_hookcallers_refs; eauto.
  - rewrite modify_all_get by (intros; apply _remove_plugin_idempotent).
    destruct (Dict.get (hook pm) k) as [hc|] eqn:G; cbn [option_map];
      [|now destruct (existsb (String.eqb k) (r :: refs))].
    destruct (existsb (String.eqb k) (r :: refs)) eqn:X; auto.
    f_equal. symmetry. apply _remove_plugin_absent.
    eapply get_hookcallers_refs; eauto.
  - unfold get_hookcallers in E.
    destruct (get_name pm plugin); [discriminate|congruence].
Qed.

Lemma unregistered_hook_keys pm plugin name :
  Dict.keys (hook (unregistered pm plugin name)) = Dict.keys (hook pm).
Proof.
  unfold unregistered; simpl.
  destruct (get_hookcallers pm plugin) as [[|r refs]|]; auto.
  apply modify_all_keys.
Qed.

(** *** Registration conflicts *)

(** C1 (as amended): in every manager, [register(plugin, name)] raises the
    "Plugin name already registered" [ValueError] (the spec's
    DuplicateNameError) when the resolved name is bound to a live plugin,
    and raises the "Plugin already registered under a different name"
    [ValueError] (the spec's DuplicatePluginError) when the resolved name
    is not bound at all and the plugin is bound under some name; in both
    cases the manager and the environment are as before and nothing is
    journaled. *)
Theorem register_rejects_duplicates pm env (plugin : _Plugin)
    (name : option string) :
  let plugin_name := str_or name (get_canonical_name plugin) in
  (forall q,
      Dict.get (_name2plugin pm) plugin_name = Some (Some q) ->
      register plugin name pm env
      = mkRun (Raise (ValueError
                        (Plugin_name_already_registered plugin_name plugin)))
              pm env [])
  /\
  (forall other q,
      Dict.get (_name2plugin pm) plugin_name = None ->
      Dict.get (_name2plugin pm) other = Some (Some q) ->
      plugin_is plugin q = true ->
      register plugin name pm env
      = mkRun (Raise (ValueError
                        (Plugin_already_registered_under_a_different_name
                           plugin_name plugin)))
              pm env []).
Proof.
  intros plugin_name. split.
  - intros q H. unfold register. fold plugin_name. rewrite bind_self.
    unfold Dict.contains. rewrite H. reflexivity.
  - intros other q Hfree Hother Hsame. unfold register. fold plugin_name.
    rewrite bind_self. unfold Dict.contains. rewrite Hfree.
    assert (is_registered pm plugin = true) as ->; [|reflexivity].
    unfold is_registered. apply existsb_exists. exists (Some q).
    split; [eapply Dict_get_values; eauto | exact Hsame].
Qed.

(** A blocked name answers [None] whoever asks. *)
Lemma register_blocked_run pm env (plugin : _Plugin) (name : option string) :
  is_blocked pm (str_or name (get_canonical_name plugin)) = true ->
  register plugin name pm env = mkRun (Return None) pm env [].
Proof.
  unfold is_blocked, register. intros H. rewrite bind_self.
  unfold Dict.contains.
  destruct (Dict.get (_name2plugin pm) _) as [[q|]|]; try discriminate.
  reflexivity.
Qed.

(** *** Unregistering what is not there *)

(** C8 (as amended): [unregister(plugin=P)] with [P] not registered fails
    the assertion "plugin is not registered", and [unregister()] with
    neither argument fails the assertion that one is needed, both leaving
    the manager alone.  With one of the two supplied the other is resolved
    through the name-to-plugin mapping: a registered [P] is unregistered
    under the name [get_name] finds, and a name [n] is unregistered with the
    plugin [get_plugin] finds.  So [unregister(name=n)] with [n] bound to no
    live plugin (unknown or blocked) does not fail: it returns [None] and
    leaves the manager alone. *)
Theorem unregister_unknown pm env :
  (forall P, is_registered pm P = false ->
     unregister (Some P) None pm env
     = mkRun (Raise (AssertionError "plugin is not registered")) pm env [])
  /\ unregister None None pm env
     = mkRun (Raise (AssertionError
                       "one of name or plugin needs to be specified"))
             pm env []
  /\ (forall P n, get_name pm (Some P) = Some n ->
        unregister (Some P) None pm env
        = mkRun (Return (Some P)) (unregistered pm (Some P) n) env [])
  /\ (forall n,
        unregister None (Some n) pm env
        = mkRun (Return (get_plugin pm n))
                (unregistered pm (get_plugin pm n) n) env [])
  /\ (forall n, get_plugin pm n = None ->
        unregister None (Some n) pm env = mkRun (Return None) pm env []).
Proof.
  split; [|split; [|split; [|split]]].
  - intros P H. rewrite unregister_by_plugin_run.
    apply get_name_None_iff in H. now rewrite H.
  - reflexivity.
  - intros P n H. rewrite unregister_by_plugin_run. now rewrite H.
  - intros n. now rewrite unregister_by_name_run.
  - intros n H. rewrite unregister_by_name_run. cbv zeta.
    rewrite H. now rewrite unregistered_None.
Qed.

(** *** Computations whose final manager is related to the initial one *)

Lemma same_but_hooks_refl pm : same_but_hooks pm pm.
Proof. repeat split. Qed.

Lemma same_but_hooks_trans pm1 pm2 pm3 :
  same_but_hooks pm1 pm2 -> same_but_hooks pm2 pm3 -> same_but_hooks pm1 pm3.
Proof.
  unfold same_but_hooks. intros (A1 & A2 & A3 & A4) (B1 & B2 & B3 & B4).
  repeat split; congruence.
Qed.

Section Stable.
Variable R : @PluginManager Env -> @PluginManager Env -> Prop.
Hypothesis R_refl : forall pm, R pm pm.
Hypothesis R_trans : forall pm1 pm2 pm3, R pm1 pm2 -> R pm2 pm3 -> R pm1 pm3.

Lemma stable_ret {A} (a : A) : stable R (ret a).
Proof. intros pm env. apply R_refl. Qed.

Lemma stable_raise {A} e : stable R (@raise Env A e).
Proof. intros pm env. apply R_refl. Qed.

Lemma stable_emit ev : stable R (emit ev).
Proof. intros pm env. apply R_refl. Qed.

Lemma stable_self : stable R self.
Proof. intros pm env. apply R_refl. Qed.

Lemma stable_lift {A} (o : outcome A) : stable R (lift o).
Proof. destruct o; [apply stable_ret | apply stable_raise]. Qed.

Lemma stable_call {A} (f : @Effect Env A) : stable R (call f).
Proof. intros pm env. unfold call. destruct (f env). apply R_refl. Qed.

Lemma stable_bind {A B} (c : @M Env A) (k : A -> M B) :
  stable R c -> (forall a, stable R (k a)) -> stable R (bind c k).
Proof.
  intros Hc Hk pm env. unfold bind.
  specialize (Hc pm env). destruct (out (c pm env)); simpl; auto.
  eapply R_trans; [exact Hc | apply Hk].
Qed.

Lemma stable_for_each {A} (l : list A) (body : A -> @M Env unit) :
  (forall a, stable R (body a)) -> stable R (for_each l body).
Proof.
  intros Hb. induction l as [|a l IH]; simpl.
  - apply stable_ret.
  - apply stable_bind; auto.
Qed.

(** Validation and replay never write to the manager. *)
Lemma stable__warn_for_function w f : stable R (_warn_for_function w f).
Proof.
  unfold _warn_for_function.
  apply stable_bind; [apply stable_emit|intros _; apply stable_call].
Qed.

Lemma stable__verify_hook (hc : @_HookCaller Env) hookimpl :
  stable R (_verify_hook hc hookimpl).
Proof.
  unfold _verify_hook. apply stable_bind; [apply stable_emit|intros _].
  destruct (_ && _); [apply stable_raise|].
  destruct (spec hc); [|apply stable_raise].
  apply stable_bind.
  - destruct (HookSpec.warn_on_impl t);
      [apply stable__warn_for_function|apply stable_ret].
  - intros _. destruct (notinspec _ _); [|apply stable_raise].
    destruct (_ && _); [apply stable_raise|apply stable_ret].
Qed.

Lemma stable__hookexec hook_name methods kwargs firstresult :
  stable R (_hookexec hook_name methods kwargs firstresult).
Proof.
  unfold _hookexec. apply stable_bind; [apply stable_self|].
  intros pm. apply stable_call.
Qed.

Lemma stable__maybe_apply_history (hc : @_HookCaller Env) method :
  stable R (_maybe_apply_history hc method).
Proof.
  unfold _maybe_apply_history.
  destruct (is_historic hc); [|apply stable_ret].
  apply stable_for_each. intros [kwargs cb]. simpl.
  apply stable_bind; [apply stable__hookexec|]. intros res.
  destruct cb as [cb|]; [|apply stable_ret].
  destruct (truthy res); [|apply stable_ret].
  destruct res as [| |[|r0 l]];
    try apply stable_raise. apply stable_call.
Qed.

End Stable.

Lemma touches_ret {A} (a : A) : touches_only_hooks (@ret Env A a).
Proof. apply stable_ret, same_but_hooks_refl. Qed.

Lemma touches_raise {A} e : touches_only_hooks (@raise Env A e).
Proof. apply stable_raise, same_but_hooks_refl. Qed.

Lemma touches_self : touches_only_hooks (@self Env).
Proof. apply stable_self, same_but_hooks_refl. Qed.

Lemma touches_lift {A} (o : outcome A) : touches_only_hooks (@lift Env A o).
Proof. apply stable_lift, same_but_hooks_refl. Qed.

Lemma touches_bind {A B} (c : @M Env A) (k : A -> M B) :
  touches_only_hooks c -> (forall a, touches_only_hooks (k a)) ->
  touches_only_hooks (bind c k).
Proof. apply stable_bind, same_but_hooks_trans. Qed.

Lemma touches_for_each {A} (l : list A) (body : A -> @M Env unit) :
  (forall a, touches_only_hooks (body a)) ->
  touches_only_hooks (for_each l body).
Proof.
  apply stable_for_each; [apply same_but_hooks_refl|apply same_but_hooks_trans].
Qed.

Lemma touches__verify_hook (hc : @_HookCaller Env) hookimpl :
  touches_only_hooks (_verify_hook hc hookimpl).
Proof.
  apply stable__verify_hook;
    [apply same_but_hooks_refl|apply same_but_hooks_trans].
Qed.

Lemma touches__maybe_apply_history (hc : @_HookCaller Env) method :
  touches_only_hooks (_maybe_apply_history hc method).
Proof.
  apply stable__maybe_apply_history;
    [apply same_but_hooks_refl|apply same_but_hooks_trans].
Qed.

Lemma touches_setattr_hook n (hc : @_HookCaller Env) :
  touches_only_hooks (setattr_hook n hc).
Proof.
  intros pm env. unfold setattr_hook. rewrite bind_self. repeat split.
Qed.

Lemma touches_modify_hook ref (f : @_HookCaller Env -> _HookCaller) :
  touches_only_hooks (modify_hook ref f).
Proof.
  intros pm env. unfold modify_hook. rewrite bind_self.
  destruct (Dict.get (hook pm) ref); repeat split.
Qed.

Lemma touches_register_member plugin plugin_name n :
  touches_only_hooks (@register_member Env _ plugin plugin_name n).
Proof.
  unfold register_member. apply touches_bind; [apply touches_self|].
  intros pm. destruct (parse_hookimpl_opts pm plugin n); [|apply touches_ret].
  destruct (getattr_member plugin n); [|apply touches_raise].
  apply touches_bind; [|intros _; apply touches_modify_hook].
  destruct (Dict.get (hook pm) _) as [hc|]; [|apply touches_setattr_hook].
  destruct (has_spec hc); [|apply touches_ret].
  apply touches_bind; [apply touches__verify_hook|].
  intros _. apply touches__maybe_apply_history.
Qed.

Lemma touches_add_hookspecs_member ns n :
  touches_only_hooks (@add_hookspecs_member Env _ ns n).
Proof.
  unfold add_hookspecs_member. apply touches_bind; [apply touches_self|].
  intros pm. apply touches_bind; [apply touches_lift|].
  intros [opts|]; [|apply touches_ret].
  apply touches_bind; [|intros _; apply touches_ret].
  destruct (Dict.get (hook pm) n) as [hc|].
  - apply touches_bind; [apply touches_lift|]. intros hc'.
    apply touches_bind; [apply touches_setattr_hook|]. intros _.
    apply touches_for_each. intros h. apply touches__verify_hook.
  - apply touches_bind; [apply touches_lift|]. intros hc'.
    apply touches_setattr_hook.
Qed.

Lemma touches_add_hookspecs_loop ns todo names :
  touches_only_hooks (@add_hookspecs_loop Env _ ns todo names).
Proof.
  revert names. induction todo as [|n todo IH]; intros names; simpl.
  - apply touches_ret.
  - apply touches_bind; [apply touches_add_hookspecs_member|].
    intros a. apply IH.
Qed.

Lemma touches_add_hookspecs ns : touches_only_hooks (@add_hookspecs Env _ ns).
Proof.
  unfold add_hookspecs.
  apply touches_bind; [apply touches_add_hookspecs_loop|].
  intros [|n names]; [|apply touches_ret].
  apply touches_bind; [apply touches_self|]. intros pm. apply touches_raise.
Qed.

(** *** Computations that only observe *)

Lemma observes_ret {A} (a : A) : observes_only (@ret Env A a).
Proof. intros pm env. repeat split. Qed.

Lemma observes_raise {A} e : observes_only (@raise Env A e).
Proof. intros pm env. repeat split. Qed.

Lemma observes_self : observes_only (@self Env).
Proof. intros pm env. repeat split. Qed.

Lemma observes_bind {A B} (c : @M Env A) (k : A -> M B) :
  observes_only c -> (forall a, observes_only (k a)) ->
  observes_only (bind c k).
Proof.
  intros Hc Hk pm env. unfold bind.
  destruct (Hc pm env) as (H1 & H2 & H3).
  destruct (out (c pm env)); simpl; auto.
  rewrite H1, H2, H3. destruct (Hk a pm env) as (K1 & K2 & K3).
  repeat split; auto.
Qed.

Lemma observes_for_each {A} (l : list A) (body : A -> @M Env unit) :
  (forall a, observes_only (body a)) -> observes_only (for_each l body).
Proof.
  intros Hb. induction l as [|a l IH]; simpl.
  - apply observes_ret.
  - apply observes_bind; auto.
Qed.

Lemma observes_check_pending_hook n (hc : @_HookCaller Env) :
  observes_only (check_pending_hook n hc).
Proof.
  unfold check_pending_hook. destruct n as [|c n]; [apply observes_raise|].
  destruct (negb _); [|apply observes_ret].
  destruct (negb _); [|apply observes_ret].
  apply observes_for_each. intros h.
  destruct (negb _); [apply observes_raise|apply observes_ret].
Qed.

Lemma observes_check_pending : observes_only (@check_pending Env).
Proof.
  unfold check_pending. apply observes_bind; [apply observes_self|].
  intros pm. apply observes_for_each. intros [n hc].
  apply observes_check_pending_hook.
Qed.

Lemma observes_subset_hook_caller n remove_plugins :
  observes_only (@subset_hook_caller Env n remove_plugins).
Proof.
  unfold subset_hook_caller. apply observes_bind; [apply observes_self|].
  intros pm. destruct (Dict.get (hook pm) n); [|apply observes_raise].
  destruct (filter _ _); apply observes_ret.
Qed.

(** *** [register] past its guards *)

(** When the resolved name is free and the plugin is not registered,
    [register] binds the name and scans the members; its outcome is the
    outcome of the scan. *)
Lemma register_scan_run pm env (plugin : _Plugin) (name : option string) :
  let plugin_name := str_or name (get_canonical_name plugin) in
  Dict.get (_name2plugin pm) plugin_name = None ->
  is_registered pm plugin = false ->
  register plugin name pm env
  = let r := for_each (Dict.keys (dir plugin))
                      (register_member plugin plugin_name)
                      (with_name2plugin pm
                         (Dict.set (_name2plugin pm) plugin_name (Some plugin)))
                      env in
    mkRun (match out r with
           | Return _ => Return (Some plugin_name)
           | Raise e => Raise e
           end)
          (pm_after r) (env_after r) (journal r).
Proof.
  intros plugin_name Hfree Hnew. unfold register. fold plugin_name.
  rewrite bind_self. unfold Dict.contains. rewrite Hfree, Hnew.
  rewrite bind_store. unfold bind.
  destruct (out (for_each _ _ _ _)); simpl; auto.
  now rewrite app_nil_r.
Qed.

(** Whatever its outcome, [register] either leaves the bindings alone or
    adds one binding of a name that was free. *)
Lemma register_name2plugin pm env (plugin : _Plugin) (name : option string) :
  let plugin_name := str_or name (get_canonical_name plugin) in
  let pm' := pm_after (register plugin name pm env) in
  _name2plugin pm' = _name2plugin pm
  \/ (Dict.get (_name2plugin pm) plugin_name = None
      /\ _name2plugin pm'
         = Dict.set (_name2plugin pm) plugin_name (Some plugin)).
Proof.
  intros plugin_name.
  destruct (Dict.get (_name2plugin pm) plugin_name) as [v|] eqn:G.
  - left. unfold register. fold plugin_name. rewrite bind_self.
    unfold Dict.contains. rewrite G. now destruct v.
  - destruct (is_registered pm plugin) eqn:R.
    + left. unfold register. fold plugin_name. rewrite bind_self.
      unfold Dict.contains. now rewrite G, R.
    + right. split; auto. cbv zeta.
      rewrite (register_scan_run pm env plugin name G R). cbv zeta. simpl.
      pose proof (touches_for_each (Dict.keys (dir plugin))
                    (register_member plugin plugin_name)
                    (touches_register_member plugin plugin_name)) as T.
      destruct (T (with_name2plugin pm
                     (Dict.set (_name2plugin pm) plugin_name (Some plugin)))
                  env) as (_ & T2 & _).
      exact T2.
Qed.

(** *** Calling hooks *)

Lemma stable_proxy_call proxy kwargs : stable eq (@proxy_call Env proxy kwargs).
Proof.
  unfold proxy_call. apply stable_bind; [intros; congruence| |].
  - apply stable_self. reflexivity.
  - intros pm. apply stable__hookexec; [reflexivity|intros; congruence].
Qed.

Lemma keeps_hookimpls_refl pm : keeps_hookimpls pm pm.
Proof.
  split; [apply same_but_hooks_refl|].
  intros k. now destruct (Dict.get (hook pm) k).
Qed.

Lemma keeps_hookimpls_trans pm1 pm2 pm3 :
  keeps_hookimpls pm1 pm2 -> keeps_hookimpls pm2 pm3 ->
  keeps_hookimpls pm1 pm3.
Proof.
  intros [S12 H12] [S23 H23].
  split; [eapply same_but_hooks_trans; eauto|].
  intros k. specialize (H12 k). specialize (H23 k).
  destruct (Dict.get (hook pm3) k) as [hc3|].
  - destruct (Dict.get (hook pm2) k) as [hc2|].
    + congruence.
    + now rewrite H12.
  - now rewrite H23 in H12.
Qed.

Lemma keeps_modify_hook ref (f : @_HookCaller Env -> _HookCaller) :
  (forall hc, _hookimpls (f hc) = _hookimpls hc) ->
  stable keeps_hookimpls (modify_hook ref f).
Proof.
  intros Hf pm env. unfold modify_hook. rewrite bind_self.
  destruct (Dict.get (hook pm) ref) as [hc|] eqn:G;
    [|apply keeps_hookimpls_refl].
  cbn [store pm_after]. split; [repeat split|].
  intros k. cbn [with_hook hook].
  destruct (String.eqb_spec ref k) as [<-|Hne].
  - rewrite Dict_get_set_same, G. apply Hf.
  - rewrite Dict_get_set_other by assumption.
    now destruct (Dict.get (hook pm) k).
Qed.

Lemma keeps_call_historic hook_name cb kwargs :
  stable keeps_hookimpls (@call_historic Env hook_name cb kwargs).
Proof.
  unfold call_historic.
  apply stable_bind; [apply keeps_hookimpls_trans| |].
  - apply stable_self, keeps_hookimpls_refl.
  - intros pm. destruct (Dict.get (hook pm) hook_name) as [hc|];
      [|apply stable_raise, keeps_hookimpls_refl].
    apply stable_bind; [apply keeps_hookimpls_trans| |].
    + apply stable__hookexec;
        [apply keeps_hookimpls_refl|apply keeps_hookimpls_trans].
    + intros res. apply stable_bind; [apply keeps_hookimpls_trans| |].
      * destruct cb as [cb|]; [|apply stable_ret, keeps_hookimpls_refl].
        destruct res as [| |results];
          try apply stable_ret, keeps_hookimpls_refl.
        apply stable_for_each;
          [apply keeps_hookimpls_refl|apply keeps_hookimpls_trans|].
        intros x. apply stable_call, keeps_hookimpls_refl.
      * intros _. apply keeps_modify_hook. reflexivity.
Qed.

(** *** Blocking *)

Lemma set_blocked_run pm env n :
  set_blocked n pm env
  = mkRun (Return tt)
          (with_name2plugin (unregistered pm (get_plugin pm n) n)
             (Dict.set (_name2plugin (unregistered pm (get_plugin pm n) n))
                       n None))
          env [].
Proof.
  unfold set_blocked.
  erewrite bind_Return by apply unregister_by_name_run.
  cbv zeta. rewrite bind_self. reflexivity.
Qed.

(** No call of the interface lifts a block. *)
Lemma is_blocked_perform c pm env n :
  is_blocked pm n = true -> is_blocked (fst (perform c pm env)) n = true.
Proof.
  unfold is_blocked. intros H.
  destruct (Dict.get (_name2plugin pm) n) as [[q|]|] eqn:G; try discriminate.
  destruct c as [plugin name|plugin name|m|ns| |before after|h rm
                 |proxy kwargs|h cb kwargs|oldcall];
    unfold perform; cbv beta zeta; cbn [fst].
  - destruct (register_name2plugin pm env plugin name) as [E|[Hfree E]];
      rewrite E.
    + now rewrite G.
    + rewrite Dict_get_set_other; [now rewrite G|].
      intros Heq. rewrite <- Heq in G. congruence.
  - assert (forall p' m, _name2plugin (unregistered pm p' m) = _name2plugin pm
                         \/ (get_plugin pm m <> None /\
                             _name2plugin (unregistered pm p' m)
                             = Dict.del (_name2plugin pm) m)) as U.
    { intros p' m. unfold unregistered; simpl.
      destruct (truthy_plugin (get_plugin pm m)) eqn:T; [right|now left].
      split; [|reflexivity]. intros Z. rewrite Z in T. discriminate. }
    assert (forall p' m, Dict.get (_name2plugin (unregistered pm p' m)) n
                         = Some None) as U'.
    { intros p' m. destruct (U p' m) as [E|[Hm E]]; rewrite E; auto.
      rewrite Dict_get_del_other; auto.
      intros ->. apply Hm. unfold get_plugin. now rewrite G. }
    destruct name as [m|].
    + rewrite unregister_by_name_run. cbv zeta. cbn [pm_after].
      now rewrite U'.
    + destruct plugin as [p|].
      * rewrite unregister_by_plugin_run.
        destruct (get_name pm (Some p)); cbn [pm_after];
          [now rewrite U'|now rewrite G].
      * unfold unregister. rewrite bind_self. simpl. now rewrite G.
  - rewrite set_blocked_run. cbn [pm_after with_name2plugin _name2plugin].
    destruct (String.eqb_spec m n) as [->|Hne].
    + now rewrite Dict_get_set_same.
    + rewrite Dict_get_set_other by assumption.
      unfold unregistered; simpl.
      destruct (truthy_plugin (get_plugin pm m)).
      * rewrite Dict_get_del_other by assumption. now rewrite G.
      * now rewrite G.
  - destruct (touches_add_hookspecs ns pm env) as (_ & E & _).
    rewrite E. now rewrite G.
  - destruct (observes_check_pending pm env) as (E & _). rewrite E.
    now rewrite G.
  - unfold add_hookcall_monitoring. rewrite bind_self, bind_store. simpl.
    now rewrite G.
  - destruct (observes_subset_hook_caller h rm pm env) as (E & _). rewrite E.
    now rewrite G.
  - rewrite <- (stable_proxy_call proxy kwargs pm env). now rewrite G.
  - destruct (keeps_call_historic h cb kwargs pm env) as ((_ & E & _) & _).
    rewrite E. now rewrite G.
  - unfold undo. rewrite bind_self. cbn [store pm_after with_inner_hookexec
                                         _name2plugin]. now rewrite G.
Qed.

Lemma is_blocked_perform_all cs pm env n :
  is_blocked pm n = true -> is_blocked (fst (perform_all cs pm env)) n = true.
Proof.
  revert pm env. induction cs as [|c cs IH]; intros pm env H; simpl; auto.
  pose proof (is_blocked_perform c pm env n H) as H'.
  destruct (perform c pm env) as [pm' env']. apply IH. exact H'.
Qed.

(** C2 (as amended): for every name [n], [set_blocked(n)] returns without
    raising; it unregisters the plugin bound to [n], if there is one (its
    implementations leave every caller, and [unregister] deletes the
    binding of a plugin that is true), and then binds [n] to the tombstone
    [None], so that [is_blocked(n)] holds.  When [n] is not the empty
    string, then after any further calls of the interface,
    [register(plugin, name=n)] returns [None] without raising, leaving the
    manager and the environment as they are. *)
Theorem set_blocked_rejects_registration pm env n :
  let r := set_blocked n pm env in
  let pm1 := pm_after r in
  out r = Return tt /\ env_after r = env /\ journal r = []
  /\ _name2plugin pm1
     = Dict.set (if truthy_plugin (get_plugin pm n)
                 then Dict.del (_name2plugin pm) n
                 else _name2plugin pm) n None
  /\ (forall k,
        Dict.get (hook pm1) k
        = option_map (fun hc => _remove_plugin hc (get_plugin pm n))
                     (Dict.get (hook pm) k))
  /\ is_blocked pm1 n = true
  /\ (n <> "" ->
      forall cs plugin,
        let pm2 := fst (perform_all cs pm1 env) in
        let env2 := snd (perform_all cs pm1 env) in
        register plugin (Some n) pm2 env2 = mkRun (Return None) pm2 env2 []).
Proof.
  cbv zeta. rewrite set_blocked_run. cbn [out pm_after env_after journal].
  assert (is_blocked
            (with_name2plugin (unregistered pm (get_plugin pm n) n)
               (Dict.set (_name2plugin (unregistered pm (get_plugin pm n) n))
                         n None)) n = true) as Hb.
  { unfold is_blocked. cbn [with_name2plugin _name2plugin].
    now rewrite Dict_get_set_same. }
  repeat split; auto.
  - cbn [with_name2plugin hook]. intros k.
    destruct (get_plugin pm n) as [p|] eqn:G.
    + apply unregistered_hook. apply (get_name_bound pm n).
      unfold get_plugin in G.
      destruct (Dict.get (_name2plugin pm) n) as [[q|]|]; congruence.
    + rewrite unregistered_None by assumption.
      destruct (Dict.get (hook pm) k); simpl; auto.
      now rewrite _remove_plugin_None.
  - intros Hn cs plugin. apply register_blocked_run.
    assert (str_or (Some n) (get_canonical_name plugin) = n) as ->.
    { simpl. destruct (String.eqb_spec n ""); congruence. }
    now apply is_blocked_perform_all.
Qed.

(** *** Validation *)

Lemma notinspec_spec impl_argnames spec_argnames x :
  In x (notinspec impl_argnames spec_argnames)
  <-> In x impl_argnames /\ ~ In x spec_argnames.
Proof.
  unfold notinspec. rewrite nodup_In, filter_In.
  assert (existsb (String.eqb x) spec_argnames = true <-> In x spec_argnames)
    as Hex.
  { rewrite existsb_exists. split.
    - intros (y & Hy & E). apply String.eqb_eq in E. now subst.
    - intros H. exists x. split; auto. apply String.eqb_refl. }
  destruct (existsb (String.eqb x) spec_argnames) eqn:E; simpl.
  - split; [intros [_ H]; discriminate|].
    intros [_ H]. exfalso. apply H, Hex. reflexivity.
  - split; intros [H _]; split; auto.
    intros Hin. apply Hex in Hin. discriminate.
Qed.

Lemma notinspec_NoDup impl_argnames spec_argnames :
  NoDup (notinspec impl_argnames spec_argnames).
Proof. apply NoDup_nodup. Qed.

Lemma _warn_for_function_run w f pm env :
  _warn_for_function w f pm env
  = mkRun (fst (warn_explicit w f env)) pm (snd (warn_explicit w f env))
          [Warned w f].
Proof.
  unfold _warn_for_function. rewrite bind_emit. cbv zeta. unfold call.
  now destruct (warn_explicit w f env).
Qed.

(** What [_verify_hook] does on a caller with a bound spec. *)
Lemma _verify_hook_run (hc : @_HookCaller Env) hook_spec hookimpl pm env :
  spec hc = Some hook_spec ->
  _verify_hook hc hookimpl pm env
  = let historic_wrapper :=
      opt_historic (HookSpec.opts hook_spec)
      && HookImpl.hookwrapper hookimpl in
    let extra := notinspec (HookImpl.argnames hookimpl)
                           (HookSpec.argnames hook_spec) in
    let fake_wrapper :=
      HookImpl.hookwrapper hookimpl
      && negb (isgeneratorfunction (HookImpl.function hookimpl)) in
    let fail m := Raise (PluginValidationError (HookImpl.plugin hookimpl) m) in
    let checked :=
      match extra with
      | _ :: _ =>
          fail (Arguments_not_found_in_hookspec
                  (HookImpl.plugin_name hookimpl) (name hc)
                  (HookImpl.function hookimpl) extra)
      | [] =>
          if fake_wrapper then
            fail (hookwrapper_but_not_a_generator_function
                    (HookImpl.plugin_name hookimpl) (name hc)
                    (HookImpl.function hookimpl))
          else Return tt
      end in
    if historic_wrapper then
      mkRun (fail (historic_incompatible_to_hookwrapper
                     (HookImpl.plugin_name hookimpl) (name hc)))
            pm env [Verifying hc hookimpl]
    else
      match HookSpec.warn_on_impl hook_spec with
      | None => mkRun checked pm env [Verifying hc hookimpl]
      | Some w =>
          let issued := warn_explicit w (HookImpl.function hookimpl) env in
          mkRun (match fst issued with
                 | Return _ => checked
                 | Raise e => Raise e
                 end)
                pm (snd issued)
                [Verifying hc hookimpl;
                 Warned w (HookImpl.function hookimpl)]
      end.
Proof.
  intros Hs. unfold _verify_hook. rewrite bind_emit. cbv zeta.
  unfold is_historic. rewrite Hs.
  destruct (opt_historic (HookSpec.opts hook_spec)
            && HookImpl.hookwrapper hookimpl); [reflexivity|].
  destruct (HookSpec.warn_on_impl hook_spec) as [w|].
  - pose proof (_warn_for_function_run w (HookImpl.function hookimpl) pm env)
      as W.
    destruct (warn_explicit w (HookImpl.function hookimpl) env)
      as [[[]|e] env']; cbn [fst snd] in W |- *.
    + erewrite bind_Return by exact W. cbv zeta.
      destruct (notinspec _ _); [|reflexivity].
      destruct (_ && _); reflexivity.
    + erewrite bind_Raise by exact W. reflexivity.
  - rewrite bind_ret.
    destruct (notinspec _ _); [|reflexivity].
    destruct (_ && _); reflexivity.
Qed.

(** C3 (as amended): on a caller with a bound spec, [_verify_hook(hook,
    impl)] raises [PluginValidationError] (the spec's ValidationError) when
    (a) the spec is historic and the implementation has [hookwrapper].
    Otherwise it first issues the warning of the spec, if the spec has one,
    and what issuing it raises is raised by [_verify_hook].  When the
    warning does not raise, or there is none, [_verify_hook] raises
    [PluginValidationError] exactly when (b) some argument name of the
    implementation is not among the spec's argument names, or (c) the
    implementation has [hookwrapper] and its function is not a generator
    function; when (b) holds the message carries exactly the offending
    names, each once; when none of (a), (b), (c) holds it returns.  The
    manager is never changed, and the environment is changed by the
    warnings machinery only. *)
Theorem _verify_hook_fails_exactly (hc : @_HookCaller Env) hook_spec hookimpl
    pm env :
  spec hc = Some hook_spec ->
  let r := _verify_hook hc hookimpl pm env in
  let historic_wrapper :=
    opt_historic (HookSpec.opts hook_spec) = true
    /\ HookImpl.hookwrapper hookimpl = true in
  let undeclared x :=
    In x (HookImpl.argnames hookimpl)
    /\ ~ In x (HookSpec.argnames hook_spec) in
  let fake_wrapper :=
    HookImpl.hookwrapper hookimpl = true
    /\ isgeneratorfunction (HookImpl.function hookimpl) = false in
  let issued :=
    match HookSpec.warn_on_impl hook_spec with
    | Some w => warn_explicit w (HookImpl.function hookimpl) env
    | None => (Return tt, env)
    end in
  pm_after r = pm
  /\ (historic_wrapper -> env_after r = env)
  /\ (~ historic_wrapper -> env_after r = snd issued)
  /\ (~ historic_wrapper ->
      forall e, fst issued = Raise e -> out r = Raise e)
  /\ (historic_wrapper \/ fst issued = Return tt ->
      ((exists plugin m, out r = Raise (PluginValidationError plugin m))
       <-> historic_wrapper \/ (exists x, undeclared x) \/ fake_wrapper)
      /\ (~ historic_wrapper -> (exists x, undeclared x) ->
          exists names,
            out r = Raise (PluginValidationError (HookImpl.plugin hookimpl)
                             (Arguments_not_found_in_hookspec
                                (HookImpl.plugin_name hookimpl) (name hc)
                                (HookImpl.function hookimpl) names))
            /\ NoDup names /\ forall x, In x names <-> undeclared x)
      /\ (~ (historic_wrapper \/ (exists x, undeclared x) \/ fake_wrapper) ->
          out r = Return tt)).
Proof.
  intros Hs. cbv zeta. erewrite _verify_hook_run by exact Hs.
  cbv zeta.
  pose proof (notinspec_spec (HookImpl.argnames hookimpl)
                             (HookSpec.argnames hook_spec)) as Hx.
  pose proof (notinspec_NoDup (HookImpl.argnames hookimpl)
                              (HookSpec.argnames hook_spec)) as Hnd.
  set (extra := notinspec _ _) in *.
  set (a := opt_historic (HookSpec.opts hook_spec)
            && HookImpl.hookwrapper hookimpl).
  set (c := HookImpl.hookwrapper hookimpl
            && negb (isgeneratorfunction (HookImpl.function hookimpl))).
  assert (opt_historic (HookSpec.opts hook_spec) = true
          /\ HookImpl.hookwrapper hookimpl = true <-> a = true) as Ha
      by (unfold a; now rewrite andb_true_iff).
  assert (HookImpl.hookwrapper hookimpl = true
          /\ isgeneratorfunction (HookImpl.function hookimpl) = false
          <-> c = true) as Hc
      by (unfold c; now rewrite andb_true_iff, negb_true_iff).
  assert ((exists x, In x (HookImpl.argnames hookimpl)
                     /\ ~ In x (HookSpec.argnames hook_spec))
          <-> extra <> []) as Hex.
  { split.
    - intros (x & Hin) E. apply Hx in Hin. rewrite E in Hin. contradiction.
    - intros Hne. destruct extra as [|x l]; [congruence|].
      exists x. apply Hx. now left. }
  rewrite Ha, Hc, Hex. clearbody a c.
  destruct a.
  - (* (a): the historic spec refuses the wrapper *)
    cbn [out pm_after env_after].
    split; [reflexivity|]. split; [reflexivity|].
    split; [intros H; now contradiction H|].
    split; [intros H; now contradiction H|].
    intros _. split; [|split].
    + split; eauto.
    + intros H. now contradiction H.
    + intros H. contradiction H. now left.
  - set (checked := match extra with [] => _ | _ :: _ => _ end).
    assert (Hchk :
      ((exists plugin m, checked = Raise (PluginValidationError plugin m))
       <-> false = true \/ extra <> [] \/ c = true)
      /\ (false <> true -> extra <> [] ->
          exists names,
            checked = Raise (PluginValidationError (HookImpl.plugin hookimpl)
                               (Arguments_not_found_in_hookspec
                                  (HookImpl.plugin_name hookimpl) (name hc)
                                  (HookImpl.function hookimpl) names))
            /\ NoDup names
            /\ forall x, In x names
                         <-> In x (HookImpl.argnames hookimpl)
                             /\ ~ In x (HookSpec.argnames hook_spec))
      /\ (~ (false = true \/ extra <> [] \/ c = true) ->
          checked = Return tt)).
    { subst checked. destruct extra as [|x l] eqn:Ee.
      - destruct c.
        + (* (c): a wrapper that is not a generator function *)
          split; [|split].
          * split; eauto.
          * intros _ H. now contradiction H.
          * intros H. contradiction H. right. now right.
        + (* neither (b) nor (c): the implementation passes *)
          split; [|split].
          * split; [intros (p & m & H); discriminate H|].
            intros [H|[H|H]]; congruence.
          * intros _ H. now contradiction H.
          * reflexivity.
      - (* (b): undeclared argument names, listed in the message *)
        split; [|split].
        + split; [|eauto]. intros _. right. left. discriminate.
        + intros _ _. exists (x :: l). rewrite <- Ee in *. auto.
        + intros H. contradiction H. right. left. discriminate. }
    clearbody checked.
    destruct (HookSpec.warn_on_impl hook_spec) as [w|];
      cbv zeta; cbn [out pm_after env_after fst snd].
    + split; [reflexivity|]. split; [discriminate|].
      split; [reflexivity|].
      destruct (fst (warn_explicit w (HookImpl.function hookimpl) env))
        as [[]|e].
      * split; [discriminate|]. intros _. exact Hchk.
      * split; [now intros _ e' [= <-]|].
        intros [H|H]; discriminate H.
    + split; [reflexivity|]. split; [discriminate|].
      split; [reflexivity|]. split; [discriminate|].
      intros _. exact Hchk.
Qed.

(** *** Pending implementations *)

Lemma bind_out_observes {A B} (c : @M Env A) (k : A -> M B) pm env :
  observes_only c ->
  out (bind c k pm env)
  = match out (c pm env) with
    | Return a => out (k a pm env)
    | Raise e => Raise e
    end.
Proof.
  intros Hc. unfold bind. destruct (Hc pm env) as (H1 & H2 & _).
  destruct (out (c pm env)); simpl; auto. now rewrite H1, H2.
Qed.

Lemma check_pending_impls_out n (impls : list HookImpl.t) pm env :
  let r := for_each impls
             (fun hookimpl =>
                if negb (HookImpl.optionalhook hookimpl) then
                  raise (PluginValidationError (HookImpl.plugin hookimpl)
                           (unknown_hook n (HookImpl.plugin hookimpl)))
                else @ret Env unit tt) pm env in
  (out r = Return tt
   /\ forall h, In h impls -> HookImpl.optionalhook h = true)
  \/ (exists h, In h impls /\ HookImpl.optionalhook h = false
                /\ out r = Raise (PluginValidationError (HookImpl.plugin h)
                                    (unknown_hook n (HookImpl.plugin h)))).
Proof.
  induction impls as [|h impls IH]; cbn [for_each].
  - left. split; [reflexivity|]. intros h [].
  - cbv zeta. rewrite bind_out_observes.
    + destruct (HookImpl.optionalhook h) eqn:O; cbn [negb out ret raise].
      * destruct IH as [[E Hall]|(h' & Hin & Ho & E)].
        -- left. split; auto. intros h' [<-|Hin]; auto.
        -- right. exists h'. repeat split; auto. now right.
      * right. exists h. repeat split; auto. now left.
    + destruct (negb _); [apply observes_raise | apply observes_ret].
Qed.

Lemma check_pending_hook_out n (hc : @_HookCaller Env) pm env :
  n <> "" ->
  (out (check_pending_hook n hc pm env) = Return tt
   /\ forall h, ~ unknown_hookimpl n hc h)
  \/ (exists h,
         unknown_hookimpl n hc h
         /\ out (check_pending_hook n hc pm env)
            = Raise (PluginValidationError (HookImpl.plugin h)
                       (unknown_hook n (HookImpl.plugin h)))).
Proof.
  intros Hn. unfold check_pending_hook, unknown_hookimpl.
  destruct n as [|c n']; [congruence|]. cbn [is_public].
  destruct (negb (Ascii.eqb c "_")) eqn:Hc.
  - destruct (has_spec hc) eqn:Hsp; cbn [negb].
    + left. split; [reflexivity|]. intros h (_ & Hs & _). discriminate.
    + destruct (@check_pending_impls_out (String c n') (get_hookimpls hc)
                  pm env) as [[E Hall]|(h & Hin & Ho & E)];
        cbv zeta in E; rewrite E.
      * left. split; [reflexivity|]. intros h (_ & _ & Hin & Ho).
        rewrite (Hall h Hin) in Ho. discriminate.
      * right. exists h. repeat split; auto.
  - left. split; [reflexivity|]. intros h (Hp & _). discriminate.
Qed.

Lemma check_pending_items_out (items : list (string * @_HookCaller Env))
    pm env :
  ~ In "" (map fst items) ->
  let r := for_each items
             (fun item => check_pending_hook (fst item) (snd item)) pm env in
  (out r = Return tt
   /\ forall n hc h, In (n, hc) items -> ~ unknown_hookimpl n hc h)
  \/ (exists n hc h,
         In (n, hc) items /\ unknown_hookimpl n hc h
         /\ out r = Raise (PluginValidationError (HookImpl.plugin h)
                             (unknown_hook n (HookImpl.plugin h)))).
Proof.
  induction items as [|[n hc] items IH]; intros Hne; cbn [for_each].
  - left. split; [reflexivity|]. intros n hc h [].
  - cbv zeta. rewrite bind_out_observes
      by apply observes_check_pending_hook.
    cbn [fst snd map In] in *.
    assert (~ In "" (map fst items)) as Hne' by tauto.
    specialize (IH Hne'). cbv zeta in IH.
    assert (n <> "") as Hn by (intros ->; tauto).
    destruct (check_pending_hook_out hc pm env Hn)
      as [[E Hnone]|(h & Hu & E)]; rewrite E.
    + destruct IH as [[E' Hall]|(n' & hc' & h' & Hin & Hu & E')].
      * left. split; auto.
        intros n0 hc0 h [[= <- <-]|Hin];
          [apply Hnone | apply (Hall _ _ _ Hin)].
      * right. exists n', hc', h'. split; [now right|]. split; auto.
    + right. exists n, hc, h. split; [now left|]. split; auto.
Qed.

Lemma unknown_hookimpl_name n (hc : @_HookCaller Env) h :
  unknown_hookimpl n hc h -> n <> "".
Proof. intros (Hp & _) ->. discriminate Hp. Qed.

(** An implementation that [check_pending] comes to makes it raise. *)
Lemma check_pending_items_reach (before : list (string * @_HookCaller Env)) :
  forall n hc after h pm env,
    ~ In "" (map fst before) -> unknown_hookimpl n hc h ->
    exists plugin m,
      out (for_each (before ++ (n, hc) :: after)
             (fun item => check_pending_hook (fst item) (snd item)) pm env)
      = Raise (PluginValidationError plugin m).
Proof.
  induction before as [|[k hck] before IH]; intros n hc after h pm env Hne Hu;
    cbn [app for_each]; rewrite bind_out_observes
      by apply observes_check_pending_hook; cbn [fst snd].
  - destruct (check_pending_hook_out hc pm env (unknown_hookimpl_name Hu))
      as [[_ Hnone]|(h' & _ & E)].
    + destruct (Hnone h Hu).
    + rewrite E. eauto.
  - cbn [map fst In] in Hne.
    assert (k <> "") as Hk by (intros ->; tauto).
    destruct (check_pending_hook_out hck pm env Hk)
      as [[E _]|(h' & _ & E)]; rewrite E; [|eauto].
    apply (IH n hc after h); tauto.
Qed.

(** What [check_pending] comes to, by the outcome of its loop. *)
Lemma check_pending_items_cases (items : list (string * @_HookCaller Env))
    pm env :
  match out (for_each items
               (fun item => check_pending_hook (fst item) (snd item))
               pm env) with
  | Return _ =>
      ~ In "" (map fst items)
      /\ forall n hc h, In (n, hc) items -> ~ unknown_hookimpl n hc h
  | Raise e =>
      (e = IndexError /\ In "" (map fst items))
      \/ exists before n hc after h,
           items = before ++ (n, hc) :: after
           /\ ~ In "" (map fst before)
           /\ unknown_hookimpl n hc h
           /\ e = PluginValidationError (HookImpl.plugin h)
                    (unknown_hook n (HookImpl.plugin h))
  end.
Proof.
  induction items as [|[k hck] items IH]; cbn [for_each].
  - cbn. split; [tauto|]. intros n hc h [].
  - rewrite bind_out_observes by apply observes_check_pending_hook.
    cbn [fst snd map In].
    destruct (String.eqb_spec k "") as [->|Hk].
    + cbn. left. split; [reflexivity|now left].
    + destruct (check_pending_hook_out hck pm env Hk)
        as [[E Hnone]|(h & Hu & E)]; rewrite E.
      * destruct (out (for_each items _ pm env)) as [[]|e].
        -- destruct IH as [Hne Hall]. split; [intros [H|H]; congruence|].
           intros n hc h [[= <- <-]|Hin];
             [apply Hnone | apply (Hall _ _ _ Hin)].
        -- destruct IH as [[-> Hin]|(before & n & hc & after & h & -> & Hne
                                     & Hu & ->)].
           ++ left. split; [reflexivity|now right].
           ++ right. exists ((k, hck) :: before), n, hc, after, h.
              split; [reflexivity|]. split; [|now split].
              cbn [map fst In]. intros [H|H]; congruence.
      * right. exists [], k, hck, items, h.
        split; [reflexivity|]. split; [intros []|now split].
Qed.

(** C9 (as amended): [check_pending] raises the "unknown hook"
    [PluginValidationError] (the spec's UnknownHookError) exactly when some
    caller whose name does not begin with an underscore has no spec and
    holds an implementation that is not optional, and no hook named by the
    empty string comes before that caller in the relay; the error names
    such a hook and the plugin of such an implementation.  It returns
    exactly when no hook is named by the empty string and no caller holds
    such an implementation.  It never changes the manager or the
    environment. *)
Theorem check_pending_raises_exactly pm env :
  let r := check_pending pm env in
  pm_after r = pm /\ env_after r = env
  /\ ((exists plugin m, out r = Raise (PluginValidationError plugin m))
      <-> has_unknown_hookimpl_in_reach pm)
  /\ (forall plugin m,
        out r = Raise (PluginValidationError plugin m) ->
        exists n hc h,
          In (n, hc) (Dict.items (hook pm)) /\ unknown_hookimpl n hc h
          /\ plugin = HookImpl.plugin h
          /\ m = unknown_hook n (HookImpl.plugin h))
  /\ (out r = Return tt
      <-> ~ In "" (Dict.keys (hook pm)) /\ ~ has_unknown_hookimpl pm)
  /\ (~ In "" (Dict.keys (hook pm)) ->
      ((exists e, out r = Raise e) <-> has_unknown_hookimpl pm)).
Proof.
  cbv zeta.
  destruct (observes_check_pending pm env) as (H1 & H2 & _).
  split; [exact H1|]. split; [exact H2|].
  unfold check_pending. rewrite bind_self.
  pose proof (check_pending_items_cases (Dict.items (hook pm)) pm env) as Hc.
  assert (Hreach : has_unknown_hookimpl_in_reach pm ->
            exists plugin m,
              out (for_each (Dict.items (hook pm))
                     (fun item => check_pending_hook (fst item) (snd item))
                     pm env)
              = Raise (PluginValidationError plugin m)).
  { intros (before & n & hc & after & h & -> & Hne & Hu).
    eapply check_pending_items_reach; eassumption. }
  assert (Hin_reach : ~ In "" (Dict.keys (hook pm)) ->
            has_unknown_hookimpl pm -> has_unknown_hookimpl_in_reach pm).
  { intros Hne (n & hc & h & Hin & Hu).
    apply in_split in Hin. destruct Hin as (before & after & E).
    exists before, n, hc, after, h. split; [exact E|]. split; [|exact Hu].
    intros Hb. apply Hne. unfold Dict.keys, Dict.items in *. rewrite E.
    rewrite map_app. apply in_or_app. now left. }
  destruct (out (for_each (Dict.items (hook pm)) _ pm env)) as [[]|e].
  - destruct Hc as [Hne Hall].
    assert (~ has_unknown_hookimpl pm) as Hno.
    { intros (n & hc & h & Hin & Hu). exact (Hall n hc h Hin Hu). }
    split; [|split; [|split]].
    + split; [intros (p & m & H); discriminate H|].
      intros H. destruct (Hreach H) as (p & m & E). discriminate E.
    + intros p m H. discriminate H.
    + split; [now intros _|reflexivity].
    + intros _. split; [intros (e & H); discriminate H|].
      intros H. contradiction.
  - destruct Hc as [[-> Hempty]
                   |(before & n & hc & after & h & E & Hne & Hu & ->)].
    + split; [|split; [|split]].
      * split; [intros (p & m & H); discriminate H|].
        intros H. destruct (Hreach H) as (p & m & E). discriminate E.
      * intros p m H. discriminate H.
      * split; [discriminate|]. intros [Hne _]. contradiction.
      * intros Hne. contradiction.
    + assert (has_unknown_hookimpl pm) as Hyes.
      { exists n, hc, h. split; [|exact Hu]. rewrite E.
        apply in_or_app. right. now left. }
      split; [|split; [|split]].
      * split; [|eauto]. intros _. exists before, n, hc, after, h. auto.
      * intros p m [= <- <-]. exists n, hc, h.
        split; [|auto]. rewrite E. apply in_or_app. right. now left.
      * split; [discriminate|]. intros [_ Hno]. contradiction.
      * intros _. split; [now intros _|eauto].
Qed.

(** *** Call monitoring *)

Lemma with_inner_hookexec_undo pm e :
  with_inner_hookexec (with_inner_hookexec pm e) (_inner_hookexec pm) = pm.
Proof. now destruct pm. Qed.

(** C7: [add_hookcall_monitoring(before, after)] changes nothing but the
    inner call engine, which becomes a function that, on every hook call,
    runs [before(hook_name, impls, kwargs)], then the engine installed so
    far, capturing what it returns or raises in a [_Result], then
    [after(outcome, hook_name, impls, kwargs)], and gives back the result of
    the outcome (a callback that raises ends the call with its exception).
    The callback it returns reinstalls, in whatever manager it runs, exactly
    the engine that was installed before the call.  A second installation
    wraps the first: its undo gives back the manager with the first wrapper,
    and the first undo then gives back the original manager. *)
Theorem add_hookcall_monitoring_wraps pm env (before : @_BeforeTrace Env)
    (after : _AfterTrace) :
  let oldcall := _inner_hookexec pm in
  let pm1 := with_inner_hookexec pm (traced_hookexec before after oldcall) in
  add_hookcall_monitoring before after pm env
  = mkRun (Return (undo oldcall)) pm1 env []
  /\ (forall hook_name impls kwargs firstresult e0,
        _inner_hookexec pm1 hook_name impls kwargs firstresult e0
        = match before hook_name impls kwargs e0 with
          | (Raise e, e1) => (Raise e, e1)
          | (Return _, e1) =>
              let (res, e2) :=
                oldcall hook_name impls kwargs firstresult e1 in
              let outcome :=
                match res with
                | Return v => Produced v
                | Raise e => Captured e
                end in
              match after outcome hook_name impls kwargs e2 with
              | (Raise e, e3) => (Raise e, e3)
              | (Return outcome', e3) => (get_result outcome', e3)
              end
          end)
  /\ (forall hook_name impls kwargs firstresult e0,
        _hookexec hook_name impls kwargs firstresult pm1 e0
        = let (o, e') := traced_hookexec before after oldcall
                           hook_name impls kwargs firstresult e0 in
          mkRun o pm1 e' [])
  /\ (forall pm' env',
        undo oldcall pm' env'
        = mkRun (Return tt) (with_inner_hookexec pm' oldcall) env' [])
  /\ pm_after (undo oldcall pm1 env) = pm
  /\ (forall before2 after2,
        let pm2 := with_inner_hookexec pm1
                     (traced_hookexec before2 after2
                        (traced_hookexec before after oldcall)) in
        add_hookcall_monitoring before2 after2 pm1 env
        = mkRun (Return (undo (_inner_hookexec pm1))) pm2 env []
        /\ pm_after (undo (_inner_hookexec pm1) pm2 env) = pm1
        /\ pm_after (undo oldcall
                       (pm_after (undo (_inner_hookexec pm1) pm2 env)) env)
           = pm).
Proof.
  cbv zeta. split; [|split; [|split; [|split; [|split]]]].
  - unfold add_hookcall_monitoring. now rewrite bind_self, bind_store.
  - intros hook_name impls kwargs firstresult e0.
    cbn [with_inner_hookexec _inner_hookexec]. unfold traced_hookexec.
    destruct (before hook_name impls kwargs e0) as [[u|e] e1]; auto.
    unfold from_call.
    destruct (_inner_hookexec pm hook_name impls kwargs firstresult e1)
      as [[v|e] e2]; reflexivity.
  - intros hook_name impls kwargs firstresult e0.
    unfold _hookexec. rewrite bind_self. reflexivity.
  - intros pm' env'. unfold undo. now rewrite bind_self.
  - unfold undo. rewrite bind_self. cbn [store pm_after].
    apply with_inner_hookexec_undo.
  - intros before2 after2. split; [|split].
    + unfold add_hookcall_monitoring. now rewrite bind_self, bind_store.
    + unfold undo. rewrite bind_self. cbn [store pm_after].
      now destruct pm.
    + unfold undo. rewrite !bind_self. cbn [store pm_after].
      now destruct pm.
Qed.

(** *** Subset callers *)

(** When every plugin to remove has an attribute named like the hook,
    [subset_hook_caller] returns, without changing anything, a proxy whose
    implementations are, in every manager it is later used with, those of
    the caller that do not belong to a removed plugin. *)
Lemma subset_hook_caller_excludes pm env n remove_plugins hc :
  Dict.get (hook pm) n = Some hc ->
  (forall p, In p remove_plugins -> hasattr p n = true) ->
  exists proxy,
    subset_hook_caller n remove_plugins pm env = mkRun (Return proxy) pm env []
    /\ proxy_orig proxy = n
    /\ forall pm' hc',
         Dict.get (@hook Env pm') n = Some hc' ->
         proxy_hookimpls pm' proxy
         = filter (fun h => negb (in_plugins remove_plugins h))
                  (get_hookimpls hc').
Proof.
  intros G Hattr. unfold subset_hook_caller. rewrite bind_self, G.
  assert (filter (fun plug => hasattr plug n) remove_plugins = remove_plugins)
    as ->.
  { induction remove_plugins as [|p l IH]; simpl; auto.
    rewrite Hattr by now left. rewrite IH; auto.
    intros q Hq. apply Hattr. now right. }
  destruct remove_plugins as [|p l].
  - exists (Orig n). repeat split. intros pm' hc' G'.
    unfold proxy_hookimpls. cbn [proxy_orig]. rewrite G'. simpl.
    induction (get_hookimpls hc'); simpl; congruence.
  - exists (_SubsetHookCaller n (p :: l)). repeat split.
    intros pm' hc' G'. unfold proxy_hookimpls. cbn [proxy_orig].
    now rewrite G'.
Qed.

(** *** What the scan of a plugin does to the relay *)

Lemma grows_by_refl P pm : grows_by P pm pm.
Proof.
  split; [apply same_but_hooks_refl|].
  intros k. now destruct (Dict.get (hook pm) k).
Qed.

Lemma grows_by_trans P pm1 pm2 pm3 :
  grows_by P pm1 pm2 -> grows_by P pm2 pm3 -> grows_by P pm1 pm3.
Proof.
  intros [S12 H12] [S23 H23].
  split; [eapply same_but_hooks_trans; eauto|].
  intros k. specialize (H12 k). specialize (H23 k).
  destruct (Dict.get (hook pm3) k) as [hc3|].
  - destruct (Dict.get (hook pm2) k) as [hc2|].
    + congruence.
    + now rewrite H12.
  - now rewrite H23 in H12.
Qed.

Lemma setattr_hook_run n (hc : @_HookCaller Env) pm env :
  setattr_hook n hc pm env
  = mkRun (Return tt) (with_hook pm (Dict.set (hook pm) n hc)) env [].
Proof. unfold setattr_hook. now rewrite bind_self. Qed.

Lemma modify_hook_run ref (f : @_HookCaller Env -> _HookCaller) pm env :
  modify_hook ref f pm env
  = mkRun (Return tt)
          (match Dict.get (hook pm) ref with
           | Some hc => with_hook pm (Dict.set (hook pm) ref (f hc))
           | None => pm
           end) env [].
Proof.
  unfold modify_hook. rewrite bind_self.
  now destruct (Dict.get (hook pm) ref).
Qed.

Lemma filter_insert_hookimpl (p : HookImpl.t -> bool) l h :
  p h = false -> filter p (insert_hookimpl l h) = filter p l.
Proof.
  intros Hh. induction l as [|x l IH]; simpl.
  - now rewrite Hh.
  - destruct (sorts_before_or_with x h); simpl.
    + now rewrite IH.
    + now rewrite Hh.
Qed.

Lemma _remove_plugin__add_hookimpl (hc : @_HookCaller Env) P h :
  belongs_to (Some P) h = true ->
  _remove_plugin (_add_hookimpl hc h) (Some P) = _remove_plugin hc (Some P).
Proof.
  intros Hb. unfold _remove_plugin, _add_hookimpl.
  cbn [name spec _hookimpls _call_history]. f_equal.
  apply filter_insert_hookimpl. cbv beta. now rewrite Hb.
Qed.

(** Attaching an implementation of [P] to the caller behind a reference. *)
Lemma grows_modify_hook P ref h :
  belongs_to (Some P) h = true ->
  stable (grows_by P)
         (@modify_hook Env ref (fun hc => _add_hookimpl hc h)).
Proof.
  intros Hb pm env. rewrite modify_hook_run. cbn [pm_after].
  destruct (Dict.get (hook pm) ref) as [hc|] eqn:G; [|apply grows_by_refl].
  split; [repeat split|]. intros k. cbn [with_hook hook].
  destruct (String.eqb_spec ref k) as [<-|Hne].
  - rewrite Dict_get_set_same, G. now apply _remove_plugin__add_hookimpl.
  - rewrite Dict_get_set_other by assumption.
    now destruct (Dict.get (hook pm) k).
Qed.

Lemma belongs_to_HookImpl__init__ P plugin_name method o :
  belongs_to (Some P) (HookImpl__init__ P plugin_name method o) = true.
Proof. apply plugin_is_refl. Qed.

(** One iteration of the scan of [P] adds to the relay only
    implementations of [P]. *)
Lemma grows_register_member P plugin_name n :
  stable (grows_by P) (@register_member Env _ P plugin_name n).
Proof.
  intros pm env. unfold register_member. rewrite bind_self.
  destruct (parse_hookimpl_opts pm P n) as [raw|]; [|apply grows_by_refl].
  destruct (getattr_member P n) as [method|]; [|apply grows_by_refl].
  cbv zeta.
  set (h := HookImpl__init__ P plugin_name method
              (normalize_hookimpl_opts raw)).
  set (t := str_or (opt_specname (normalize_hookimpl_opts raw)) n).
  assert (belongs_to (Some P) h = true) as Hb
      by apply belongs_to_HookImpl__init__.
  destruct (Dict.get (hook pm) t) as [hc|] eqn:G.
  - eapply (fun Hc Hk =>
              @stable_bind _ (@grows_by_trans P) _ _ _ _ Hc Hk pm env).
    + destruct (has_spec hc); [|apply stable_ret, grows_by_refl].
      apply stable_bind; [apply grows_by_trans| |intros _].
      * apply stable__verify_hook;
          [apply grows_by_refl|apply grows_by_trans].
      * apply stable__maybe_apply_history;
          [apply grows_by_refl|apply grows_by_trans].
    + intros _. now apply grows_modify_hook.
  - erewrite bind_Return by apply setattr_hook_run. cbv zeta.
    cbn [pm_after].
    eapply grows_by_trans; [|now apply grows_modify_hook].
    split; [repeat split|]. intros k. cbn [with_hook hook].
    destruct (String.eqb_spec t k) as [<-|Hne].
    + rewrite Dict_get_set_same, G. reflexivity.
    + rewrite Dict_get_set_other by assumption.
      now destruct (Dict.get (hook pm) k).
Qed.

Lemma grows_scan P plugin_name names :
  stable (grows_by P)
         (@for_each Env _ names (register_member P plugin_name)).
Proof.
  apply stable_for_each;
    [apply grows_by_refl | apply grows_by_trans |].
  intros n. apply grows_register_member.
Qed.


(** *** Registering and unregistering again *)

(** [register] either stops at a guard, leaving everything as it is and
    returning no name, or binds the name and scans the plugin. *)
Lemma register_cases pm env (P : _Plugin) (name : option string) :
  let plugin_name := str_or name (get_canonical_name P) in
  (exists o, register P name pm env = mkRun o pm env []
             /\ (o = Return None \/ exists msg, o = Raise (ValueError msg)))
  \/ (Dict.get (_name2plugin pm) plugin_name = None
      /\ is_registered pm P = false
      /\ register P name pm env
         = let r := for_each (Dict.keys (dir P))
                      (register_member P plugin_name)
                      (with_name2plugin pm
                         (Dict.set (_name2plugin pm) plugin_name (Some P)))
                      env in
           mkRun (match out r with
                  | Return _ => Return (Some plugin_name)
                  | Raise e => Raise e
                  end)
                 (pm_after r) (env_after r) (journal r)).
Proof.
  intros plugin_name.
  destruct (Dict.get (_name2plugin pm) plugin_name) as [v|] eqn:G.
  - left. unfold register. fold plugin_name. rewrite bind_self.
    unfold Dict.contains. rewrite G.
    destruct v; eexists; (split; [reflexivity|eauto]).
  - destruct (is_registered pm P) eqn:Reg.
    + left. unfold register. fold plugin_name. rewrite bind_self.
      unfold Dict.contains. rewrite G, Reg.
      eexists; (split; [reflexivity|eauto]).
    + right. split; auto. split; auto.
      apply (register_scan_run pm env P name G Reg).
Qed.



Lemma _remove_plugin_clean (hc : @_HookCaller Env) P h :
  In h (_hookimpls (_remove_plugin hc (Some P))) ->
  belongs_to (Some P) h = false.
Proof.
  unfold _remove_plugin; cbn [_hookimpls]. intros Hin.
  apply filter_In in Hin as [_ Hb]. now apply negb_true_iff in Hb.
Qed.


(** *** The invariant of the registry *)

Lemma is_registered_In pm (p : _Plugin) :
  is_registered pm p = true
  <-> exists m q, In (m, Some q) (_name2plugin pm) /\ plugin_is p q = true.
Proof.
  unfold is_registered. rewrite existsb_exists. split.
  - intros ([q|] & Hin & E); [|discriminate].
    apply in_map_iff in Hin as ([m v] & Ev & Hin). simpl in Ev. subst v.
    exists m, q. auto.
  - intros (m & q & Hin & E). exists (Some q). split; auto.
    apply (in_map snd) in Hin. exact Hin.
Qed.

Lemma plugin_is_sym (p q : _Plugin) : plugin_is p q = plugin_is q p.
Proof. apply N.eqb_sym. Qed.

Lemma plugin_is_trans (p q r : _Plugin) :
  plugin_is p q = true -> plugin_is q r = true -> plugin_is p r = true.
Proof. unfold plugin_is. rewrite !N.eqb_eq. congruence. Qed.



Lemma get_name_binding pm (p : _Plugin) n :
  get_name pm (Some p) = Some n ->
  exists q, In (n, Some q) (_name2plugin pm) /\ plugin_is p q = true.
Proof.
  unfold get_name, Dict.items.
  destruct (find _ _) as [[m v]|] eqn:F; [|discriminate].
  intros [= ->]. apply find_some in F as [Hin E]. cbn [snd] in E.
  destruct v as [q|]; [|discriminate]. exists q. auto.
Qed.

Lemma same_but_hooks_is_registered pm pm' p :
  _name2plugin pm' = _name2plugin pm ->
  is_registered pm' p = is_registered pm p.
Proof. unfold is_registered. now intros ->. Qed.


Lemma keeps_setattr_hook n (hc : @_HookCaller Env) :
  stable (fun pm pm' =>
            _hookimpls hc = match Dict.get (hook pm) n with
                            | Some hc0 => _hookimpls hc0
                            | None => []
                            end -> keeps_hookimpls pm pm')
         (setattr_hook n hc).
Proof.
  intros pm env H. rewrite setattr_hook_run. cbn [pm_after].
  split; [repeat split|]. intros k. cbn [with_hook hook].
  destruct (String.eqb_spec n k) as [<-|Hne].
  - now rewrite Dict_get_set_same.
  - rewrite Dict_get_set_other by assumption.
    now destruct (Dict.get (hook pm) k).
Qed.

Lemma set_specification_hookimpls (hc hc' : @_HookCaller Env) ns opts :
  set_specification hc ns opts = Return hc' ->
  _hookimpls hc' = _hookimpls hc.
Proof.
  unfold set_specification. destruct (has_spec hc); [discriminate|].
  destruct (HookSpec__init__ ns (name hc) opts); [|discriminate].
  now intros [= <-].
Qed.

Lemma keeps_add_hookspecs_member ns n :
  stable keeps_hookimpls (@add_hookspecs_member Env _ ns n).
Proof.
  intros pm env. unfold add_hookspecs_member. rewrite bind_self.
  destruct (parse_hookspec_opts pm ns n) as [[opts|]|e];
    cbn [lift]; [|rewrite bind_ret; apply keeps_hookimpls_refl
                 |apply keeps_hookimpls_refl].
  rewrite bind_ret. cbv beta iota.
  destruct (Dict.get (hook pm) n) as [hc|] eqn:G.
  - rewrite bind_assoc.
    destruct (set_specification hc ns opts) as [hc'|e] eqn:S; cbn [lift];
      [|apply keeps_hookimpls_refl].
    rewrite bind_ret. cbv beta. rewrite bind_assoc.
    erewrite bind_Return by apply setattr_hook_run. cbv zeta.
    cbn [pm_after].
    eapply keeps_hookimpls_trans.
    + pose proof (keeps_setattr_hook n hc' pm env) as K.
      rewrite setattr_hook_run in K. cbn [pm_after] in K. apply K.
      rewrite G. now apply set_specification_hookimpls in S.
    + eapply (fun Hc Hk =>
                @stable_bind _ keeps_hookimpls_trans _ _ _ _ Hc Hk).
      * apply stable_for_each;
          [apply keeps_hookimpls_refl|apply keeps_hookimpls_trans|].
        intros h. apply stable__verify_hook;
          [apply keeps_hookimpls_refl|apply keeps_hookimpls_trans].
      * intros _. apply stable_ret, keeps_hookimpls_refl.
  - rewrite bind_assoc.
    destruct (new_HookCaller_with_spec n ns opts) as [hc'|e] eqn:S;
      cbn [lift]; [|apply keeps_hookimpls_refl].
    rewrite bind_ret. cbv beta.
    erewrite bind_Return by apply setattr_hook_run. cbv zeta.
    cbn [pm_after ret].
    pose proof (keeps_setattr_hook n hc' pm env) as K.
    rewrite setattr_hook_run in K. cbn [pm_after] in K. apply K.
    rewrite G. unfold new_HookCaller_with_spec in S.
    now apply set_specification_hookimpls in S.
Qed.

Lemma keeps_add_hookspecs ns : stable keeps_hookimpls (@add_hookspecs Env _ ns).
Proof.
  unfold add_hookspecs. apply stable_bind; [apply keeps_hookimpls_trans| |].
  - generalize (@nil string).
    induction (Dict.keys (dir ns)) as [|n todo IH]; intros names; simpl.
    + apply stable_ret, keeps_hookimpls_refl.
    + apply stable_bind; [apply keeps_hookimpls_trans| |auto].
      apply keeps_add_hookspecs_member.
  - intros [|n names]; [|apply stable_ret, keeps_hookimpls_refl].
    apply stable_bind; [apply keeps_hookimpls_trans| |].
    + apply stable_self, keeps_hookimpls_refl.
    + intros pm. apply stable_raise, keeps_hookimpls_refl.
Qed.

Lemma consistent_register pm env (P : _Plugin) (name : option string) :
  consistent pm -> consistent (pm_after (register P name pm env)).
Proof.
  intros [Hwf Himpl].
  destruct (register_cases pm env P name)
    as [(o & E & _)|(G & _ & E)]; rewrite E; clear E; [now split|].
  cbv zeta. cbn [pm_after].
  set (plugin_name := str_or name (get_canonical_name P)) in *.
  set (pm0 := with_name2plugin pm
                (Dict.set (_name2plugin pm) plugin_name (Some P))).
  destruct (grows_scan P plugin_name (Dict.keys (dir P)) pm0 env)
    as [(_ & S2 & _) Hgrow].
  set (pm1 := pm_after _) in *.
  cbn [pm0 with_name2plugin _name2plugin hook] in S2, Hgrow.
  split.
  - rewrite S2. now apply Dict_wf_set.
  - intros k hc' h Gk Hin. apply is_registered_In. rewrite S2.
    destruct (belongs_to (Some P) h) eqn:Hb.
    + exists plugin_name, P. split.
      * apply Dict_get_In, Dict_get_set_same.
      * unfold belongs_to in Hb. cbn [opt_plugin_eq] in Hb.
        now rewrite plugin_is_sym.
    + specialize (Hgrow k). rewrite Gk in Hgrow.
      assert (In h (_hookimpls (_remove_plugin hc' (Some P)))) as Hin'.
      { unfold _remove_plugin. cbn [_hookimpls]. apply filter_In.
        split; auto. now rewrite Hb. }
      rewrite Hgrow in Hin'.
      destruct (Dict.get (hook pm) k) as [hc|] eqn:G0; [|destruct Hin'].
      unfold _remove_plugin in Hin'. cbn [_hookimpls] in Hin'.
      apply filter_In in Hin' as [Hin' _].
      specialize (Himpl k hc h G0 Hin').
      apply is_registered_In in Himpl as (m & q & Hm & E).
      exists m, q. split; auto.
      rewrite Dict_set_fresh by assumption. apply in_or_app. now left.
Qed.






(** *** A scan that fails *)

(** A loop that raises ran some iterations to their end and then one that
    raised. *)
Lemma for_each_raise_split {A} (l : list A) (body : A -> @M Env unit)
    pm env e :
  out (for_each l body pm env) = Raise e ->
  exists done failing rest,
    l = done ++ failing :: rest
    /\ let r0 := for_each done body pm env in
       out r0 = Return tt
       /\ out (body failing (pm_after r0) (env_after r0)) = Raise e
       /\ pm_after (for_each l body pm env)
          = pm_after (body failing (pm_after r0) (env_after r0))
       /\ env_after (for_each l body pm env)
          = env_after (body failing (pm_after r0) (env_after r0)).
Proof.
  revert pm env. induction l as [|a l IH]; intros pm env; cbn [for_each].
  - discriminate.
  - unfold bind at 1 2 3.
    destruct (out (body a pm env)) as [[]|e'] eqn:Ha; cbn [out pm_after env_after].
    + intros H. destruct (IH _ _ H) as (done & failing & rest & -> & Hr).
      cbv zeta in Hr. destruct Hr as (H0 & H1 & H2 & H3).
      exists (a :: done), failing, rest. split; [reflexivity|].
      cbv zeta. cbn [for_each]. unfold bind. rewrite Ha.
      cbn [out pm_after env_after]. rewrite H0. cbn [out pm_after env_after].
      repeat split; auto.
    + intros [= ->]. exists [], a, l. split; [reflexivity|].
      cbv zeta. cbn [for_each ret out pm_after env_after].
      repeat split; auto.
Qed.

Lemma In_insert_hookimpl l h x :
  In x (insert_hookimpl l h) <-> x = h \/ In x l.
Proof.
  induction l as [|y l IH]; simpl.
  - intuition congruence.
  - destruct (sorts_before_or_with y h); simpl; rewrite ?IH;
      intuition congruence.
Qed.

Lemma retains_refl pm : retains pm pm.
Proof. split; [apply same_but_hooks_refl|]. intros k hc h G Hin. eauto. Qed.

Lemma retains_trans pm1 pm2 pm3 :
  retains pm1 pm2 -> retains pm2 pm3 -> retains pm1 pm3.
Proof.
  intros [S12 H12] [S23 H23].
  split; [eapply same_but_hooks_trans; eauto|].
  intros k hc h G Hin. destruct (H12 k hc h G Hin) as (hc2 & G2 & Hin2).
  eauto.
Qed.

Lemma retains_setattr_fresh n (hc : @_HookCaller Env) pm :
  Dict.get (hook pm) n = None ->
  retains pm (with_hook pm (Dict.set (hook pm) n hc)).
Proof.
  intros G. split; [repeat split|]. intros k hc0 h Gk Hin.
  exists hc0. split; auto. cbn [with_hook hook].
  rewrite Dict_get_set_other; auto. congruence.
Qed.

Lemma retains_modify_hook ref h :
  stable retains (@modify_hook Env ref (fun hc => _add_hookimpl hc h)).
Proof.
  intros pm env. rewrite modify_hook_run. cbn [pm_after].
  destruct (Dict.get (hook pm) ref) as [hc|] eqn:G; [|apply retains_refl].
  split; [repeat split|]. intros k hc0 x Gk Hin. cbn [with_hook hook].
  destruct (String.eqb_spec ref k) as [<-|Hne].
  - rewrite Dict_get_set_same. eexists. split; [reflexivity|].
    cbn [_add_hookimpl _hookimpls]. apply In_insert_hookimpl. right.
    congruence.
  - rewrite Dict_get_set_other by assumption. eauto.
Qed.

(** What one iteration of the scan does, for a member that carries the
    marker: [t] is the hook it targets and [h] the implementation built
    from it. *)
Lemma register_member_marked_run (P : _Plugin) plugin_name n raw method
    pm env :
  parse_hookimpl_opts pm P n = Some raw ->
  getattr_member P n = Some method ->
  let h := HookImpl__init__ P plugin_name method
             (normalize_hookimpl_opts raw) in
  let t := str_or (opt_specname (normalize_hookimpl_opts raw)) n in
  register_member P plugin_name n pm env
  = bind (match Dict.get (hook pm) t with
          | None => setattr_hook t (new_HookCaller t)
          | Some hook =>
              if has_spec hook then
                bind (_verify_hook hook h)
                     (fun _ => _maybe_apply_history hook h)
              else ret tt
          end)
         (fun _ => modify_hook t (fun hook => _add_hookimpl hook h))
         pm env.
Proof.
  intros Hp Hm. cbv zeta. unfold register_member.
  rewrite bind_self, Hp, Hm. reflexivity.
Qed.

Lemma eq_stable_out {A} (c : @M Env A) pm env :
  stable eq c -> pm_after (c pm env) = pm.
Proof. intros H. symmetry. apply H. Qed.

Lemma stable_eq_check (hc : @_HookCaller Env) h :
  stable eq (bind (_verify_hook hc h) (fun _ => _maybe_apply_history hc h)).
Proof.
  apply stable_bind; [intros; congruence| |intros _].
  - apply stable__verify_hook; [reflexivity|intros; congruence].
  - apply stable__maybe_apply_history; [reflexivity|intros; congruence].
Qed.

(** An iteration that raises leaves the manager as it found it; one that
    returns has attached the implementation of a marked member to its
    target; either way nothing that was attached is lost. *)
Lemma register_member_effect (P : _Plugin) plugin_name n pm env :
  let r := register_member P plugin_name n pm env in
  retains pm (pm_after r)
  /\ (forall e, out r = Raise e -> pm_after r = pm)
  /\ (out r = Return tt ->
      forall raw method,
        parse_hookimpl_opts pm P n = Some raw ->
        getattr_member P n = Some method ->
        exists hc,
          Dict.get (hook (pm_after r))
                   (str_or (opt_specname (normalize_hookimpl_opts raw)) n)
          = Some hc
          /\ In (HookImpl__init__ P plugin_name method
                   (normalize_hookimpl_opts raw)) (_hookimpls hc)).
Proof.
  cbv zeta.
  destruct (parse_hookimpl_opts pm P n) as [raw|] eqn:Hp.
  2: { unfold register_member. rewrite bind_self, Hp.
       cbn [ret pm_after out]. repeat split.
       - apply retains_refl.
       - intros _ raw method H. discriminate H. }
  destruct (getattr_member P n) as [method|] eqn:Hm.
  2: { unfold register_member. rewrite bind_self, Hp, Hm.
       cbn [raise pm_after out]. repeat split.
       - apply retains_refl.
       - intros H. discriminate H. }
  rewrite (@register_member_marked_run P plugin_name n raw method pm env
             Hp Hm).
  cbv zeta.
  set (h := HookImpl__init__ P plugin_name method
              (normalize_hookimpl_opts raw)).
  set (t := str_or (opt_specname (normalize_hookimpl_opts raw)) n).
  assert (forall pm1 env1 hc1,
             Dict.get (hook pm1) t = Some hc1 ->
             exists hc,
               Dict.get (hook (pm_after
                                 (modify_hook t
                                    (fun hook => _add_hookimpl hook h)
                                    pm1 env1))) t = Some hc
               /\ In h (_hookimpls hc)) as Hattach.
  { intros pm1 env1 hc1 G1. rewrite modify_hook_run, G1.
    cbn [pm_after with_hook hook]. rewrite Dict_get_set_same.
    eexists. split; [reflexivity|].
    cbn [_add_hookimpl _hookimpls]. apply In_insert_hookimpl. now left. }
  destruct (Dict.get (hook pm) t) as [hc|] eqn:G.
  - set (c := if has_spec hc
              then bind (_verify_hook hc h)
                        (fun _ => _maybe_apply_history hc h)
              else ret tt).
    assert (stable eq c) as Hc.
    { unfold c. destruct (has_spec hc); [apply stable_eq_check|].
      apply stable_ret. reflexivity. }
    pose proof (eq_stable_out pm env Hc) as Epm.
    unfold bind. destruct (out (c pm env)) as [[]|e'] eqn:Ho;
      cbn [out pm_after]; rewrite Epm.
    + split; [|split].
      * apply retains_modify_hook.
      * intros e He. rewrite modify_hook_run in He. discriminate He.
      * intros _ raw' method' [= <-] [= <-]. apply (Hattach pm _ hc G).
    + split; [apply retains_refl|]. split; [reflexivity|].
      intros He. discriminate He.
  - erewrite bind_Return by apply setattr_hook_run. cbv zeta.
    cbn [out pm_after].
    set (pm1 := with_hook pm (Dict.set (hook pm) t (new_HookCaller t))).
    split; [|split].
    + eapply retains_trans;
        [apply (@retains_setattr_fresh t (new_HookCaller t) pm G)|].
      apply retains_modify_hook.
    + intros e He. rewrite modify_hook_run in He. discriminate He.
    + intros _ raw' method' [= <-] [= <-].
      apply (Hattach pm1 env (new_HookCaller t)).
      unfold pm1. cbn [with_hook hook]. apply Dict_get_set_same.
Qed.

Lemma parse_hookimpl_opts_same pm pm' (P : _Plugin) n :
  same_but_hooks pm pm' ->
  parse_hookimpl_opts pm' P n = parse_hookimpl_opts pm P n.
Proof.
  intros (E & _). unfold parse_hookimpl_opts. now rewrite E.
Qed.

(** A scan that returns has attached every marked member it went
    through. *)
Lemma scan_attaches (P : _Plugin) plugin_name done pm env :
  let r := for_each done (register_member P plugin_name) pm env in
  retains pm (pm_after r)
  /\ (out r = Return tt ->
      forall n raw method,
        In n done ->
        parse_hookimpl_opts pm P n = Some raw ->
        getattr_member P n = Some method ->
        exists hc,
          Dict.get (hook (pm_after r))
                   (str_or (opt_specname (normalize_hookimpl_opts raw)) n)
          = Some hc
          /\ In (HookImpl__init__ P plugin_name method
                   (normalize_hookimpl_opts raw)) (_hookimpls hc)).
Proof.
  cbv zeta. revert pm env.
  induction done as [|a done IH]; intros pm env; cbn [for_each].
  - cbn [ret pm_after out]. split; [apply retains_refl|].
    intros _ n raw method [].
  - destruct (register_member_effect P plugin_name a pm env)
      as (Hret & _ & Hatt). cbv zeta in Hret, Hatt.
    unfold bind.
    destruct (out (register_member P plugin_name a pm env)) as [[]|e] eqn:Ho;
      cbn [out pm_after].
    + set (pm1 := pm_after (register_member P plugin_name a pm env)) in *.
      set (env1 := env_after (register_member P plugin_name a pm env)).
      destruct (IH pm1 env1) as (Hret' & Hatt').
      split; [eapply retains_trans; eauto|].
      intros Hout n raw method [<-|Hin] Hp Hm.
      * destruct (Hatt eq_refl raw method Hp Hm) as (hc & G & Hh).
        destruct Hret' as [_ Hkeep]. eapply Hkeep; eauto.
      * apply (Hatt' Hout n raw method Hin); auto.
        rewrite <- Hp. apply parse_hookimpl_opts_same. apply Hret.
    + split; [exact Hret|]. intros H. discriminate H.
Qed.

(** C10: when [register] raises a [PluginValidationError], the resolved
    name was free and is now bound to the plugin, and the scan of
    [dir(plugin)] went through some members to their end and stopped at the
    member whose processing raised: the manager is the one those earlier
    members left, and every implementation they attached is still held by
    its caller. *)
Theorem register_not_atomic pm env (P : _Plugin) (name : option string)
    plugin m :
  let r := register P name pm env in
  let plugin_name := str_or name (get_canonical_name P) in
  let bound :=
    with_name2plugin pm
      (Dict.set (_name2plugin pm) plugin_name (Some P)) in
  out r = Raise (PluginValidationError plugin m) ->
  Dict.get (_name2plugin pm) plugin_name = None
  /\ _name2plugin (pm_after r)
     = Dict.set (_name2plugin pm) plugin_name (Some P)
  /\ get_plugin (pm_after r) plugin_name = Some P
  /\ exists done failing rest,
       Dict.keys (dir P) = done ++ failing :: rest
       /\ let r0 := for_each done (register_member P plugin_name) bound env in
          out r0 = Return tt
          /\ pm_after r = pm_after r0
          /\ out (register_member P plugin_name failing
                    (pm_after r0) (env_after r0))
             = Raise (PluginValidationError plugin m)
          /\ forall n raw method,
               In n done ->
               parse_hookimpl_opts pm P n = Some raw ->
               getattr_member P n = Some method ->
               exists hc,
                 Dict.get (hook (pm_after r))
                   (str_or (opt_specname (normalize_hookimpl_opts raw)) n)
                 = Some hc
                 /\ In (HookImpl__init__ P plugin_name method
                          (normalize_hookimpl_opts raw)) (_hookimpls hc).
Proof.
  cbv zeta. intros Hraise.
  destruct (register_cases pm env P name)
    as [(o & E & Ho)|(G & _ & E)]; cbv zeta in E; rewrite E in *; clear E.
  - (* the guards raise no validation error *)
    exfalso. cbn [out] in Hraise.
    destruct Ho as [->|(msg & ->)]; discriminate Hraise.
  - cbn [out pm_after] in *.
    set (plugin_name := str_or name (get_canonical_name P)) in *.
    set (bound := with_name2plugin pm
                    (Dict.set (_name2plugin pm) plugin_name (Some P))) in *.
    set (r := for_each (Dict.keys (dir P)) (register_member P plugin_name)
                bound env) in *.
    assert (out r = Raise (PluginValidationError plugin m)) as Hr.
    { destruct (out r); [discriminate Hraise|]. now injection Hraise as ->. }
    destruct (grows_scan P plugin_name (Dict.keys (dir P)) bound env)
      as [(_ & S2 & _) _]. fold r in S2.
    cbn [bound with_name2plugin _name2plugin] in S2.
    split; [exact G|]. split; [exact S2|].
    split; [unfold get_plugin; now rewrite S2, Dict_get_set_same|].
    destruct (for_each_raise_split _ _ _ _ Hr)
      as (done & failing & rest & Ek & Hsplit).
    cbv zeta in Hsplit. destruct Hsplit as (H0 & H1 & H2 & _).
    exists done, failing, rest. split; [exact Ek|]. cbv zeta.
    destruct (register_member_effect P plugin_name failing
                (pm_after (for_each done (register_member P plugin_name)
                             bound env))
                (env_after (for_each done (register_member P plugin_name)
                              bound env))) as (_ & Hsame & _).
    cbv zeta in Hsame. specialize (Hsame _ H1).
    assert (pm_after r
            = pm_after (for_each done (register_member P plugin_name)
                          bound env)) as Epm.
    { unfold r. rewrite H2. exact Hsame. }
    split; [exact H0|]. split; [exact Epm|]. split; [exact H1|].
    intros n raw method Hin Hp Hm. rewrite Epm.
    destruct (scan_attaches P plugin_name done bound env) as (_ & Hatt).
    cbv zeta in Hatt. apply (Hatt H0 n raw method Hin); auto.
Qed.

(** *** Where validation runs *)

Lemma silent_ret {A} (a : A) : silent (@ret Env A a).
Proof. intros pm env. reflexivity. Qed.

Lemma silent_raise {A} e : silent (@raise Env A e).
Proof. intros pm env. reflexivity. Qed.

Lemma silent_self : silent (@self Env).
Proof. intros pm env. reflexivity. Qed.

Lemma silent_call {A} (f : @Effect Env A) : silent (call f).
Proof. intros pm env. unfold call. now destruct (f env). Qed.

Lemma silent_bind {A B} (c : @M Env A) (k : A -> M B) :
  silent c -> (forall a, silent (k a)) -> silent (bind c k).
Proof.
  intros Hc Hk pm env. unfold bind. specialize (Hc pm env).
  destruct (out (c pm env)); cbn [journal]; rewrite Hc; auto.
  apply Hk.
Qed.

Lemma silent_for_each {A} (l : list A) (body : A -> @M Env unit) :
  (forall a, silent (body a)) -> silent (for_each l body).
Proof.
  intros Hb. induction l as [|a l IH]; cbn [for_each].
  - apply silent_ret.
  - apply silent_bind; auto.
Qed.

Lemma silent_observes {A} (c : @M Env A) : observes_only c -> silent c.
Proof. intros H pm env. apply H. Qed.

Lemma silent__maybe_apply_history (hc : @_HookCaller Env) method :
  silent (_maybe_apply_history hc method).
Proof.
  unfold _maybe_apply_history.
  destruct (is_historic hc); [|apply silent_ret].
  apply silent_for_each. intros [kwargs cb]. cbn [fst snd].
  apply silent_bind.
  - unfold _hookexec. apply silent_bind; [apply silent_self|].
    intros pm. apply silent_call.
  - intros res. destruct cb as [cb|]; [|apply silent_ret].
    destruct (truthy res); [|apply silent_ret].
    destruct res as [| |[|r0 l]]; try apply silent_raise.
    apply silent_call.
Qed.

Lemma silent_unregister plugin name : silent (@unregister Env plugin name).
Proof.
  intros pm env. destruct name as [n|].
  - now rewrite unregister_by_name_run.
  - destruct plugin as [p|].
    + rewrite unregister_by_plugin_run. now destruct (get_name pm (Some p)).
    + unfold unregister. now rewrite bind_self.
Qed.

Lemma silent_call_historic hook_name cb kwargs :
  silent (@call_historic Env hook_name cb kwargs).
Proof.
  unfold call_historic. apply silent_bind; [apply silent_self|].
  intros pm. destruct (Dict.get (hook pm) hook_name) as [hc|];
    [|apply silent_raise].
  apply silent_bind.
  - unfold _hookexec. apply silent_bind; [apply silent_self|].
    intros pm'. apply silent_call.
  - intros res. apply silent_bind.
    + destruct cb as [cb|]; [|apply silent_ret].
      destruct res as [| |results]; try apply silent_ret.
      apply silent_for_each. intros x. apply silent_call.
    + intros _ pm' env'. now rewrite modify_hook_run.
Qed.

Lemma verifications_app j1 j2 :
  @verifications Env (j1 ++ j2) = verifications j1 ++ verifications j2.
Proof.
  induction j1 as [|[w f|hc h] j1 IH]; cbn [app verifications]; auto.
  now rewrite IH.
Qed.

Lemma journal_bind {A B} (c : @M Env A) (k : A -> M B) pm env :
  journal (bind c k pm env)
  = journal (c pm env)
    ++ match out (c pm env) with
       | Return a => journal (k a (pm_after (c pm env)) (env_after (c pm env)))
       | Raise _ => []
       end.
Proof.
  unfold bind. destruct (out (c pm env)); cbn [journal]; auto.
  now rewrite app_nil_r.
Qed.

(** Every entry into [_verify_hook] is journaled once, with its
    arguments. *)
Lemma _verify_hook_verifications (hc : @_HookCaller Env) h pm env :
  verifications (journal (_verify_hook hc h pm env)) = [(hc, h)].
Proof.
  unfold _verify_hook. rewrite bind_emit. cbv zeta.
  cbn [journal verifications]. f_equal.
  destruct (_ && _); [reflexivity|].
  destruct (spec hc) as [s|]; [|reflexivity].
  rewrite journal_bind, verifications_app.
  destruct (HookSpec.warn_on_impl s) as [w|].
  - rewrite _warn_for_function_run.
    cbn [journal out verifications app pm_after env_after].
    destruct (fst (warn_explicit w (HookImpl.function h) env));
      [|reflexivity].
    destruct (notinspec _ _); [|reflexivity].
    destruct (_ && _); reflexivity.
  - cbn [ret journal out verifications app pm_after env_after].
    destruct (notinspec _ _); [|reflexivity].
    destruct (_ && _); reflexivity.
Qed.

(** The loop of [add_hookspecs] over the implementations a caller already
    holds validates them in order, up to the first that fails. *)
Lemma verify_existing_verifications (hc : @_HookCaller Env) impls pm env :
  let r := for_each impls (fun hookfunction => _verify_hook hc hookfunction)
                    pm env in
  exists verified rest,
    impls = verified ++ rest
    /\ verifications (journal r) = map (pair hc) verified
    /\ (out r = Return tt -> rest = []).
Proof.
  cbv zeta. revert pm env.
  induction impls as [|h impls IH]; intros pm env; cbn [for_each].
  - exists [], []. repeat split.
  - rewrite journal_bind, verifications_app, _verify_hook_verifications.
    unfold bind.
    destruct (out (_verify_hook hc h pm env)) as [[]|e] eqn:Ho; cbn [out].
    + destruct (IH (pm_after (_verify_hook hc h pm env))
                   (env_after (_verify_hook hc h pm env)))
        as (verified & rest & -> & Hv & Hr).
      exists (h :: verified), rest. split; [reflexivity|].
      split; [cbn [map app]; now rewrite Hv|exact Hr].
    + exists [h], impls. split; [reflexivity|].
      split; [reflexivity|]. intros H. discriminate H.
Qed.

(** One iteration of the scan of [register] validates the new
    implementation exactly when its target caller exists and has a spec,
    against the caller as it is before the implementation is attached. *)
Lemma register_member_verifications (P : _Plugin) plugin_name n pm env :
  let r := register_member P plugin_name n pm env in
  match parse_hookimpl_opts pm P n, getattr_member P n with
  | Some raw, Some method =>
      let h := HookImpl__init__ P plugin_name method
                 (normalize_hookimpl_opts raw) in
      let t := str_or (opt_specname (normalize_hookimpl_opts raw)) n in
      match Dict.get (hook pm) t with
      | Some hc =>
          if has_spec hc then
            verifications (journal r) = [(hc, h)]
            /\ (forall e, out r = Raise e -> pm_after r = pm)
            /\ (out r = Return tt ->
                Dict.get (hook (pm_after r)) t = Some (_add_hookimpl hc h))
          else verifications (journal r) = []
      | None => verifications (journal r) = []
      end
  | _, _ => verifications (journal r) = []
  end.
Proof.
  cbv zeta.
  destruct (parse_hookimpl_opts pm P n) as [raw|] eqn:Hp.
  2: { unfold register_member. now rewrite bind_self, Hp. }
  destruct (getattr_member P n) as [method|] eqn:Hm.
  2: { unfold register_member. now rewrite bind_self, Hp, Hm. }
  pose proof (register_member_effect P plugin_name n pm env) as Heff.
  cbv zeta in Heff. destruct Heff as (_ & Hraise & _).
  rewrite (@register_member_marked_run P plugin_name n raw method pm env
             Hp Hm) in *.
  cbv zeta in *.
  set (h := HookImpl__init__ P plugin_name method
              (normalize_hookimpl_opts raw)) in *.
  set (t := str_or (opt_specname (normalize_hookimpl_opts raw)) n) in *.
  destruct (Dict.get (hook pm) t) as [hc|] eqn:G.
  - destruct (has_spec hc) eqn:Hs.
    + split; [|split; [exact Hraise|]].
      * rewrite journal_bind, verifications_app.
        rewrite journal_bind, verifications_app.
        rewrite _verify_hook_verifications.
        destruct (out (_verify_hook hc h pm env));
          destruct (out (bind (_verify_hook hc h)
                              (fun _ => _maybe_apply_history hc h) pm env));
          rewrite ?silent__maybe_apply_history, ?modify_hook_run;
          reflexivity.
      * intros Hout.
        pose proof (stable_eq_check hc h) as Hc.
        unfold bind at 1 in Hout. unfold bind at 1.
        destruct (out (bind (_verify_hook hc h)
                            (fun _ => _maybe_apply_history hc h) pm env))
          as [[]|e] eqn:Ho; [|discriminate Hout].
        cbn [pm_after]. rewrite (eq_stable_out pm env Hc).
        rewrite modify_hook_run, G. cbn [pm_after with_hook hook].
        apply Dict_get_set_same.
    + rewrite bind_ret. now rewrite modify_hook_run.
  - erewrite bind_Return by apply setattr_hook_run. cbv zeta.
    cbn [journal app]. now rewrite modify_hook_run.
Qed.

(** One iteration of the loop of [add_hookspecs] validates, when it
    attaches a spec to a caller that exists already, the implementations
    the caller holds, in order, against the caller with its new spec. *)
Lemma add_hookspecs_member_verifications ns n pm env :
  let r := @add_hookspecs_member Env _ ns n pm env in
  match parse_hookspec_opts pm ns n, Dict.get (hook pm) n with
  | Return (Some opts), Some hc =>
      match set_specification hc ns opts with
      | Return hc' =>
          exists verified rest,
            get_hookimpls hc = verified ++ rest
            /\ verifications (journal r) = map (pair hc') verified
            /\ (out r = Return [n] -> rest = [])
      | Raise _ => journal r = []
      end
  | _, _ => journal r = []
  end.
Proof.
  cbv zeta. unfold add_hookspecs_member. rewrite bind_self.
  destruct (parse_hookspec_opts pm ns n) as [[opts|]|e]; cbn [lift];
    [|now rewrite bind_ret|reflexivity].
  rewrite bind_ret. cbv beta iota.
  destruct (Dict.get (hook pm) n) as [hc|] eqn:G.
  - rewrite bind_assoc.
    destruct (set_specification hc ns opts) as [hc'|e] eqn:S; cbn [lift];
      [|reflexivity].
    rewrite bind_ret. cbv beta. rewrite bind_assoc.
    erewrite bind_Return by apply setattr_hook_run. cbv zeta.
    cbn [journal out app].
    set (pm1 := with_hook pm (Dict.set (hook pm) n hc')).
    destruct (verify_existing_verifications hc' (get_hookimpls hc') pm1 env)
      as (verified & rest & Ei & Hv & Hr). cbv zeta in Hv, Hr.
    exists verified, rest.
    assert (get_hookimpls hc' = get_hookimpls hc) as Eh
        by (unfold get_hookimpls; eapply set_specification_hookimpls; eauto).
    split; [now rewrite <- Eh|]. split.
    + rewrite journal_bind, verifications_app, Hv.
      destruct (out (for_each _ _ _ _)); cbn [ret journal verifications];
        now rewrite app_nil_r.
    + intros Hout. apply Hr. unfold bind in Hout.
      destruct (out (for_each _ _ _ _)) as [[]|e]; [reflexivity|].
      discriminate Hout.
  - rewrite bind_assoc.
    destruct (new_HookCaller_with_spec n ns opts) as [hc'|e]; cbn [lift];
      [|reflexivity].
    rewrite bind_ret. cbv beta.
    erewrite bind_Return by apply setattr_hook_run. reflexivity.
Qed.

(** C4: [_verify_hook] runs at two points and nowhere else.  In the scan
    of [register], the iteration for a marked member validates the new
    implementation exactly when the target caller exists and has a spec; it
    does so against the caller as stored before the iteration, an iteration
    whose validation raises leaves the manager untouched, and an iteration
    that returns has attached the implementation to that caller.  In the
    loop of [add_hookspecs], the iteration that attaches a spec to a caller
    that exists already validates the implementations the caller holds, in
    order, against the caller with its new spec, all of them when it
    returns; a new caller has nothing to validate.  [register] journals
    nothing when one of its guards stops it, and otherwise exactly what
    the iterations of its scan journal, one after the other up to the one
    that raises; [add_hookspecs] journals exactly what the iterations of
    its loop journal.  The other calls of the interface and the calls of
    hooks validate nothing. *)
Theorem verification_points pm env :
  (forall P plugin_name n,
      let r := register_member P plugin_name n pm env in
      match parse_hookimpl_opts pm P n, getattr_member P n with
      | Some raw, Some method =>
          let h := HookImpl__init__ P plugin_name method
                     (normalize_hookimpl_opts raw) in
          let t := str_or (opt_specname (normalize_hookimpl_opts raw)) n in
          match Dict.get (hook pm) t with
          | Some hc =>
              if has_spec hc then
                verifications (journal r) = [(hc, h)]
                /\ (forall e, out r = Raise e -> pm_after r = pm)
                /\ (out r = Return tt ->
                    Dict.get (hook (pm_after r)) t
                    = Some (_add_hookimpl hc h))
              else verifications (journal r) = []
          | None => verifications (journal r) = []
          end
      | _, _ => verifications (journal r) = []
      end)
  /\ (forall P name,
        let plugin_name := str_or name (get_canonical_name P) in
        journal (register P name pm env)
        = if Dict.contains (_name2plugin pm) plugin_name
             || is_registered pm P
          then []
          else journal (for_each (Dict.keys (dir P))
                          (register_member P plugin_name)
                          (with_name2plugin pm
                             (Dict.set (_name2plugin pm) plugin_name
                                       (Some P)))
                          env))
  /\ (forall P plugin_name n rest,
        let r := register_member P plugin_name n pm env in
        journal (for_each (n :: rest) (register_member P plugin_name) pm env)
        = journal r
          ++ match out r with
             | Return _ =>
                 journal (for_each rest (register_member P plugin_name)
                            (pm_after r) (env_after r))
             | Raise _ => []
             end)
  /\ (forall ns n,
        let r := add_hookspecs_member ns n pm env in
        match parse_hookspec_opts pm ns n, Dict.get (hook pm) n with
        | Return (Some opts), Some hc =>
            match set_specification hc ns opts with
            | Return hc' =>
                exists verified rest,
                  get_hookimpls hc = verified ++ rest
                  /\ verifications (journal r) = map (pair hc') verified
                  /\ (out r = Return [n] -> rest = [])
            | Raise _ => journal r = []
            end
        | _, _ => journal r = []
        end)
  /\ (forall ns,
        journal (add_hookspecs ns pm env)
        = journal (add_hookspecs_loop ns (Dict.keys (dir ns)) [] pm env))
  /\ (forall ns n todo names,
        let r := add_hookspecs_member ns n pm env in
        journal (add_hookspecs_loop ns (n :: todo) names pm env)
        = journal r
          ++ match out r with
             | Return appended =>
                 journal (add_hookspecs_loop ns todo (names ++ appended)
                            (pm_after r) (env_after r))
             | Raise _ => []
             end)
  /\ (forall plugin name, journal (unregister plugin name pm env) = [])
  /\ (forall n, journal (set_blocked n pm env) = [])
  /\ journal (check_pending pm env) = []
  /\ (forall n remove_plugins,
        journal (subset_hook_caller n remove_plugins pm env) = [])
  /\ (forall before after,
        journal (add_hookcall_monitoring before after pm env) = [])
  /\ (forall proxy kwargs, journal (proxy_call proxy kwargs pm env) = [])
  /\ (forall hook_name result_callback kwargs,
        journal (call_historic hook_name result_callback kwargs pm env) = [])
  /\ (forall oldcall, journal (undo oldcall pm env) = []).
Proof.
  split; [|split; [|split; [|split; [|split; [|split; [|split; [|split;
    [|split; [|split; [|split; [|split; [|split]]]]]]]]]]]].
  - intros P plugin_name n. apply register_member_verifications.
  - intros P name. cbv zeta.
    destruct (Dict.contains (_name2plugin pm)
                (str_or name (get_canonical_name P))) eqn:C.
    + unfold register. rewrite bind_self, C.
      now destruct (Dict.get (_name2plugin pm) _) as [[q|]|].
    + destruct (is_registered pm P) eqn:R; cbn [orb].
      * unfold register. now rewrite bind_self, C, R.
      * apply Dict_contains_get in C.
        now rewrite (register_scan_run pm env P name C R).
  - intros P plugin_name n rest. cbv zeta. cbn [for_each].
    now rewrite journal_bind.
  - intros ns n. apply add_hookspecs_member_verifications.
  - intros ns. unfold add_hookspecs. rewrite journal_bind.
    destruct (out (add_hookspecs_loop _ _ _ _ _)) as [[|x l]|e];
      rewrite ?bind_self; cbn [raise ret journal]; now rewrite app_nil_r.
  - intros ns n todo names. cbv zeta. cbn [add_hookspecs_loop].
    now rewrite journal_bind.
  - intros plugin name. apply silent_unregister.
  - intros n. now rewrite set_blocked_run.
  - apply observes_check_pending.
  - intros n rm. apply observes_subset_hook_caller.
  - intros before after. unfold add_hookcall_monitoring.
    now rewrite bind_self, bind_store.
  - intros proxy kwargs. unfold proxy_call, _hookexec.
    rewrite !bind_self. apply silent_call.
  - intros hook_name cb kwargs. apply silent_call_historic.
  - intros oldcall. unfold undo. now rewrite bind_self.
Qed.

(** The journal of a loop is the journal of its iterations, one after the
    other, up to the one that raises. *)
Lemma for_each_journal {A} (a : A) (l : list A) (body : A -> @M Env unit)
    pm env :
  journal (for_each (a :: l) body pm env)
  = journal (body a pm env)
    ++ match out (body a pm env) with
       | Return _ =>
           journal (for_each l body (pm_after (body a pm env))
                             (env_after (body a pm env)))
       | Raise _ => []
       end.
Proof. cbn [for_each]. now rewrite journal_bind. Qed.

End RegistryFacts.

(* ================================================================== *)
(** ** The properties at concrete managers *)
(* ================================================================== *)

Lemma register_rejects_duplicates_witness :
  register alpha (Some "alpha") demo_with_alpha tt
  = mkRun (Raise (ValueError (Plugin_name_already_registered "alpha" alpha)))
          demo_with_alpha tt []
  /\ register alpha (Some "other") demo_with_alpha tt
     = mkRun (Raise (ValueError
                       (Plugin_already_registered_under_a_different_name
                          "other" alpha)))
             demo_with_alpha tt [].
Proof.
  split.
  - apply (proj1 (register_rejects_duplicates demo_with_alpha tt alpha
                    (Some "alpha")) alpha).
    reflexivity.
  - apply (proj2 (register_rejects_duplicates demo_with_alpha tt alpha
                    (Some "other")) "alpha" alpha); reflexivity.
Defined.

(** C1 as stated fails: [alpha] is registered under the name "alpha" and
    the different name "held" is blocked; [register(alpha, name="held")]
    raises nothing and returns [None]. *)
Lemma register_duplicate_plugin_on_blocked_name :
  let pm := pm_after (set_blocked "held" demo_with_alpha tt) in
  get_name pm (Some alpha) = Some "alpha"
  /\ is_blocked pm "held" = true
  /\ register alpha (Some "held") pm tt = mkRun (Return None) pm tt [].
Proof. vm_compute. repeat split. Qed.

Lemma unregister_unknown_witness :
  unregister (Some beta) None demo_with_alpha tt
  = mkRun (Raise (AssertionError "plugin is not registered"))
          demo_with_alpha tt []
  /\ unregister None (Some "nobody") demo_with_alpha tt
     = mkRun (Return None) demo_with_alpha tt [].
Proof.
  destruct (unregister_unknown demo_with_alpha tt) as (H1 & _ & _ & _ & H3).
  split; [apply H1 | apply H3]; reflexivity.
Defined.

(** C8 as stated fails: on a manager that knows no plugin named "nobody",
    [unregister(name="nobody")] raises nothing. *)
Lemma unregister_unknown_name_succeeds :
  get_plugin demo_with_alpha "nobody" = None
  /\ out (unregister None (Some "nobody") demo_with_alpha tt) = Return None.
Proof. vm_compute. split; reflexivity. Qed.

Lemma set_blocked_rejects_registration_witness :
  let pm1 := pm_after (set_blocked "alpha" demo_with_alpha tt) in
  let pm2 := fst (perform_all [Unregister None (Some "alpha");
                               Register beta None] pm1 tt) in
  register alpha (Some "alpha") pm2 tt = mkRun (Return None) pm2 tt [].
Proof.
  destruct (set_blocked_rejects_registration demo_with_alpha tt "alpha")
    as (_ & _ & _ & _ & _ & _ & H).
  refine (H _ [Unregister None (Some "alpha"); Register beta None] alpha).
  discriminate.
Defined.

(** C2 as stated fails at the empty name: after [set_blocked("")] the name
    is blocked, yet [register(alpha, name="")] resolves the name to
    "alpha", binds it and returns it. *)
Lemma register_after_blocking_the_empty_name :
  let pm1 := pm_after (set_blocked "" demo_manager tt) in
  let r := register alpha (Some "") pm1 tt in
  is_blocked pm1 "" = true
  /\ out r = Return (Some "alpha")
  /\ get_plugin (pm_after r) "alpha" = Some alpha
  /\ get_plugin pm1 "alpha" = None.
Proof. vm_compute. repeat split. Qed.

Lemma _verify_hook_fails_exactly_witness :
  exists names,
    out (_verify_hook on_load_caller greedy_impl demo_manager tt)
    = Raise (PluginValidationError alpha
               (Arguments_not_found_in_hookspec "alpha" "on_load"
                  (HookImpl.function greedy_impl) names))
    /\ NoDup names
    /\ forall x, In x names
                 <-> In x ["config"; "session"] /\ ~ In x ["config"].
Proof.
  destruct (@_verify_hook_fails_exactly unit _ on_load_caller on_load_spec
              greedy_impl demo_manager tt eq_refl)
    as (_ & _ & _ & _ & H).
  destruct H as (_ & H & _); [right; reflexivity|].
  apply H.
  - intros [Hh _]. discriminate Hh.
  - exists "session". split.
    + right. now left.
    + intros [E|[]]. discriminate E.
Defined.

(** C3 as stated fails: the spec carries a warning for implementers and
    warnings are turned into errors.  For an implementation with an
    argument the spec does not declare, (b) holds and [_verify_hook] raises
    the warning, not a [PluginValidationError]; for an implementation that
    fits the spec, none of (a), (b), (c) holds and [_verify_hook] still
    raises. *)
Lemma _verify_hook_raises_the_warning :
  let r := _verify_hook deprecated_caller greedy_impl filtered_manager true in
  let r' := _verify_hook deprecated_caller plain_impl filtered_manager true in
  (In "session" (HookImpl.argnames greedy_impl)
   /\ ~ In "session" (HookSpec.argnames deprecated_spec))
  /\ out r = Raise (Exception (PyObj 0))
  /\ opt_historic (HookSpec.opts deprecated_spec) = false
  /\ notinspec (HookImpl.argnames plain_impl)
               (HookSpec.argnames deprecated_spec) = []
  /\ HookImpl.hookwrapper plain_impl = false
  /\ out r' = Raise (Exception (PyObj 0)).
Proof.
  cbv zeta. split; [split|].
  - right. now left.
  - intros [E|[]]. discriminate E.
  - repeat split.
Qed.

Lemma check_pending_raises_exactly_witness :
  exists plugin m,
    out (check_pending demo_with_alpha tt)
    = Raise (PluginValidationError plugin m).
Proof.
  apply (proj2 (proj1 (proj2 (proj2
           (check_pending_raises_exactly demo_with_alpha tt))))).
  eexists [], "on_load", _, [], _.
  split; [reflexivity|]. split; [intros []|].
  split; [reflexivity|]. split; [reflexivity|].
  split; [left; reflexivity|reflexivity].
Defined.

(** C9 as stated fails: after [register(gamma)] the caller [_cleanup] has
    no spec and holds an implementation that is not optional, and
    [check_pending] returns. *)
Lemma check_pending_skips_private_hooks :
  (exists hc h,
      Dict.get (hook demo_with_gamma) "_cleanup" = Some hc
      /\ has_spec hc = false
      /\ In h (get_hookimpls hc)
      /\ HookImpl.optionalhook h = false)
  /\ out (check_pending demo_with_gamma tt) = Return tt.
Proof.
  split; [|reflexivity].
  eexists; eexists. split; [reflexivity|].
  split; [reflexivity|]. split; [now left | reflexivity].
Qed.

(** C5 fails on the code: [delta] implements the hook [on_load] through
    [specname] and has no attribute of that name, so
    [subset_hook_caller("on_load", [delta])] drops [delta] from the plugins
    to remove and returns the caller itself, not a subset of it; the
    implementations of that caller include the one of [delta], which is in
    the set to exclude. *)
Theorem subset_hook_caller_keeps_specname_plugin :
  let pm := demo_with_alpha_delta in
  hasattr delta "on_load" = false
  /\ subset_hook_caller "on_load" [delta] pm tt
     = mkRun (Return (Orig "on_load")) pm tt []
  /\ exists hc h,
       Dict.get (hook pm) "on_load" = Some hc
       /\ In h (get_hookimpls hc)
       /\ HookImpl.plugin h = delta.
Proof.
  cbv zeta. split; [reflexivity|]. split; [reflexivity|].
  eexists; eexists. split; [reflexivity|].
  split; [right; left; reflexivity|reflexivity].
Qed.

(** C6 fails on the code: [hollow] is a plugin object that is false.
    [register(hollow)] binds it and [unregister(hollow)] returns it and
    takes its implementation out of the caller, but the test before the
    deletion of the binding is on the truth value of the plugin, so the
    name stays bound and the plugin stays registered: the mapping is not
    as it was. *)
Theorem unregister_keeps_a_false_plugin :
  let r1 := register hollow None demo_manager tt in
  let r2 := unregister (Some hollow) None (pm_after r1) (env_after r1) in
  is_registered demo_manager hollow = false
  /\ out r1 = Return (Some "hollow")
  /\ out r2 = Return (Some hollow)
  /\ list_name_plugin demo_manager = []
  /\ list_name_plugin (pm_after r2) = [("hollow", Some hollow)]
  /\ is_registered (pm_after r2) hollow = true
  /\ Dict.get (hook (pm_after r2)) "on_load"
     = Some (new_HookCaller "on_load").
Proof. cbv zeta. repeat split. Qed.


Lemma register_not_atomic_witness :
  let r := register epsilon None demo_with_specs tt in
  out r = Raise (PluginValidationError epsilon
                   (Arguments_not_found_in_hookspec "epsilon" "on_stop"
                      (mkFunction "on_stop" ["code"] [] false) ["code"]))
  /\ get_plugin (pm_after r) "epsilon" = Some epsilon
  /\ exists hc,
       Dict.get (hook (pm_after r)) "on_load" = Some hc
       /\ In (HookImpl__init__ epsilon "epsilon"
                (hookimpl_member empty_raw_opts fn_on_load)
                (normalize_hookimpl_opts empty_raw_opts))
             (_hookimpls hc).
Proof.
  cbv zeta.
  assert (out (register epsilon None demo_with_specs tt)
          = Raise (PluginValidationError epsilon
                     (Arguments_not_found_in_hookspec "epsilon" "on_stop"
                        (mkFunction "on_stop" ["code"] [] false) ["code"])))
    as Hraise by reflexivity.
  destruct (register_not_atomic demo_with_specs tt epsilon None Hraise)
    as (_ & _ & Hbound & _).
  split; [exact Hraise|]. split; [exact Hbound|].
  eexists. split; [reflexivity|]. now left.
Defined.

Lemma verification_points_witness :
  let pm := demo_with_specs in
  let r := register_member alpha "alpha" "on_load" pm tt in
  map (fun v => (name (fst v), HookImpl.plugin_name (snd v)))
      (verifications (journal (register epsilon None pm tt)))
  = [("on_load", "epsilon"); ("on_stop", "epsilon")]
  /\ map (fun v => (name (fst v), HookImpl.plugin_name (snd v)))
         (verifications
            (journal (add_hookspecs lifecycle_specs demo_with_alpha tt)))
     = [("on_load", "alpha")]
  /\ (exists hc,
      Dict.get (hook pm) "on_load" = Some hc
      /\ verifications (journal r)
         = [(hc, HookImpl__init__ alpha "alpha"
                   (hookimpl_member empty_raw_opts fn_on_load)
                   (normalize_hookimpl_opts empty_raw_opts))]
      /\ Dict.get (hook (pm_after r)) "on_load"
         = Some (_add_hookimpl hc
                   (HookImpl__init__ alpha "alpha"
                      (hookimpl_member empty_raw_opts fn_on_load)
                      (normalize_hookimpl_opts empty_raw_opts))))
  /\ journal (unregister None (Some "alpha") pm tt) = [].
Proof.
  cbv zeta.
  destruct (verification_points demo_with_specs tt)
    as (Hreg & Hregister & _ & _ & _ & _ & Hunreg & _).
  destruct (verification_points demo_with_alpha tt)
    as (_ & _ & _ & _ & Hadd & _).
  split; [rewrite (Hregister epsilon None); reflexivity|].
  split; [rewrite (Hadd lifecycle_specs); reflexivity|].
  split; [|apply Hunreg].
  specialize (Hreg alpha "alpha" "on_load"). cbv zeta in Hreg.
  destruct (Dict.get (hook demo_with_specs) "on_load") as [hc|] eqn:G;
    [|discriminate G].
  exists hc. split; [reflexivity|].
  change (parse_hookimpl_opts demo_with_specs alpha "on_load")
    with (Some empty_raw_opts) in Hreg.
  change (getattr_member alpha "on_load")
    with (Some (hookimpl_member empty_raw_opts fn_on_load)) in Hreg.
  cbv beta iota in Hreg.
  change (str_or (opt_specname (normalize_hookimpl_opts empty_raw_opts))
                 "on_load") with "on_load" in Hreg.
  rewrite G in Hreg.
  assert (has_spec hc = true) as Hs by (injection G as <-; reflexivity).
  rewrite Hs in Hreg. destruct Hreg as (Hv & _ & Hatt).
  split; [exact Hv|]. apply Hatt. reflexivity.
Defined.

(* ================================================================== *)
(** ** Further properties of the registry *)
(* ================================================================== *)

From Stdlib Require DecimalPos DecimalN.

Section DictMore.
Context {V : Type}.
Implicit Types (d : Dict.t V) (k : string) (v : V).

Lemma Dict_set_same d k v : Dict.get d k = Some v -> Dict.set d k v = d.
Proof.
  induction d as [|[k' v'] d IH]; simpl; [discriminate|].
  destruct (String.eqb k' k); intros H.
  - now injection H as ->.
  - now rewrite IH.
Qed.

Lemma Dict_get_set_keeps d k k' v v' :
  Dict.get d k = None -> Dict.get d k' = Some v' ->
  Dict.get (Dict.set d k v) k' = Some v'.
Proof.
  intros Hk Hk'. rewrite Dict_get_set_other; [exact Hk'|].
  intros ->. congruence.
Qed.
End DictMore.

Section RegistryMore.
Context {Env : Type} {warnings : Warnings Env}.
Implicit Types (pm : @PluginManager Env) (env : Env).

(** *** Names *)

Lemma string_of_uint_nonempty d : NilZero.string_of_uint d <> "".
Proof. destruct d; discriminate. Qed.

Lemma N_to_uint_nonnil n : N.to_uint n <> Decimal.Nil.
Proof.
  destruct n as [|p]; [discriminate|]. apply DecimalPos.Unsigned.to_uint_nonnil.
Qed.

Lemma str_id_inj (P Q : _Plugin) : str_id P = str_id Q -> id P = id Q.
Proof.
  unfold str_id. intros H.
  apply DecimalN.Unsigned.to_uint_inj.
  assert (G : Some (N.to_uint (id P)) = Some (N.to_uint (id Q))).
  { rewrite <- (@NilZero.usu _ (N_to_uint_nonnil (id P))).
    rewrite <- (@NilZero.usu _ (N_to_uint_nonnil (id Q))).
    now rewrite H. }
  now injection G.
Qed.

Lemma get_canonical_name_nonempty (P : _Plugin) : get_canonical_name P <> "".
Proof.
  unfold get_canonical_name.
  destruct (__name__ P) as [n|]; [|apply string_of_uint_nonempty].
  destruct (String.eqb n "") eqn:E; [apply string_of_uint_nonempty|].
  now apply String.eqb_neq.
Qed.

Lemma str_or_nonempty name c : c <> "" -> str_or name c <> "".
Proof.
  intros Hc. destruct name as [s|]; simpl; [|exact Hc].
  destruct (String.eqb s "") eqn:E; [exact Hc|]. now apply String.eqb_neq.
Qed.

(** X1. The name under which [register] binds a plugin is never the empty
    string: the canonical name of a plugin is not empty, an empty [name]
    argument gives way to it, and whatever [register] does, it leaves the
    entry of the empty name as it found it. *)
Theorem register_never_binds_the_empty_name (P : _Plugin)
    (name : option string) pm env :
  get_canonical_name P <> ""
  /\ str_or name (get_canonical_name P) <> ""
  /\ Dict.get (_name2plugin (pm_after (register P name pm env))) ""
     = Dict.get (_name2plugin pm) "".
Proof.
  split; [apply get_canonical_name_nonempty|].
  split; [apply str_or_nonempty, get_canonical_name_nonempty|].
  destruct (register_name2plugin pm env P name) as [-> | [_ ->]];
    [reflexivity|].
  apply Dict_get_set_other, str_or_nonempty, get_canonical_name_nonempty.
Qed.

(** X2. Two plugins without a [__name__] have the same canonical name
    exactly when they are the same object: [str(id(plugin))] tells
    objects apart. *)
Theorem canonical_names_of_anonymous_plugins (P Q : _Plugin) :
  __name__ P = None -> __name__ Q = None ->
  (get_canonical_name P = get_canonical_name Q <-> plugin_is P Q = true).
Proof.
  intros HP HQ. unfold get_canonical_name, plugin_is. rewrite HP, HQ.
  rewrite N.eqb_eq. split; [apply str_id_inj|].
  unfold str_id. now intros ->.
Qed.

(** *** [register] *)

Lemma scan_name2plugin (P : _Plugin) plugin_name names pm env :
  _name2plugin (pm_after (for_each names (register_member P plugin_name)
                            pm env))
  = _name2plugin pm.
Proof.
  apply (touches_for_each names (register_member P plugin_name)
           (touches_register_member P plugin_name) pm env).
Qed.






(** *** [set_blocked] *)

(** X6. Blocking a name twice is blocking it once: the second
    [set_blocked] returns and leaves the manager as the first left it. *)
Theorem set_blocked_idempotent pm env env' n :
  let pm1 := pm_after (set_blocked n pm env) in
  set_blocked n pm1 env' = mkRun (Return tt) pm1 env' [].
Proof.
  intros pm1. rewrite (set_blocked_run pm1 env' n).
  assert (Hget : Dict.get (_name2plugin pm1) n = Some None).
  { subst pm1. rewrite set_blocked_run. cbn [pm_after _name2plugin
      with_name2plugin]. apply Dict_get_set_same. }
  assert (Hp : get_plugin pm1 n = None)
    by (unfold get_plugin; now rewrite Hget).
  rewrite Hp, (unregistered_None pm1 n Hp).
  rewrite (Dict_set_same _ _ Hget). now rewrite with_name2plugin_same.
Qed.

(** *** [get_hookcallers] *)

(** X7. [get_hookcallers] answers [None] exactly for a plugin that is not
    registered; otherwise it lists the callers that hold an
    implementation of the plugin, each as many times as it holds one. *)
Theorem get_hookcallers_lists_implementations pm (P : _Plugin) :
  (get_hookcallers pm (Some P) = None <-> is_registered pm P = false)
  /\ forall refs,
       get_hookcallers pm (Some P) = Some refs ->
       (forall k,
           In k refs
           <-> exists hc h,
                 In (k, hc) (Dict.items (hook pm))
                 /\ In h (get_hookimpls hc)
                 /\ plugin_is P (HookImpl.plugin h) = true)
       /\ length refs
          = list_sum
              (map (fun item =>
                      length (filter (fun h => plugin_is P (HookImpl.plugin h))
                                     (get_hookimpls (snd item))))
                   (Dict.items (hook pm))).
Proof.
  split.
  - rewrite <- get_name_None_iff. unfold get_hookcallers.
    destruct (get_name pm (Some P)); split; congruence.
  - intros refs. unfold get_hookcallers.
    destruct (get_name pm (Some P)); [|discriminate].
    intros Heq. injection Heq as <-. split.
    + intros k. rewrite in_flat_map. split.
      * intros ([k' hc] & Hin & Hk). apply in_map_iff in Hk.
        destruct Hk as (h & <- & Hh). apply filter_In in Hh.
        exists hc, h. cbn [fst snd] in *. tauto.
      * intros (hc & h & Hin & Hh & Hp). exists (k, hc).
        split; [exact Hin|]. apply in_map_iff. exists h.
        split; [reflexivity|]. apply filter_In. now split.
    + rewrite length_flat_map. f_equal. apply map_ext.
      intros item. now rewrite length_map.
Qed.

(** *** [get_plugins] *)







(** *** [add_hookspecs] *)

Lemma out_bind {A B} (c : @M Env A) (k : A -> M B) pm env :
  out (bind c k pm env)
  = match out (c pm env) with
    | Return a => out (k a (pm_after (c pm env)) (env_after (c pm env)))
    | Raise e => Raise e
    end.
Proof. unfold bind. cbv zeta. now destruct (out (c pm env)). Qed.

Lemma marked_same pm pm' ns n :
  project_name pm' = project_name pm -> marked pm' ns n = marked pm ns n.
Proof. unfold marked, parse_hookspec_opts. now intros ->. Qed.

Lemma add_hookspecs_member_names ns n pm env appended :
  out (add_hookspecs_member ns n pm env) = Return appended ->
  appended = if marked pm ns n then [n] else [].
Proof.
  unfold add_hookspecs_member, marked. rewrite bind_self.
  destruct (parse_hookspec_opts pm ns n) as [[opts|]|e]; cbn [lift].
  - rewrite bind_ret. cbv beta iota. rewrite out_bind.
    destruct (out _); [|discriminate]. cbn. now intros [= <-].
  - rewrite bind_ret. cbn. now intros [= <-].
  - discriminate.
Qed.

Lemma add_hookspecs_loop_names ns todo : forall names pm env res,
  out (add_hookspecs_loop ns todo names pm env) = Return res ->
  res = names ++ filter (marked pm ns) todo.
Proof.
  induction todo as [|n todo IH]; intros names pm env res.
  - cbn. intros [= <-]. now rewrite app_nil_r.
  - cbn [add_hookspecs_loop filter]. rewrite out_bind.
    destruct (out (add_hookspecs_member ns n pm env)) as [appended|e] eqn:E;
      [|discriminate].
    intros H. apply IH in H. subst res.
    rewrite (add_hookspecs_member_names _ _ _ _ E).
    assert (Hp : project_name (pm_after (add_hookspecs_member ns n pm env))
                 = project_name pm)
      by apply (touches_add_hookspecs_member ns n pm env).
    rewrite (filter_ext _ _ (fun m => @marked_same _ _ ns m Hp)).
    destruct (marked pm ns n); [|now rewrite app_nil_r].
    now rewrite <- app_assoc.
Qed.

Lemma add_hookspecs_loop_unmarked ns todo : forall names pm env,
  (forall n, In n todo -> parse_hookspec_opts pm ns n = Return None) ->
  add_hookspecs_loop ns todo names pm env = mkRun (Return names) pm env [].
Proof.
  induction todo as [|n todo IH]; intros names pm env H; [reflexivity|].
  cbn [add_hookspecs_loop].
  assert (Hm : add_hookspecs_member ns n pm env = mkRun (Return []) pm env []).
  { unfold add_hookspecs_member. rewrite bind_self.
    rewrite (H n (or_introl eq_refl)). cbn [lift]. now rewrite bind_ret. }
  erewrite bind_Return by exact Hm. cbv zeta. rewrite app_nil_r.
  rewrite IH by (intros m Hn; apply H; now right). reflexivity.
Qed.

(** X9. [add_hookspecs] on a namespace none of whose members carries the
    specification marker raises the [ValueError] "did not find any hooks"
    and changes nothing; and whenever [add_hookspecs] returns, some member
    of the namespace carries the marker. *)
Theorem add_hookspecs_needs_a_marker pm env (ns : _Namespace) :
  ((forall n, In n (Dict.keys (dir ns)) ->
              parse_hookspec_opts pm ns n = Return None) ->
   add_hookspecs ns pm env
   = mkRun (Raise (ValueError (did_not_find_any_hooks (project_name pm) ns)))
           pm env [])
  /\ (out (add_hookspecs ns pm env) = Return tt ->
      exists n opts,
        In n (Dict.keys (dir ns))
        /\ parse_hookspec_opts pm ns n = Return (Some opts)).
Proof.
  split.
  - intros H. unfold add_hookspecs.
    erewrite bind_Return by (apply add_hookspecs_loop_unmarked; exact H).
    cbv beta iota zeta. now rewrite bind_self.
  - unfold add_hookspecs. rewrite out_bind.
    destruct (out (add_hookspecs_loop ns (Dict.keys (dir ns)) [] pm env))
      as [names|e] eqn:E; [|discriminate].
    apply add_hookspecs_loop_names in E. cbn [app] in E.
    destruct names as [|n names].
    + rewrite bind_self. discriminate.
    + intros _.
      assert (Hin : In n (filter (marked pm ns) (Dict.keys (dir ns))))
        by (rewrite <- E; now left).
      apply filter_In in Hin. destruct Hin as [Hin Hm]. unfold marked in Hm.
      destruct (parse_hookspec_opts pm ns n) as [[opts|]|] eqn:P;
        try discriminate.
      now exists n, opts.
Qed.

(** *** Names and plugins correspond one to one *)

Lemma one_to_one_same pm pm' :
  _name2plugin pm' = _name2plugin pm -> one_to_one pm -> one_to_one pm'.
Proof. unfold one_to_one, one_name_per_plugin. now intros ->. Qed.

Lemma one_to_one_del pm n :
  one_to_one pm ->
  one_to_one (with_name2plugin pm (Dict.del (_name2plugin pm) n)).
Proof.
  intros [Hwf H1]. split; cbn [_name2plugin with_name2plugin].
  - now apply Dict_wf_del.
  - intros a b p q Ha Hb. apply Dict_In_del in Ha, Hb. now apply H1.
Qed.


Lemma one_to_one_bind pm n (P : _Plugin) :
  one_to_one pm -> is_registered pm P = false ->
  one_to_one (with_name2plugin pm (Dict.set (_name2plugin pm) n (Some P))).
Proof.
  intros [Hwf H1] Hnew. split; cbn [_name2plugin with_name2plugin].
  - now apply Dict_wf_set.
  - assert (Hfresh : forall m q, In (m, Some q) (_name2plugin pm) ->
                                 plugin_is P q = true -> False).
    { intros m q Hin Hq.
      assert (is_registered pm P = true)
        by (apply is_registered_In; eauto).
      congruence. }
    intros a b p q Ha Hb Hpq.
    apply Dict_In_set in Ha, Hb.
    destruct Ha as [Ha|Ha], Hb as [Hb|Hb].
    + congruence.
    + injection Ha as -> ->. destruct (Hfresh b q Hb Hpq).
    + injection Hb as -> ->. rewrite plugin_is_sym in Hpq.
      destruct (Hfresh a p Ha Hpq).
    + now apply (H1 a b p q).
Qed.

Lemma one_to_one_unregistered pm plugin n :
  one_to_one pm -> one_to_one (unregistered pm plugin n).
Proof.
  intros H. unfold unregistered. cbv zeta.
  destruct (truthy_plugin (get_plugin pm n)).
  - now apply one_to_one_del.
  - exact H.
Qed.

Lemma register_frame pm env (P : _Plugin) (name : option string) :
  let pm' := pm_after (register P name pm env) in
  project_name pm' = project_name pm
  /\ _plugin_distinfo pm' = _plugin_distinfo pm
  /\ _inner_hookexec pm' = _inner_hookexec pm.
Proof.
  cbv zeta.
  destruct (register_cases pm env P name)
    as [(o & Hrun & _) | (_ & _ & Hrun)]; rewrite Hrun.
  - cbn [pm_after]. repeat split.
  - cbv zeta. cbn [pm_after].
    destruct (touches_for_each (Dict.keys (dir P))
                (register_member P (str_or name (get_canonical_name P)))
                (touches_register_member P _)
                (with_name2plugin pm
                   (Dict.set (_name2plugin pm)
                      (str_or name (get_canonical_name P)) (Some P))) env)
      as (Hp & _ & Hi & He).
    rewrite Hp, Hi, He. repeat split.
Qed.

Lemma one_to_one_register pm env (P : _Plugin) (name : option string) :
  one_to_one pm -> one_to_one (pm_after (register P name pm env)).
Proof.
  intros H.
  destruct (register_cases pm env P name)
    as [(o & Hrun & _) | (_ & Hnew & Hrun)]; rewrite Hrun.
  - exact H.
  - cbv zeta. cbn [pm_after].
    eapply one_to_one_same; [apply scan_name2plugin|].
    now apply one_to_one_bind.
Qed.

Lemma unregister_cases plugin name pm env :
  pm_after (unregister plugin name pm env) = pm
  \/ exists plugin' n,
       pm_after (unregister plugin name pm env) = unregistered pm plugin' n.
Proof.
  destruct name as [n|].
  - right. rewrite unregister_by_name_run. cbv zeta. cbn [pm_after]. eauto.
  - destruct plugin as [p|].
    + rewrite unregister_by_plugin_run.
      destruct (get_name pm (Some p)); cbn [pm_after]; eauto.
    + left. unfold unregister. now rewrite bind_self.
Qed.



Lemma one_to_one_init (mc : @Engine Env) project :
  one_to_one (__init__ mc project).
Proof.
  split.
  - constructor.
  - intros n m p q [].
Qed.

Lemma get_plugin_binding pm n (P : _Plugin) :
  get_plugin pm n = Some P -> Dict.get (_name2plugin pm) n = Some (Some P).
Proof.
  unfold get_plugin.
  destruct (Dict.get (_name2plugin pm) n) as [[q|]|]; congruence.
Qed.

Lemma get_name_of_get_plugin pm n (P : _Plugin) :
  one_to_one pm -> get_plugin pm n = Some P -> get_name pm (Some P) = Some n.
Proof.
  intros [_ H1] G. apply get_plugin_binding, Dict_get_In in G.
  unfold get_name, Dict.items.
  destruct (find _ (_name2plugin pm)) as [[m v]|] eqn:F.
  - apply find_some in F. destruct F as [Hin Hv]. cbn [snd] in Hv.
    destruct v as [q|]; [|discriminate]. cbn in Hv.
    f_equal. symmetry. exact (H1 n m P q G Hin Hv).
  - apply (find_none _ _ F) in G. cbn in G.
    now rewrite plugin_is_refl in G.
Qed.

Lemma get_plugin_of_get_name pm n (P : _Plugin) :
  Dict.wf (_name2plugin pm) -> get_name pm (Some P) = Some n ->
  exists Q, get_plugin pm n = Some Q /\ plugin_is P Q = true.
Proof.
  intros Hwf G. apply get_name_binding in G. destruct G as (q & Hin & Hq).
  exists q. split; [|exact Hq]. unfold get_plugin.
  now rewrite (@Dict_wf_In_get _ _ _ _ Hwf Hin).
Qed.


(** *** [unregister] *)

(** X11. When names and plugins correspond one to one, unregistering by
    name and unregistering by plugin are the same operation:
    [unregister(name=n)] and [unregister(plugin=P)] run alike when [n] is
    bound to [P]. *)
Theorem unregister_by_name_or_by_plugin pm env n (P : _Plugin) :
  one_to_one pm -> get_plugin pm n = Some P ->
  unregister None (Some n) pm env = unregister (Some P) None pm env.
Proof.
  intros H G.
  rewrite unregister_by_name_run, unregister_by_plugin_run. cbv zeta.
  now rewrite G, (@get_name_of_get_plugin pm n P H G).
Qed.

(** X12. When names and plugins correspond one to one, [unregister] of
    a registered plugin returns it and runs no plugin code, and every
    caller loses exactly the implementations of the plugin.  When the
    object bound to the name is true, the plugin is then not registered,
    its name is free, [get_hookcallers] answers [None] for it and every
    other name is bound as before.  When that object is false (its class
    defines [__bool__] or [__len__] so), the binding stays: the plugin is
    still registered, without implementations. *)
Theorem unregister_unbinds pm env n (P : _Plugin) :
  one_to_one pm -> get_name pm (Some P) = Some n ->
  let r := unregister (Some P) None pm env in
  let pm' := pm_after r in
  out r = Return (Some P) /\ env_after r = env /\ journal r = []
  /\ (forall k,
        Dict.get (hook pm') k
        = option_map (fun hc => _remove_plugin hc (Some P))
                     (Dict.get (hook pm) k))
  /\ (forall k hc h,
        Dict.get (hook pm') k = Some hc -> In h (get_hookimpls hc) ->
        plugin_is P (HookImpl.plugin h) = false)
  /\ one_to_one pm'
  /\ (truthy_plugin (get_plugin pm n) = true ->
      is_registered pm' P = false
      /\ Dict.get (_name2plugin pm') n = None
      /\ get_name pm' (Some P) = None
      /\ get_hookcallers pm' (Some P) = None
      /\ (forall m, m <> n ->
            Dict.get (_name2plugin pm') m = Dict.get (_name2plugin pm) m))
  /\ (truthy_plugin (get_plugin pm n) = false ->
      list_name_plugin pm' = list_name_plugin pm
      /\ is_registered pm' P = true
      /\ get_name pm' (Some P) = Some n).
Proof.
  intros H N r pm'. subst r pm'. rewrite unregister_by_plugin_run, N.
  cbn [out pm_after env_after journal].
  destruct (@get_plugin_of_get_name pm n P (proj1 H) N) as (Q & GQ & HPQ).
  pose proof (@get_plugin_binding pm n Q GQ) as GQ'.
  assert (Hd : _name2plugin (unregistered pm (Some P) n)
               = if truthy_plugin (get_plugin pm n)
                 then Dict.del (_name2plugin pm) n else _name2plugin pm)
    by reflexivity.
  pose proof (@one_to_one_unregistered pm (Some P) n H) as H'.
  assert (Hhook : forall k,
             Dict.get (hook (unregistered pm (Some P) n)) k
             = option_map (fun hc => _remove_plugin hc (Some P))
                          (Dict.get (hook pm) k)).
  { intros k. apply unregistered_hook. congruence. }
  split; [reflexivity|]. split; [reflexivity|]. split; [reflexivity|].
  split; [exact Hhook|]. split; [|split; [exact H'|split]].
  - intros k hc h G Hin. rewrite Hhook in G.
    destruct (Dict.get (hook pm) k) as [hc0|]; [|discriminate].
    cbn in G. injection G as <-.
    eapply _remove_plugin_clean; exact Hin.
  - intros T. rewrite T in Hd.
    assert (Hfree : Dict.get (_name2plugin (unregistered pm (Some P) n)) n
                    = None)
      by (rewrite Hd; apply Dict_get_del_same, H).
    assert (Hgone : is_registered (unregistered pm (Some P) n) P = false).
    { destruct (is_registered _ P) eqn:R; [|reflexivity].
      apply is_registered_In in R. destruct R as (m & q & Hin & Hq).
      pose proof Hin as Hin'. rewrite Hd in Hin'. apply Dict_In_del in Hin'.
      assert (m = n).
      { apply (proj2 H m n q Q Hin'); [eapply Dict_get_In; exact GQ'|].
        eapply plugin_is_trans; [|exact HPQ]. now rewrite plugin_is_sym. }
      subst m. eapply Dict_wf_In_get in Hin; [|exact (proj1 H')].
      congruence. }
    assert (Hname : get_name (unregistered pm (Some P) n) (Some P) = None)
      by now apply get_name_None_iff.
    split; [exact Hgone|]. split; [exact Hfree|]. split; [exact Hname|].
    split.
    + unfold get_hookcallers. now rewrite Hname.
    + intros m Hm. rewrite Hd. apply Dict_get_del_other. congruence.
  - intros T. rewrite T in Hd.
    split; [exact Hd|]. split.
    + rewrite (same_but_hooks_is_registered _ _ P Hd).
      apply is_registered_In. exists n, Q.
      split; [eapply Dict_get_In; exact GQ'|exact HPQ].
    + unfold get_name in *. now rewrite Hd.
Qed.

(** *** [list_plugin_distinfo], [load_setuptools_entrypoints] *)

Lemma slots_perform c pm env :
  _plugin_distinfo (fst (perform c pm env)) = _plugin_distinfo pm
  /\ project_name (fst (perform c pm env)) = project_name pm.
Proof.
  destruct c as [plugin name|plugin name|m|ns| |before after|h rm
                 |proxy kwargs|h cb kwargs|oldcall];
    unfold perform; cbv beta zeta; cbn [fst].
  - split; apply register_frame.
  - destruct (unregister_cases plugin name pm env) as [-> | (p' & n & ->)];
      split; reflexivity.
  - rewrite set_blocked_run. split; reflexivity.
  - split; apply (touches_add_hookspecs ns pm env).
  - destruct (observes_check_pending pm env) as (E & _). now rewrite E.
  - unfold add_hookcall_monitoring. rewrite bind_self, bind_store.
    split; reflexivity.
  - destruct (observes_subset_hook_caller h rm pm env) as (E & _).
    now rewrite E.
  - now rewrite <- (stable_proxy_call proxy kwargs pm env).
  - split; apply (keeps_call_historic h cb kwargs pm env).
  - unfold undo. now rewrite bind_self.
Qed.

(** X13. No call of the interface other than
    [load_setuptools_entrypoints] changes what [list_plugin_distinfo]
    returns; in particular [unregister] and [set_blocked] leave the pair
    of the plugin they remove in the list.  No call changes
    [project_name]. *)
Theorem list_plugin_distinfo_is_kept cs : forall pm env,
  list_plugin_distinfo (fst (perform_all cs pm env))
  = list_plugin_distinfo pm
  /\ project_name (fst (perform_all cs pm env)) = project_name pm.
Proof.
  unfold list_plugin_distinfo.
  induction cs as [|c cs IH]; intros pm env; [split; reflexivity|].
  cbn [perform_all].
  pose proof (slots_perform c pm env) as [Hd Hp].
  destruct (perform c pm env) as [pm' env']. cbn [fst] in Hd, Hp.
  destruct (IH pm' env') as [-> ->]. now split.
Qed.

Lemma load_entry_point_run group name dist ep pm env :
  load_entry_point group name dist ep pm env
  = if skips pm group name ep then mkRun (Return 0) pm env []
    else
      match ep_load ep env with
      | (Raise e, env1) => mkRun (Raise e) pm env1 []
      | (Return plugin, env1) =>
          let r := register plugin (Some (ep_name ep)) pm env1 in
          match out r with
          | Raise e => mkRun (Raise e) (pm_after r) (env_after r) (journal r)
          | Return _ =>
              mkRun (Return 1)
                    (with_plugin_distinfo (pm_after r)
                       (_plugin_distinfo (pm_after r)
                        ++ [(plugin, DistFacade__init__ dist)]))
                    (env_after r) (journal r)
          end
      end.
Proof.
  unfold load_entry_point. rewrite bind_self.
  destruct (skips pm group name ep); [reflexivity|].
  assert (Hcall : call (ep_load ep) pm env
                  = mkRun (fst (ep_load ep env)) pm (snd (ep_load ep env)) [])
    by (unfold call; now destruct (ep_load ep env)).
  destruct (ep_load ep env) as [[plugin|e] env1]; cbn [fst snd] in Hcall.
  - erewrite bind_Return by exact Hcall. cbv zeta. cbn [app].
    rewrite Run_eta.
    destruct (register plugin (Some (ep_name ep)) pm env1)
      as [[x|e] pm2 env2 j] eqn:R; cbn [out pm_after env_after journal].
    + erewrite bind_Return by exact R. cbv zeta.
      rewrite bind_self, bind_store. cbn. now rewrite app_nil_r.
    + erewrite bind_Raise by exact R. reflexivity.
  - erewrite bind_Raise by exact Hcall. reflexivity.
Qed.

Lemma pm_after_bind {A B} (c : @M Env A) (k : A -> M B) pm env :
  pm_after (bind c k pm env)
  = match out (c pm env) with
    | Return a => pm_after (k a (pm_after (c pm env)) (env_after (c pm env)))
    | Raise e => pm_after (c pm env)
    end.
Proof. unfold bind. cbv zeta. now destruct (out (c pm env)). Qed.

Lemma skips_false pm group name ep :
  skips pm group name ep = false ->
  ep_group ep = group
  /\ (forall n, name = Some n -> ep_name ep = n)
  /\ (Dict.get (_name2plugin pm) (ep_name ep) = None
      \/ exists q, Dict.get (_name2plugin pm) (ep_name ep) = Some (Some q)
                   /\ __bool__ q = false).
Proof.
  unfold skips. rewrite !orb_false_iff.
  intros [[[Hg Hn] Hp] Hb].
  apply negb_false_iff, String.eqb_eq in Hg.
  split; [exact Hg|]. split.
  - intros n ->. now apply negb_false_iff, String.eqb_eq in Hn.
  - unfold get_plugin, is_blocked in *.
    destruct (Dict.get (_name2plugin pm) (ep_name ep)) as [[q|]|];
      [right; exists q; now split|discriminate|now left].
Qed.

Lemma load_entry_point_distinfo group name dist ep pm env :
  let r := load_entry_point group name dist ep pm env in
  exists added,
    _plugin_distinfo (pm_after r) = _plugin_distinfo pm ++ added
    /\ (forall count, out r = Return count -> count = length added)
    /\ (forall entry, In entry added -> loaded_by group name dist ep entry).
Proof.
  cbv zeta. rewrite load_entry_point_run.
  assert (Hnil :
    forall (o : outcome nat) pm' env' j,
      _plugin_distinfo pm' = _plugin_distinfo pm ->
      (forall count, o = Return count -> count = 0) ->
      exists added,
        _plugin_distinfo (pm_after (mkRun o pm' env' j))
        = _plugin_distinfo pm ++ added
        /\ (forall count, out (mkRun o pm' env' j) = Return count ->
                          count = length added)
        /\ (forall entry, In entry added ->
                          loaded_by group name dist ep entry)).
  { intros o pm' env' j Hd Ho. exists []. cbn [pm_after out length In].
    rewrite app_nil_r. split; [exact Hd|]. split; [exact Ho|intros entry []]. }
  destruct (skips pm group name ep) eqn:S.
  - apply Hnil; [reflexivity|]. now intros count [= <-].
  - destruct (ep_load ep env) as [[plugin|e] env1] eqn:L.
    + cbv zeta.
      pose proof (register_frame pm env1 plugin (Some (ep_name ep)))
        as (_ & Hd & _).
      destruct (out (register plugin (Some (ep_name ep)) pm env1)).
      * exists [(plugin, DistFacade__init__ dist)].
        cbn [pm_after out length In _plugin_distinfo with_plugin_distinfo].
        rewrite Hd. split; [reflexivity|]. split; [now intros count [= <-]|].
        intros entry [<-|[]]. destruct (skips_false _ _ _ _ S) as (Hg & Hn & _).
        repeat split; auto. exists env. now rewrite L.
      * apply Hnil; [exact Hd|discriminate].
    + apply Hnil; [reflexivity|discriminate].
Qed.

Lemma load_entry_points_distinfo group name dist eps :
  forall count pm env,
    let r := load_entry_points group name dist eps count pm env in
    exists added,
      _plugin_distinfo (pm_after r) = _plugin_distinfo pm ++ added
      /\ (forall count', out r = Return count' ->
                         count' = count + length added)
      /\ (forall entry, In entry added ->
            exists ep, In ep eps /\ loaded_by group name dist ep entry).
Proof.
  induction eps as [|ep eps IH]; intros count pm env; cbv zeta.
  - exists []. cbn. rewrite app_nil_r. split; [reflexivity|].
    split; [intros count' [= <-]; lia|intros entry []].
  - cbn [load_entry_points]. rewrite out_bind, pm_after_bind.
    destruct (load_entry_point_distinfo group name dist ep pm env)
      as (added1 & Hd1 & Hc1 & Hl1).
    destruct (out (load_entry_point group name dist ep pm env))
      as [loaded|e] eqn:O.
    + destruct (IH (count + loaded)
                   (pm_after (load_entry_point group name dist ep pm env))
                   (env_after (load_entry_point group name dist ep pm env)))
        as (added2 & Hd2 & Hc2 & Hl2).
      exists (added1 ++ added2). split; [|split].
      * rewrite Hd2, Hd1. now rewrite app_assoc.
      * intros count' Hout. rewrite (Hc2 count' Hout), (Hc1 loaded eq_refl).
        rewrite length_app. lia.
      * intros entry Hin. apply in_app_or in Hin. destruct Hin as [Hin|Hin].
        -- exists ep. split; [now left|auto].
        -- destruct (Hl2 entry Hin) as (ep' & Hin' & Hl).
           exists ep'. split; [now right|exact Hl].
    + exists added1. split; [exact Hd1|]. split; [discriminate|].
      intros entry Hin. exists ep. split; [now left|auto].
Qed.

Lemma load_distributions_distinfo group name dists :
  forall count pm env,
    let r := load_distributions group name dists count pm env in
    exists added,
      _plugin_distinfo (pm_after r) = _plugin_distinfo pm ++ added
      /\ (forall count', out r = Return count' ->
                         count' = count + length added)
      /\ (forall entry, In entry added ->
            exists dist ep,
              In (dist, ep) (all_entry_points dists)
              /\ loaded_by group name dist ep entry).
Proof.
  induction dists as [|dist dists IH]; intros count pm env; cbv zeta.
  - exists []. cbn. rewrite app_nil_r. split; [reflexivity|].
    split; [intros count' [= <-]; lia|intros entry []].
  - cbn [load_distributions]. rewrite out_bind, pm_after_bind.
    destruct (load_entry_points_distinfo group name dist (entry_points dist)
                count pm env) as (added1 & Hd1 & Hc1 & Hl1).
    assert (Hl1' : forall entry, In entry added1 ->
              exists dist0 ep,
                In (dist0, ep) (all_entry_points (dist :: dists))
                /\ loaded_by group name dist0 ep entry).
    { intros entry Hin. destruct (Hl1 entry Hin) as (ep & Hep & Hl).
      exists dist, ep. split; [|exact Hl].
      unfold all_entry_points. cbn [flat_map]. apply in_or_app. left.
      now apply in_map. }
    destruct (out (load_entry_points group name dist (entry_points dist)
                     count pm env)) as [count1|e] eqn:O.
    + destruct (IH count1
                   (pm_after (load_entry_points group name dist
                                (entry_points dist) count pm env))
                   (env_after (load_entry_points group name dist
                                 (entry_points dist) count pm env)))
        as (added2 & Hd2 & Hc2 & Hl2).
      exists (added1 ++ added2). split; [|split].
      * rewrite Hd2, Hd1. now rewrite app_assoc.
      * intros count' Hout. rewrite (Hc2 count' Hout), (Hc1 count1 eq_refl).
        rewrite length_app. lia.
      * intros entry Hin. apply in_app_or in Hin. destruct Hin as [Hin|Hin].
        -- auto.
        -- destruct (Hl2 entry Hin) as (dist' & ep' & Hin' & Hl).
           exists dist', ep'. split; [|exact Hl].
           unfold all_entry_points. cbn [flat_map]. apply in_or_app.
           now right.
    + exists added1. split; [exact Hd1|]. split; [discriminate|exact Hl1'].
Qed.

(** X14. [load_setuptools_entrypoints] appends to [list_plugin_distinfo]
    and removes nothing from it, whether it returns or raises; the number
    it returns is the number of pairs it appended; and each appended pair
    holds a plugin that the [load] of an entry point of the requested
    group (and name, when one is given) returned, with the facade of the
    distribution of that entry point. *)
Theorem load_setuptools_entrypoints_counts dists group name pm env :
  let r := load_setuptools_entrypoints dists group name pm env in
  exists added,
    list_plugin_distinfo (pm_after r) = list_plugin_distinfo pm ++ added
    /\ (forall count, out r = Return count -> count = length added)
    /\ (forall entry, In entry added ->
          exists dist ep,
            In (dist, ep) (all_entry_points dists)
            /\ loaded_by group name dist ep entry).
Proof.
  apply (load_distributions_distinfo group name dists 0 pm env).
Qed.

Lemma load_entry_points_skip group name dist eps : forall count pm env,
  (forall ep, In ep eps -> skips pm group name ep = true) ->
  load_entry_points group name dist eps count pm env
  = mkRun (Return count) pm env [].
Proof.
  induction eps as [|ep eps IH]; intros count pm env H; [reflexivity|].
  cbn [load_entry_points].
  erewrite bind_Return
    by (rewrite load_entry_point_run, (H ep (or_introl eq_refl)); reflexivity).
  cbv zeta. rewrite IH by (intros ep' Hin; apply H; now right).
  cbn. now rewrite Nat.add_0_r.
Qed.

Lemma load_distributions_skip group name dists : forall count pm env,
  (forall dist ep, In (dist, ep) (all_entry_points dists) ->
                   skips pm group name ep = true) ->
  load_distributions group name dists count pm env
  = mkRun (Return count) pm env [].
Proof.
  induction dists as [|dist dists IH]; intros count pm env H; [reflexivity|].
  cbn [load_distributions].
  erewrite bind_Return.
  2:{ apply load_entry_points_skip. intros ep Hin. apply (H dist).
      unfold all_entry_points. cbn [flat_map]. apply in_or_app. left.
      now apply in_map. }
  cbv zeta. rewrite IH; [reflexivity|].
  intros dist' ep Hin. apply (H dist').
  unfold all_entry_points. cbn [flat_map]. apply in_or_app. now right.
Qed.

(** X15. When every entry point is of another group, or has another name
    than the one asked for, or has a name that is blocked or bound to a
    plugin whose truth value is true, [load_setuptools_entrypoints]
    returns 0 and does nothing: no entry point is loaded, so no code of a
    plugin package runs, and the manager is unchanged. *)
Theorem load_setuptools_entrypoints_loads_nothing dists group name pm env :
  (forall dist ep,
      In (dist, ep) (all_entry_points dists) ->
      ep_group ep <> group
      \/ (exists n, name = Some n /\ ep_name ep <> n)
      \/ truthy_plugin (get_plugin pm (ep_name ep)) = true
      \/ is_blocked pm (ep_name ep) = true) ->
  load_setuptools_entrypoints dists group name pm env
  = mkRun (Return 0) pm env [].
Proof.
  intros H. apply load_distributions_skip.
  intros dist ep Hin. unfold skips.
  destruct (H dist ep Hin) as [Hg | [(n & -> & Hn) | [Hp | Hb]]].
  - apply String.eqb_neq in Hg. now rewrite Hg.
  - apply String.eqb_neq in Hn. rewrite Hn. cbn. now rewrite orb_true_r.
  - rewrite Hp. now rewrite !orb_true_r.
  - rewrite Hb. now rewrite !orb_true_r.
Qed.

Lemma keeps_bindings_refl pm : keeps_bindings pm pm.
Proof. intros m v G. exact G. Qed.

Lemma keeps_bindings_trans pm1 pm2 pm3 :
  keeps_bindings pm1 pm2 -> keeps_bindings pm2 pm3 -> keeps_bindings pm1 pm3.
Proof. intros H1 H2 m v G. auto. Qed.

Lemma register_keeps_bindings pm env (P : _Plugin) (name : option string) :
  keeps_bindings pm (pm_after (register P name pm env)).
Proof.
  intros m v G.
  destruct (register_name2plugin pm env P name) as [-> | [Hfree ->]];
    [exact G|].
  eapply Dict_get_set_keeps; eassumption.
Qed.

Lemma skips_mono pm pm' group name ep :
  keeps_bindings pm pm' ->
  skips pm group name ep = true -> skips pm' group name ep = true.
Proof.
  intros K. unfold skips. rewrite !orb_true_iff.
  intros [[[Hg|Hn]|Hp]|Hb]; auto.
  - left. right. unfold get_plugin in *.
    destruct (Dict.get (_name2plugin pm) (ep_name ep)) as [[q|]|] eqn:G;
      try discriminate.
    now rewrite (K _ _ G).
  - right. unfold is_blocked in *.
    destruct (Dict.get (_name2plugin pm) (ep_name ep)) as [[q|]|] eqn:G;
      try discriminate.
    now rewrite (K _ _ G).
Qed.

Lemma register_fresh_name_run pm env (P : _Plugin) n :
  n <> "" -> Dict.get (_name2plugin pm) n = None ->
  forall x,
    out (register P (Some n) pm env) = Return x ->
    Dict.get (_name2plugin (pm_after (register P (Some n) pm env))) n
    = Some (Some P).
Proof.
  intros Hn Hfree x.
  assert (Hname : str_or (Some n) (get_canonical_name P) = n).
  { cbn. apply String.eqb_neq in Hn. now rewrite Hn. }
  destruct (is_registered pm P) eqn:R.
  - unfold register. rewrite bind_self, Hname.
    rewrite (proj2 (Dict_contains_get _ _) Hfree), R. discriminate.
  - pose proof (register_scan_run pm env P (Some n)) as Hrun.
    cbv zeta in Hrun. rewrite Hname in Hrun.
    rewrite (Hrun Hfree R). cbn [out pm_after]. intros _.
    rewrite scan_name2plugin. apply Dict_get_set_same.
Qed.

Lemma register_bound_name_raises pm env (P q : _Plugin) n :
  n <> "" -> Dict.get (_name2plugin pm) n = Some (Some q) ->
  out (register P (Some n) pm env)
  = Raise (ValueError (Plugin_name_already_registered n P)).
Proof.
  intros Hn G.
  assert (Hname : str_or (Some n) (get_canonical_name P) = n).
  { cbn. apply String.eqb_neq in Hn. now rewrite Hn. }
  unfold register. rewrite bind_self, Hname.
  unfold Dict.contains. now rewrite G.
Qed.

Lemma load_entry_point_settles group name dist ep pm env :
  let r := load_entry_point group name dist ep pm env in
  keeps_bindings pm (pm_after r)
  /\ (forall count,
        out r = Return count ->
        (ep_group ep = group -> ep_name ep <> "") ->
        (forall env0 plugin,
            fst (ep_load ep env0) = Return plugin -> __bool__ plugin = true) ->
        skips (pm_after r) group name ep = true).
Proof.
  cbv zeta. rewrite load_entry_point_run.
  destruct (skips pm group name ep) eqn:S.
  - split; [apply keeps_bindings_refl|]. intros. exact S.
  - destruct (skips_false _ _ _ _ S) as (Hg & _ & Hfree).
    destruct (ep_load ep env) as [[plugin|e] env1] eqn:L.
    + cbv zeta.
      pose proof (register_keeps_bindings pm env1 plugin (Some (ep_name ep)))
        as K.
      destruct (out (register plugin (Some (ep_name ep)) pm env1))
        as [x|e] eqn:O.
      * split; [exact K|]. intros count _ Hne Htrue.
        destruct Hfree as [Hfree|(q & Hq & _)].
        -- cbn [pm_after]. unfold skips, get_plugin.
           cbn [_name2plugin with_plugin_distinfo].
           rewrite (register_fresh_name_run _ _ _ (Hne Hg) Hfree O).
           cbn [truthy_plugin].
           rewrite (Htrue env plugin) by now rewrite L.
           now rewrite !orb_true_r.
        -- rewrite (register_bound_name_raises _ env1 plugin (Hne Hg) Hq)
             in O.
           discriminate.
      * split; [exact K|discriminate].
    + split; [apply keeps_bindings_refl|discriminate].
Qed.

Lemma load_entry_points_settle group name dist eps :
  forall count pm env,
    let r := load_entry_points group name dist eps count pm env in
    keeps_bindings pm (pm_after r)
    /\ (forall count',
          out r = Return count' ->
          (forall ep, In ep eps -> ep_group ep = group -> ep_name ep <> "") ->
          (forall ep env0 plugin,
              In ep eps -> fst (ep_load ep env0) = Return plugin ->
              __bool__ plugin = true) ->
          forall ep, In ep eps -> skips (pm_after r) group name ep = true).
Proof.
  induction eps as [|ep eps IH]; intros count pm env; cbv zeta.
  - split; [apply keeps_bindings_refl|]. intros _ _ _ _ ep [].
  - cbn [load_entry_points]. rewrite out_bind, pm_after_bind.
    destruct (load_entry_point_settles group name dist ep pm env)
      as [K1 S1].
    destruct (out (load_entry_point group name dist ep pm env))
      as [loaded|e] eqn:O; [|split; [exact K1|discriminate]].
    destruct (IH (count + loaded)
                 (pm_after (load_entry_point group name dist ep pm env))
                 (env_after (load_entry_point group name dist ep pm env)))
      as [K2 S2].
    split; [eapply keeps_bindings_trans; eassumption|].
    intros count' Hout Hne Htrue ep' [<-|Hin].
    + eapply skips_mono; [exact K2|].
      apply (S1 loaded eq_refl).
      * apply Hne. now left.
      * intros env0 plugin. apply Htrue. now left.
    + apply (S2 count' Hout); [| |exact Hin].
      * intros ep0 H0. apply Hne. now right.
      * intros ep0 env0 plugin H0. apply Htrue. now right.
Qed.

Lemma load_distributions_settle group name dists :
  forall count pm env,
    let r := load_distributions group name dists count pm env in
    keeps_bindings pm (pm_after r)
    /\ (forall count',
          out r = Return count' ->
          (forall dist ep, In (dist, ep) (all_entry_points dists) ->
                           ep_group ep = group -> ep_name ep <> "") ->
          (forall dist ep env0 plugin,
              In (dist, ep) (all_entry_points dists) ->
              fst (ep_load ep env0) = Return plugin ->
              __bool__ plugin = true) ->
          forall dist ep, In (dist, ep) (all_entry_points dists) ->
                          skips (pm_after r) group name ep = true).
Proof.
  induction dists as [|dist dists IH]; intros count pm env; cbv zeta.
  - split; [apply keeps_bindings_refl|]. intros _ _ _ _ dist ep [].
  - cbn [load_distributions]. rewrite out_bind, pm_after_bind.
    destruct (load_entry_points_settle group name dist (entry_points dist)
                count pm env) as [K1 S1].
    destruct (out (load_entry_points group name dist (entry_points dist)
                     count pm env))
      as [count1|e] eqn:O; [|split; [exact K1|discriminate]].
    destruct (IH count1
                 (pm_after (load_entry_points group name dist
                              (entry_points dist) count pm env))
                 (env_after (load_entry_points group name dist
                               (entry_points dist) count pm env)))
      as [K2 S2].
    split; [eapply keeps_bindings_trans; eassumption|].
    assert (Hhere : forall ep, In ep (entry_points dist) ->
                      In (dist, ep) (all_entry_points (dist :: dists))).
    { intros ep Hin. unfold all_entry_points. cbn [flat_map].
      apply in_or_app. left. now apply in_map. }
    assert (Hlater : forall dist' ep,
                       In (dist', ep) (all_entry_points dists) ->
                       In (dist', ep) (all_entry_points (dist :: dists))).
    { intros dist' ep Hin. unfold all_entry_points. cbn [flat_map].
      apply in_or_app. now right. }
    intros count' Hout Hne Htrue dist' ep' Hin.
    unfold all_entry_points in Hin. cbn [flat_map] in Hin.
    apply in_app_or in Hin. destruct Hin as [Hin|Hin].
    + apply in_map_iff in Hin. destruct Hin as (ep0 & [= <- <-] & Hin).
      eapply skips_mono; [exact K2|].
      apply (S1 count1 eq_refl); [| |exact Hin].
      * intros ep1 H1. apply (Hne dist). now apply Hhere.
      * intros ep1 env0 plugin H1. apply (Htrue dist). now apply Hhere.
    + apply (S2 count' Hout) with (dist := dist'); [| |exact Hin].
      * intros dist1 ep1 H1. apply (Hne dist1). now apply Hlater.
      * intros dist1 ep1 env0 plugin H1. apply (Htrue dist1).
        now apply Hlater.
Qed.

(** X16. Loading is idempotent for plugins that are true: when no entry
    point of the group has an empty name, every plugin an entry point
    loads has the truth value true, and [load_setuptools_entrypoints]
    returns, a second call on the same distributions returns 0 and does
    nothing, since every entry point it loaded is now registered under
    its name. *)
Theorem load_setuptools_entrypoints_twice dists group name pm env count :
  (forall dist ep, In (dist, ep) (all_entry_points dists) ->
                   ep_group ep = group -> ep_name ep <> "") ->
  (forall dist ep env0 plugin,
      In (dist, ep) (all_entry_points dists) ->
      fst (ep_load ep env0) = Return plugin -> __bool__ plugin = true) ->
  let r := load_setuptools_entrypoints dists group name pm env in
  out r = Return count ->
  forall env',
    load_setuptools_entrypoints dists group name (pm_after r) env'
    = mkRun (Return 0) (pm_after r) env' [].
Proof.
  intros Hne Htrue r Hout env'. apply load_distributions_skip.
  destruct (load_distributions_settle group name dists 0 pm env) as [_ S].
  exact (S count Hout Hne Htrue).
Qed.

Lemma load_entry_point_invariant (I : @PluginManager Env -> Prop)
    group name dist ep pm env :
  (forall pm env P name, I pm -> I (pm_after (register P name pm env))) ->
  (forall pm l, I pm -> I (with_plugin_distinfo pm l)) ->
  I pm -> I (pm_after (load_entry_point group name dist ep pm env)).
Proof.
  intros Hreg Hdist H. rewrite load_entry_point_run.
  destruct (skips pm group name ep); [exact H|].
  destruct (ep_load ep env) as [[plugin|e] env1]; [|exact H].
  cbv zeta.
  pose proof (Hreg pm env1 plugin (Some (ep_name ep)) H) as H'.
  destruct (out (register plugin (Some (ep_name ep)) pm env1));
    cbn [pm_after]; auto.
Qed.

Lemma load_entry_points_invariant (I : @PluginManager Env -> Prop)
    group name dist eps :
  (forall pm env P name, I pm -> I (pm_after (register P name pm env))) ->
  (forall pm l, I pm -> I (with_plugin_distinfo pm l)) ->
  forall count pm env,
    I pm -> I (pm_after (load_entry_points group name dist eps count pm env)).
Proof.
  intros Hreg Hdist.
  induction eps as [|ep eps IH]; intros count pm env H; [exact H|].
  cbn [load_entry_points]. rewrite pm_after_bind.
  pose proof (@load_entry_point_invariant I group name dist ep pm env
                Hreg Hdist H) as H'.
  destruct (out (load_entry_point group name dist ep pm env)); auto.
Qed.

Lemma load_distributions_invariant (I : @PluginManager Env -> Prop)
    group name dists :
  (forall pm env P name, I pm -> I (pm_after (register P name pm env))) ->
  (forall pm l, I pm -> I (with_plugin_distinfo pm l)) ->
  forall count pm env,
    I pm -> I (pm_after (load_distributions group name dists count pm env)).
Proof.
  intros Hreg Hdist.
  induction dists as [|dist dists IH]; intros count pm env H; [exact H|].
  cbn [load_distributions]. rewrite pm_after_bind.
  pose proof (@load_entry_points_invariant I group name dist
                (entry_points dist) Hreg Hdist count pm env H) as H'.
  destruct (out (load_entry_points group name dist (entry_points dist)
                   count pm env)); auto.
Qed.

(** X17. [load_setuptools_entrypoints] keeps the invariants of the
    registry, whether it returns or raises: names and plugins still
    correspond one to one, and every implementation a caller holds still
    belongs to a registered plugin. *)
Theorem load_setuptools_entrypoints_keeps_invariants dists group name pm
    env :
  let pm' := pm_after (load_setuptools_entrypoints dists group name pm env) in
  (one_to_one pm -> one_to_one pm')
  /\ (consistent pm -> consistent pm').
Proof.
  cbv zeta. unfold load_setuptools_entrypoints. split.
  - apply (@load_distributions_invariant (@one_to_one Env)).
    + intros pm0 env0 P name0. apply one_to_one_register.
    + intros pm0 l H. exact H.
  - apply (@load_distributions_invariant (@consistent Env)).
    + intros pm0 env0 P name0. apply consistent_register.
    + intros pm0 l H. exact H.
Qed.


(** *** What [subset_hook_caller], [add_hookspecs] and [unregister] leave
    alone *)



(** X20. Whatever [add_hookspecs] returns or raises, it touches
    specifications only: the name mapping, the distribution list, the
    call engine and the project name are unchanged, every caller holds
    the implementations it held, in their order, and a caller that is new
    holds none. *)
Theorem add_hookspecs_keeps_hookimpls pm env (ns : _Namespace) :
  let pm' := pm_after (add_hookspecs ns pm env) in
  list_name_plugin pm' = list_name_plugin pm
  /\ list_plugin_distinfo pm' = list_plugin_distinfo pm
  /\ _inner_hookexec pm' = _inner_hookexec pm
  /\ project_name pm' = project_name pm
  /\ (forall k hc,
        Dict.get (hook pm) k = Some hc ->
        exists hc', Dict.get (hook pm') k = Some hc'
                    /\ get_hookimpls hc' = get_hookimpls hc)
  /\ (forall k hc',
        Dict.get (hook pm) k = None -> Dict.get (hook pm') k = Some hc' ->
        get_hookimpls hc' = []).
Proof.
  cbv zeta.
  destruct (keeps_add_hookspecs ns pm env) as [(Hp & Hn & Hd & He) Hk].
  repeat split; auto.
  - intros k hc G. specialize (Hk k). rewrite G in Hk.
    destruct (Dict.get (hook (pm_after (add_hookspecs ns pm env))) k)
      as [hc'|]; [eauto|discriminate].
  - intros k hc' G G'. specialize (Hk k). now rewrite G, G' in Hk.
Qed.

(** X21. [unregister] does not check that a name and a plugin given
    together belong together.  When the name is bound to another plugin,
    whose truth value is true, the call returns the plugin given; that
    plugin stays registered but loses its implementations in every
    caller, while the plugin bound to the name is unregistered and every
    caller keeps its implementations. *)
Theorem unregister_name_and_plugin_unrelated pm env (P Q : _Plugin) n m :
  one_to_one pm ->
  get_name pm (Some P) = Some m ->
  get_plugin pm n = Some Q ->
  __bool__ Q = true ->
  plugin_is P Q = false ->
  let r := unregister (Some P) (Some n) pm env in
  let pm' := pm_after r in
  out r = Return (Some P)
  /\ is_registered pm' P = true
  /\ get_plugin pm' n = None
  /\ is_registered pm' Q = false
  /\ (forall k,
        Dict.get (hook pm') k
        = option_map (fun hc => _remove_plugin hc (Some P))
                     (Dict.get (hook pm) k))
  /\ (forall k hc h,
        Dict.get (hook pm) k = Some hc -> In h (get_hookimpls hc) ->
        plugin_is Q (HookImpl.plugin h) = true ->
        exists hc', Dict.get (hook pm') k = Some hc'
                    /\ In h (get_hookimpls hc')).
Proof.
  intros H N G Htrue HPQ r pm'. subst r pm'.
  rewrite unregister_by_name_run. cbv zeta. cbn [out pm_after].
  pose proof (@get_plugin_binding pm n Q G) as G'.
  assert (Hd : _name2plugin (unregistered pm (Some P) n)
               = Dict.del (_name2plugin pm) n).
  { unfold unregistered. cbv zeta. cbn [_name2plugin]. rewrite G.
    cbn [truthy_plugin]. now rewrite Htrue. }
  pose proof (@one_to_one_unregistered pm (Some P) n H) as H'.
  assert (Hfree : Dict.get (_name2plugin (unregistered pm (Some P) n)) n
                  = None)
    by (rewrite Hd; apply Dict_get_del_same, H).
  assert (Hhook : forall k,
             Dict.get (hook (unregistered pm (Some P) n)) k
             = option_map (fun hc => _remove_plugin hc (Some P))
                          (Dict.get (hook pm) k)).
  { intros k. apply unregistered_hook. congruence. }
  split; [reflexivity|]. split; [|split; [|split; [|split]]].
  - destruct (get_name_binding _ _ N) as (q & Hin & Hq).
    apply is_registered_In. exists m, q. split; [|exact Hq].
    rewrite Hd. apply Dict_In_del_other; [exact Hin|].
    intros ->. eapply Dict_wf_In_get in Hin; [|exact (proj1 H)].
    assert (q = Q) by congruence. subst q. congruence.
  - unfold get_plugin. now rewrite Hfree.
  - destruct (is_registered _ Q) eqn:R; [|reflexivity].
    apply is_registered_In in R. destruct R as (k & q & Hin & Hq).
    pose proof Hin as Hin'. rewrite Hd in Hin'. apply Dict_In_del in Hin'.
    assert (k = n).
    { apply (proj2 H k n q Q Hin'); [eapply Dict_get_In; exact G'|].
      now rewrite plugin_is_sym. }
    subst k. eapply Dict_wf_In_get in Hin; [|exact (proj1 H')].
    congruence.
  - exact Hhook.
  - intros k hc h Gk Hin Hq. rewrite Hhook, Gk. cbn [option_map].
    eexists. split; [reflexivity|].
    unfold get_hookimpls, _remove_plugin. cbn [_hookimpls].
    apply filter_In. split; [exact Hin|].
    apply negb_true_iff. unfold belongs_to. cbn [opt_plugin_eq].
    destruct (plugin_is P (HookImpl.plugin h)) eqn:E; [|reflexivity].
    rewrite (plugin_is_trans _ _ _ E) in HPQ; [discriminate|].
    now rewrite plugin_is_sym.
Qed.

End RegistryMore.

(* ================================================================== *)
(** ** Properties of [enable_tracing] *)
(* ================================================================== *)

Section TracingFacts.
Context {Env : Type}.
Variable indent : Env -> Z.
Variable set_indent : Z -> Env -> Env.
Variable hooktrace : list TraceArg -> @Effect Env unit.

Lemma enable_tracing_run (pm : @PluginManager Env) env :
  enable_tracing indent set_indent hooktrace pm env
  = mkRun (Return (undo (_inner_hookexec pm)))
          (with_inner_hookexec pm
             (traced_hookexec
                (enable_tracing_before indent set_indent hooktrace)
                (enable_tracing_after indent set_indent hooktrace)
                (_inner_hookexec pm)))
          env [].
Proof.
  unfold enable_tracing, add_hookcall_monitoring.
  now rewrite bind_self, bind_store.
Qed.

(** X22. Tracing is transparent: [enable_tracing] installs an engine
    that returns a value only if the engine it wraps returned that value,
    that raises what the wrapped engine raises, and that, when the tracer
    itself does not raise, has the outcome of the wrapped engine; the
    function it returns reinstalls the wrapped engine. *)
Theorem enable_tracing_is_transparent (pm : @PluginManager Env) env :
  let r := enable_tracing indent set_indent hooktrace pm env in
  let before := enable_tracing_before indent set_indent hooktrace in
  let old := _inner_hookexec pm in
  let new := _inner_hookexec (pm_after r) in
  out r = Return (undo old)
  /\ pm_after (undo old (pm_after r) env) = pm
  /\ forall hook_name impls kwargs firstresult e0,
       let e1 := snd (before hook_name impls kwargs e0) in
       (forall v,
           fst (new hook_name impls kwargs firstresult e0) = Return v ->
           fst (old hook_name impls kwargs firstresult e1) = Return v)
       /\ (forall e,
             fst (before hook_name impls kwargs e0) = Return tt ->
             fst (old hook_name impls kwargs firstresult e1) = Raise e ->
             fst (new hook_name impls kwargs firstresult e0) = Raise e)
       /\ ((forall args e, fst (hooktrace args e) = Return tt) ->
           fst (new hook_name impls kwargs firstresult e0)
           = fst (old hook_name impls kwargs firstresult e1)).
Proof.
  cbv zeta. rewrite enable_tracing_run. cbn [out pm_after].
  split; [reflexivity|]. split.
  { unfold undo. rewrite bind_self. cbn [store pm_after].
    apply with_inner_hookexec_undo. }
  intros hook_name impls kwargs firstresult e0.
  cbn [_inner_hookexec with_inner_hookexec].
  unfold traced_hookexec, from_call.
  destruct (enable_tracing_before indent set_indent hooktrace hook_name
              impls kwargs e0) as [[[]|eb] e1] eqn:B;
    cbn [fst snd].
  - destruct (_inner_hookexec pm hook_name impls kwargs firstresult e1)
      as [[v|e] e2] eqn:O; cbn [fst snd].
    + unfold enable_tracing_after.
      destruct (hooktrace _ e2) as [[[]|et] e3] eqn:T; cbn [fst get_result].
      * repeat split; auto; try discriminate.
      * split; [discriminate|]. split; [discriminate|].
        intros H.
        pose proof (H [TraceStr "finish"; TraceStr hook_name; TraceStr "-->";
                       TraceVal v] e2) as H'.
        rewrite T in H'. discriminate.
    + unfold enable_tracing_after. cbn [fst get_result].
      repeat split; auto; try discriminate.
  - split; [discriminate|]. split; [discriminate|].
    intros H. unfold enable_tracing_before in B.
    pose proof (H [TraceStr hook_name; TraceKwargs kwargs]
                  (set_indent (indent e0 + 1) e0)) as H'.
    rewrite B in H'. discriminate.
Qed.

(** X23. With a tracer that keeps its indentation through a message and
    a wrapped engine that leaves the indentation as it found it, a hook
    call through the engine of [enable_tracing] leaves the indentation as
    it found it when the tracer does not raise; when the tracer raises on
    the message of [before], the wrapped engine is not run and the
    indentation stays one level deeper. *)
Theorem enable_tracing_indentation (pm : @PluginManager Env) env :
  (forall z e, indent (set_indent z e) = z) ->
  (forall args e, indent (snd (hooktrace args e)) = indent e) ->
  (forall hook_name impls kwargs firstresult e,
      indent (snd (_inner_hookexec pm hook_name impls kwargs firstresult e))
      = indent e) ->
  let r := enable_tracing indent set_indent hooktrace pm env in
  let before := enable_tracing_before indent set_indent hooktrace in
  let new := _inner_hookexec (pm_after r) in
  forall hook_name impls kwargs firstresult e0,
    ((forall args e, fst (hooktrace args e) = Return tt) ->
     indent (snd (new hook_name impls kwargs firstresult e0)) = indent e0)
    /\ (forall e,
          fst (before hook_name impls kwargs e0) = Raise e ->
          new hook_name impls kwargs firstresult e0
          = (Raise e, snd (before hook_name impls kwargs e0))
          /\ indent (snd (new hook_name impls kwargs firstresult e0))
             = (indent e0 + 1)%Z).
Proof.
  intros Hset Htrace Hold. cbv zeta. rewrite enable_tracing_run.
  cbn [pm_after _inner_hookexec with_inner_hookexec].
  intros hook_name impls kwargs firstresult e0.
  unfold traced_hookexec, from_call.
  assert (Hb : indent (snd (enable_tracing_before indent set_indent hooktrace
                              hook_name impls kwargs e0))
               = (indent e0 + 1)%Z).
  { unfold enable_tracing_before. now rewrite Htrace, Hset. }
  destruct (enable_tracing_before indent set_indent hooktrace hook_name
              impls kwargs e0) as [[[]|eb] e1] eqn:B;
    cbn [fst snd] in *.
  - split; [|discriminate]. intros Hok.
    pose proof (Hold hook_name impls kwargs firstresult e1) as Ho.
    destruct (_inner_hookexec pm hook_name impls kwargs firstresult e1)
      as [[v|e] e2]; cbn [snd] in Ho; unfold enable_tracing_after.
    + pose proof (Htrace [TraceStr "finish"; TraceStr hook_name;
                          TraceStr "-->"; TraceVal v] e2) as Ht.
      pose proof (Hok [TraceStr "finish"; TraceStr hook_name;
                       TraceStr "-->"; TraceVal v] e2) as Hr.
      destruct (hooktrace _ e2) as [[[]|et] e3]; cbn [fst snd] in *;
        [|discriminate].
      rewrite Hset. lia.
    + cbn [snd]. rewrite Hset. lia.
  - split.
    + intros Hok. unfold enable_tracing_before in B.
      specialize (Hok [TraceStr hook_name; TraceKwargs kwargs]
                      (set_indent (indent e0 + 1) e0)).
      rewrite B in Hok. discriminate.
    + intros e [= <-]. split; [reflexivity|exact Hb].
Qed.

End TracingFacts.

(* ================================================================== *)
(** ** The further properties at concrete managers *)
(* ================================================================== *)

Lemma canonical_names_of_anonymous_plugins_witness :
  get_canonical_name anonymous7 = get_canonical_name anonymous8
  <-> plugin_is anonymous7 anonymous8 = true.
Proof.
  apply (canonical_names_of_anonymous_plugins anonymous7 anonymous8);
    reflexivity.
Defined.



Lemma add_hookspecs_needs_a_marker_witness :
  add_hookspecs no_specs demo_manager tt
  = mkRun (Raise (ValueError (did_not_find_any_hooks "demo" no_specs)))
          demo_manager tt [].
Proof.
  apply (proj1 (@add_hookspecs_needs_a_marker unit _ demo_manager tt no_specs)).
  intros n [<-|[]]. reflexivity.
Defined.


Lemma demo_with_alpha_one_to_one : one_to_one demo_with_alpha.
Proof. apply one_to_one_register, one_to_one_init. Qed.

Lemma unregister_by_name_or_by_plugin_witness :
  unregister None (Some "alpha") demo_with_alpha tt
  = unregister (Some alpha) None demo_with_alpha tt.
Proof.
  apply (@unregister_by_name_or_by_plugin unit demo_with_alpha tt "alpha"
           alpha).
  - exact demo_with_alpha_one_to_one.
  - reflexivity.
Defined.

Lemma unregister_unbinds_witness :
  let r := unregister (Some alpha) None demo_with_alpha tt in
  out r = Return (Some alpha)
  /\ is_registered (pm_after r) alpha = false
  /\ get_hookcallers (pm_after r) (Some alpha) = None.
Proof.
  cbv zeta.
  destruct (@unregister_unbinds unit demo_with_alpha tt "alpha" alpha
              demo_with_alpha_one_to_one eq_refl)
    as (Ho & _ & _ & _ & _ & _ & Htrue & _).
  destruct (Htrue eq_refl) as (Hr & _ & _ & Hc & _).
  exact (conj Ho (conj Hr Hc)).
Defined.

Lemma load_setuptools_entrypoints_loads_nothing_witness :
  load_setuptools_entrypoints [dist_one] "demo" None demo_with_alpha tt
  = mkRun (Return 0) demo_with_alpha tt [].
Proof.
  apply (@load_setuptools_entrypoints_loads_nothing unit _ [dist_one] "demo"
           None demo_with_alpha tt).
  intros dist ep [[= <- <-]|[[= <- <-]|[]]].
  - right. right. left. reflexivity.
  - left. discriminate.
Defined.

Lemma load_setuptools_entrypoints_twice_witness :
  let r := load_setuptools_entrypoints [dist_one; dist_two] "demo" None
             demo_manager tt in
  out r = Return 2
  /\ load_setuptools_entrypoints [dist_one; dist_two] "demo" None
       (pm_after r) tt
     = mkRun (Return 0) (pm_after r) tt [].
Proof.
  cbv zeta. split; [reflexivity|].
  apply (@load_setuptools_entrypoints_twice unit _ [dist_one; dist_two] "demo"
           None demo_manager tt 2).
  - intros dist ep [[= <- <-]|[[= <- <-]|[[= <- <-]|[]]]] _; discriminate.
  - intros dist ep env0 plugin [[= <- <-]|[[= <- <-]|[[= <- <-]|[]]]] [= <-];
      reflexivity.
  - reflexivity.
Defined.

Lemma load_setuptools_entrypoints_counts_witness :
  let r := load_setuptools_entrypoints [dist_one; dist_two] "demo" None
             demo_manager tt in
  exists added,
    list_plugin_distinfo (pm_after r) = added /\ length added = 2.
Proof.
  cbv zeta.
  destruct (@load_setuptools_entrypoints_counts unit _ [dist_one; dist_two]
              "demo" None demo_manager tt) as (added & Hd & Hc & _).
  exists added. split; [exact Hd|]. symmetry. apply Hc. reflexivity.
Defined.


Lemma enable_tracing_indentation_witness :
  trace_indent
    (snd (_inner_hookexec
            (pm_after (enable_tracing trace_indent trace_set_indent trace_log
                         traced_manager (0%Z, [])))
            "on_load" [] [] false (0%Z, [])))
  = 0%Z.
Proof.
  refine (proj1 (@enable_tracing_indentation TraceEnv trace_indent
                   trace_set_indent trace_log traced_manager (0%Z, [])
                   _ _ _ "on_load" [] [] false (0%Z, [])) _);
    intros; reflexivity.
Defined.


Lemma get_hookcallers_lists_implementations_witness :
  get_hookcallers demo_with_alpha (Some beta) = None.
Proof.
  apply (proj1 (@get_hookcallers_lists_implementations unit demo_with_alpha
                  beta)).
  reflexivity.
Defined.

Lemma unregister_name_and_plugin_unrelated_witness :
  let r := unregister (Some alpha) (Some "beta") demo_with_alpha_beta tt in
  out r = Return (Some alpha)
  /\ is_registered (pm_after r) alpha = true
  /\ get_plugin (pm_after r) "beta" = None
  /\ is_registered (pm_after r) beta = false.
Proof.
  cbv zeta.
  destruct (@unregister_name_and_plugin_unrelated unit demo_with_alpha_beta
              tt alpha beta "beta" "alpha")
    as (Ho & Ha & Hn & Hb & _).
  - apply one_to_one_register. exact demo_with_alpha_one_to_one.
  - reflexivity.
  - reflexivity.
  - reflexivity.
  - reflexivity.
  - exact (conj Ho (conj Ha (conj Hn Hb))).
Defined.

